(** * bencode2json: the bencode to JSON transcoder of [src/bencode2json.c]

    The C program reads one bencoded value from [stdin] one byte at a time
    and writes its JSON form to [stdout].  Its functions are embedded here as
    computations over an explicit I/O state; loops and the recursion of
    [convert_value] take a fuel argument, and a run that uses it up ends in
    [OutOfFuel] with the state it had reached.  A run that meets undefined
    behaviour of C (a write outside an array, an [atoi] result that does not
    fit an [int]) ends in [Undefined]. *)

From Stdlib Require Import Strings.Byte Strings.String.
From Stdlib Require Import ZArith List Lia Bool Arith.
Import ListNotations.

Set Warnings "-register-all".

Local Open Scope byte_scope.
Local Open Scope list_scope.

(** ** Bytes and C characters *)

(** A C [char] is kept as its 8-bit pattern; [code] is its value as an
    [unsigned char].  The comparisons of the source are against ASCII
    literals, for which the signedness of [char] makes no difference; it
    does where a [char] is passed as an [int], see [int_of_char]. *)
Definition code (c : byte) : Z := Z.of_N (Byte.to_N c).

(** The double quote, written by its code point. *)
Definition dquote : byte := x22.

(** [getc] returns an [int]: the byte as an [unsigned char], or [EOF]. *)
Definition EOF : Z := -1.

(** The conversion [char c = <int>]: the low eight bits. *)
Definition char_of_int (r : Z) : byte :=
  match Byte.of_N (Z.to_N (r mod 256)) with
  | Some c => c
  | None => x00
  end.

(** The conversion of a [char] to [int], as in the call [ungetc(c, stdin)].
    Plain [char] is a signed type here, as it is on x86-64: the bytes from
    0x80 on are negative, and 0xff is -1, the value of [EOF]. *)
Definition int_of_char (c : byte) : Z :=
  if (code c <? 128)%Z then code c else (code c - 256)%Z.

(** The bytes of a string literal. *)
Definition bytes (s : String.string) : list byte :=
  String.list_byte_of_string s.

Arguments bytes s%_string.

(** ** The C library functions the program calls

    The program never calls [setlocale], so the classes of [<ctype.h>] are
    those of the "C" locale; a byte above 127 belongs to none of them. *)

Definition in_range (lo hi : Z) (c : byte) : bool :=
  (lo <=? code c)%Z && (code c <=? hi)%Z.

Definition isdigit (c : byte) : bool := in_range 48 57 c.

Definition isalnum (c : byte) : bool :=
  isdigit c || in_range 65 90 c || in_range 97 122 c.

Definition ispunct (c : byte) : bool :=
  in_range 33 47 c || in_range 58 64 c || in_range 91 96 c || in_range 123 126 c.

Definition isspace (c : byte) : bool :=
  Byte.eqb c " " || in_range 9 13 c.

(** [sprintf(byte, "%02x", (uint8_t)c)]: two lowercase hexadecimal digits. *)
Definition hex_digit (n : Z) : byte :=
  if (n <? 10)%Z then char_of_int (48 + n) else char_of_int (97 + (n - 10)).

Definition sprintf_02x (c : byte) : byte * byte :=
  (hex_digit (code c / 16), hex_digit (code c mod 16)).

Definition INT_MAX : Z := 2147483647.
Definition INT_MIN : Z := -2147483648.

(** [size_t] is taken to be 64 bits wide; an [int] converts to it modulo
    [2^64]. *)
Definition size_t_of_int (v : Z) : Z := (v mod 2 ^ 64)%Z.

(** A cell of a local array: [None] while it has not been written. *)
Definition cell : Type := option byte.

(** The digit run of [atoi]: accumulate while the cells hold digits.  Reading
    a cell that was never written, or past the end of the array, has no
    defined result. *)
Fixpoint atoi_digits (s : list cell) (acc : Z) : option Z :=
  match s with
  | [] => None
  | None :: _ => None
  | Some c :: s' =>
      if isdigit c then atoi_digits s' (acc * 10 + (code c - 48))%Z
      else Some acc
  end.

Fixpoint atoi_skip (s : list cell) : option Z :=
  match s with
  | [] => None
  | None :: _ => None
  | Some c :: s' =>
      if isspace c then atoi_skip s'
      else if Byte.eqb c "-" then option_map Z.opp (atoi_digits s' 0)
      else if Byte.eqb c "+" then atoi_digits s' 0
      else atoi_digits s 0
  end.

(** [atoi]: white space, an optional sign, decimal digits.  The result is an
    [int]; a value that does not fit has no defined result. *)
Definition atoi (s : list cell) : option Z :=
  match atoi_skip s with
  | Some v => if (INT_MIN <=? v)%Z && (v <=? INT_MAX)%Z then Some v else None
  | None => None
  end.

(** ** The I/O state *)

(** The calls made on the input stream, in the order they happen. *)
Inductive io_call : Type :=
| Get (r : Z)          (* get_character returned r *)
| Unget (c : byte).    (* unget_character was passed c *)

Record state : Type := mkState {
  stdin : list byte;          (* bytes of the input not read yet *)
  ungot : list byte;          (* bytes pushed back, the latest first *)
  stdout : list byte;         (* bytes written so far *)
  calls : list io_call;       (* the calls on the input so far *)
  lenBuf_writes : list nat    (* indices of lenBuf written so far *)
}.

Definition initial (inp : list byte) : state :=
  mkState inp [] [] [] [].

(** What the coming reads return, in order. *)
Definition pending (st : state) : list byte := ungot st ++ stdin st.

(** ** Computations *)

Inductive outcome (A : Type) : Type :=
| Done (a : A)
| OutOfFuel
| Undefined.

Arguments Done {A} a.
Arguments OutOfFuel {A}.
Arguments Undefined {A}.

Definition M (A : Type) : Type := state -> outcome A * state.

Definition ret {A} (a : A) : M A := fun st => (Done a, st).

Definition bind {A B} (m : M A) (k : A -> M B) : M B :=
  fun st =>
    match m st with
    | (Done a, st') => k a st'
    | (OutOfFuel, st') => (OutOfFuel, st')
    | (Undefined, st') => (Undefined, st')
    end.

Definition out_of_fuel {A} : M A := fun st => (OutOfFuel, st).
Definition undefined {A} : M A := fun st => (Undefined, st).

Notation "x <- m ;; k" := (bind m (fun x => k))
  (at level 61, m at next level, right associativity).
Notation "m ;; k" := (bind m (fun _ => k))
  (at level 61, right associativity).

(** ** The three I/O functions

    [getc], [ungetc] and [putc] on the standard streams.  The parameters of
    [unget_character] and [output_character] are [char]s, and the library
    functions take [int]s. *)

(** Reads one byte of bencoded input: a byte pushed back comes first, then
    the next byte of the file, and [EOF] once the file is exhausted. *)
Definition get_character : M Z := fun st =>
  match ungot st with
  | c :: u =>
      (Done (code c),
       mkState (stdin st) u (stdout st)
               (calls st ++ [Get (code c)]) (lenBuf_writes st))
  | [] =>
      match stdin st with
      | c :: rest =>
          (Done (code c),
           mkState rest [] (stdout st)
                   (calls st ++ [Get (code c)]) (lenBuf_writes st))
      | [] =>
          (Done EOF,
           mkState [] [] (stdout st)
                   (calls st ++ [Get EOF]) (lenBuf_writes st))
      end
  end.

(** Unreads one character.  [ungetc] takes an [int]: a value other than
    [EOF] is pushed back, converted to [unsigned char], and the next call to
    [get_character] returns it.  On [EOF] the call fails and leaves the
    stream as it is; that is what the byte 0xff arrives as, and with it the
    [char] that an [EOF] returned by [get_character] was stored in.  The
    source ignores the result of [ungetc]. *)
Definition unget_character (c : byte) : M unit := fun st =>
  (Done tt,
   mkState (stdin st)
           (if (int_of_char c =? EOF)%Z then ungot st
            else char_of_int (int_of_char c) :: ungot st)
           (stdout st) (calls st ++ [Unget c]) (lenBuf_writes st)).

(** Outputs a single character. *)
Definition output_character (c : byte) : M unit := fun st =>
  (Done tt,
   mkState (stdin st) (ungot st) (stdout st ++ [c])
           (calls st) (lenBuf_writes st)).

(** ** convert_integer *)

Fixpoint convert_integer (fuel : nat) : M unit :=
  match fuel with
  | O => out_of_fuel
  | S fuel' =>
      r <- get_character ;;
      let c := char_of_int r in
      if Byte.eqb c "e" then ret tt
      else output_character c ;; convert_integer fuel'
  end.

(** ** convert_list and convert_dictionary

    The forward declaration [static void convert_value();] becomes the
    parameter [convert_value] of the two container converters. *)

Section Containers.

Variable convert_value : M unit.

Fixpoint convert_list_loop (fuel : nat) (output : bool) : M unit :=
  match fuel with
  | O => out_of_fuel
  | S fuel' =>
      r <- get_character ;;
      let c := char_of_int r in
      if Byte.eqb c "e" then ret tt
      else
        unget_character c ;;
        (if output then output_character "," else ret tt) ;;
        convert_value ;;
        convert_list_loop fuel' true
  end.

Definition convert_list (fuel : nat) : M unit :=
  output_character "[" ;;
  convert_list_loop fuel false ;;
  output_character "]".

Fixpoint convert_dictionary_loop (fuel : nat) (output : bool) : M unit :=
  match fuel with
  | O => out_of_fuel
  | S fuel' =>
      r <- get_character ;;
      let c := char_of_int r in
      if Byte.eqb c "e" then ret tt
      else
        unget_character c ;;
        (if output then output_character "," else ret tt) ;;
        convert_value ;;
        output_character ":" ;;
        convert_value ;;
        convert_dictionary_loop fuel' true
  end.

Definition convert_dictionary (fuel : nat) : M unit :=
  output_character "{" ;;
  convert_dictionary_loop fuel false ;;
  output_character "}".

End Containers.

(** ** read_count *)

(** [lenBuf[i] = c]: the write is recorded; outside the array it is
    undefined behaviour. *)
Fixpoint update (buf : list cell) (i : nat) (c : byte) : option (list cell) :=
  match buf, i with
  | [], _ => None
  | _ :: buf', O => Some (Some c :: buf')
  | x :: buf', S i' => option_map (cons x) (update buf' i' c)
  end.

Definition store (buf : list cell) (i : nat) (c : byte) : M (list cell) :=
  fun st =>
    let st' := mkState (stdin st) (ungot st) (stdout st) (calls st)
                       (lenBuf_writes st ++ [i]) in
    match update buf i c with
    | Some buf' => (Done buf', st')
    | None => (Undefined, st')
    end.

Definition MAX_INT_LEN : nat := 50.

Fixpoint read_count_loop (fuel : nat) (lenBuf : list cell) (lenBufLen : nat)
  : M (list cell * nat) :=
  match fuel with
  | O => out_of_fuel
  | S fuel' =>
      r <- get_character ;;
      let c := char_of_int r in
      if Byte.eqb c ":" then ret (lenBuf, lenBufLen)
      else
        let lenBufLen := S lenBufLen in
        lenBuf <- store lenBuf (lenBufLen - 1) c ;;
        if MAX_INT_LEN <=? lenBufLen then ret (lenBuf, lenBufLen)
        else read_count_loop fuel' lenBuf lenBufLen
  end.

(** Reads the string length prefix and parses it as a number. *)
Definition read_count (fuel : nat) : M Z :=
  p <- read_count_loop fuel (repeat None MAX_INT_LEN) 0 ;;
  lenBuf <- store (fst p) (snd p) x00 ;;
  match atoi lenBuf with
  | Some v => ret (size_t_of_int v)
  | None => undefined
  end.

(** ** convert_string *)

(** The body of the payload loop, for the character just read. *)
Definition convert_string_char (c : byte) : M unit :=
  if Byte.eqb c dquote || Byte.eqb c "\" then
    output_character "\" ;;
    output_character c
  else if isalnum c || ispunct c || Byte.eqb c " " then
    output_character c
  else
    output_character "\" ;;
    output_character "u" ;;
    output_character "0" ;;
    output_character "0" ;;
    let byte := sprintf_02x c in
    output_character (fst byte) ;;
    output_character (snd byte).

Fixpoint convert_string_loop (fuel : nat) (i count : Z) : M unit :=
  match fuel with
  | O => out_of_fuel
  | S fuel' =>
      if (i <? count)%Z then
        r <- get_character ;;
        convert_string_char (char_of_int r) ;;
        convert_string_loop fuel' (i + 1)%Z count
      else ret tt
  end.

Definition convert_string (fuel : nat) : M unit :=
  count <- read_count fuel ;;
  output_character dquote ;;
  convert_string_loop fuel 0%Z count ;;
  output_character dquote.

(** ** convert_value and main *)

(** Read a bencoded value from the input and output the JSON equivalent. *)
Fixpoint convert_value (fuel : nat) : M unit :=
  match fuel with
  | O => out_of_fuel
  | S fuel' =>
      r <- get_character ;;
      let c := char_of_int r in
      if Byte.eqb c "i" then convert_integer fuel'
      else if Byte.eqb c "l" then convert_list (convert_value fuel') fuel'
      else if Byte.eqb c "d" then convert_dictionary (convert_value fuel') fuel'
      else
        unget_character c ;;
        convert_string fuel'
  end.

Definition main (fuel : nat) : M Z :=
  convert_value fuel ;;
  ret 0%Z.

(** Running the program on an input. *)
Definition run (fuel : nat) (inp : list byte) : outcome Z * list byte :=
  let r := main fuel (initial inp) in (fst r, stdout (snd r)).

(** ** Bencode values and their JSON form

    The values of section 6 of the specification: integers, byte strings,
    lists and dictionaries keyed by byte strings. *)

Inductive bvalue : Type :=
| BInt (n : Z)
| BStr (s : list byte)
| BList (vs : list bvalue)
| BDict (kvs : list (list byte * bvalue)).

(** Decimal digits of a natural number, most significant first. *)
Fixpoint dec_digits (fuel : nat) (n : Z) : list byte :=
  match fuel with
  | O => []
  | S fuel' =>
      if (n <? 10)%Z then [char_of_int (48 + n)]
      else dec_digits fuel' (n / 10) ++ [char_of_int (48 + n mod 10)]
  end.

Definition decimal (n : Z) : list byte :=
  dec_digits (S (Z.to_nat (Z.log2 n))) n.

Definition show_int (n : Z) : list byte :=
  if (n <? 0)%Z then "-" :: decimal (- n) else decimal n.

Definition bencode_string (s : list byte) : list byte :=
  decimal (Z.of_nat (length s)) ++ ":" :: s.

Fixpoint bencode (v : bvalue) : list byte :=
  match v with
  | BInt n => "i" :: show_int n ++ ["e"]
  | BStr s => bencode_string s
  | BList vs => "l" :: concat (map bencode vs) ++ ["e"]
  | BDict kvs =>
      "d" :: concat (map (fun kv => let '(k, v') := kv in
                                    bencode_string k ++ bencode v') kvs)
          ++ ["e"]
  end.

(** The escaping of one payload byte, in the words of section 4.6. *)
Definition lower_hex (n : Z) : byte :=
  nth (Z.to_nat n) (bytes "0123456789abcdef") "0".

Definition json_escape (b : byte) : list byte :=
  if Byte.eqb b dquote || Byte.eqb b "\" then ["\"; b]
  else if isalnum b || ispunct b || Byte.eqb b " " then [b]
  else ["\"; "u"; "0"; "0"; lower_hex (code b / 16); lower_hex (code b mod 16)].

Definition json_string (s : list byte) : list byte :=
  dquote :: flat_map json_escape s ++ [dquote].

(** Items written one after the other, with a comma before each one except
    the first when [output] is [false]. *)
Fixpoint items (output : bool) (l : list (list byte)) : list byte :=
  match l with
  | [] => []
  | x :: l' => (if output then [","] else []) ++ x ++ items true l'
  end.

Fixpoint to_json (v : bvalue) : list byte :=
  match v with
  | BInt n => show_int n
  | BStr s => json_string s
  | BList vs => "[" :: items false (map to_json vs) ++ ["]"]
  | BDict kvs =>
      "{" :: items false (map (fun kv => let '(k, v') := kv in
                                         json_string k ++ ":" :: to_json v') kvs)
          ++ ["}"]
  end.

(** A value whose string lengths [read_count] can return: they fit an
    [int]. *)
Definition short (s : list byte) : bool :=
  (Z.of_nat (length s) <=? INT_MAX)%Z.

Fixpoint wf (v : bvalue) : bool :=
  match v with
  | BInt _ => true
  | BStr s => short s
  | BList vs => forallb wf vs
  | BDict kvs => forallb (fun kv => let '(k, v') := kv in short k && wf v') kvs
  end.

(** * What the statements are written with *)

(** ** Runs seen from their input and output *)

(** [io m inp a out inp']: from any state whose coming input is [inp], the
    computation [m] returns [a], appends [out] to the output and leaves
    [inp'] as the coming input. *)
Definition io {A} (m : M A) (inp : list byte) (a : A)
           (out inp' : list byte) : Prop :=
  forall st, pending st = inp ->
    exists st', m st = (Done a, st') /\ pending st' = inp' /\
                stdout st' = stdout st ++ out.

(** ** Decimal digits *)

(** One digit more on the right of a decimal number. *)
Definition digit_step (acc : Z) (c : byte) : Z := (acc * 10 + (code c - 48))%Z.

(** The decimal value of a digit string. *)
Definition digits_value (ds : list byte) : Z := fold_left digit_step ds 0%Z.

(** ** Buffers, payloads and dictionary pairs *)

(** [lenBuf] once the bytes [pre] have been stored in it. *)
Definition buffer (pre : list byte) : list cell :=
  map Some pre ++ repeat None (MAX_INT_LEN - length pre).

(** The characters that [n] calls of [get_character] yield on the coming
    input [inp]: its first [n] bytes and, once it is exhausted, [EOF]
    converted to a [char]. *)
Definition reads (n : nat) (inp : list byte) : list byte :=
  firstn n inp ++ repeat xff (n - length inp).

(** The pair of an encoded dictionary, and what is written for it. *)
Definition bencode_pair (kv : list byte * bvalue) : list byte :=
  let '(k, v) := kv in bencode_string k ++ bencode v.

Definition json_pair (kv : list byte * bvalue) : list byte :=
  let '(k, v) := kv in json_string k ++ ":" :: to_json v.

(** What the element converter is assumed to do on a value. *)
Definition converts (convert_value : M unit) (v : bvalue) : Prop :=
  forall rest, io convert_value (bencode v ++ rest) tt (to_json v) rest.

(** ** The pushback discipline *)

(** A log is checked call by call; [prev] holds what the previous call
    returned when that call was a read. *)
Fixpoint check (prev : option Z) (l : list io_call) : bool :=
  match l with
  | [] => true
  | Get r :: l' => check (Some r) l'
  | Unget c :: l' =>
      match prev with
      | Some r => Byte.eqb (char_of_int r) c && check None l'
      | None => false
      end
  end.

Fixpoint after (prev : option Z) (l : list io_call) : option Z :=
  match l with
  | [] => prev
  | Get r :: l' => after (Some r) l'
  | Unget _ :: l' => after None l'
  end.

(** A bound on the bytes held pushed back after the calls of a log, when at
    most [d] were held before: a read takes one, and every call to
    [unget_character] counts as one more, refused or not. *)
Definition held_step (d : nat) (e : io_call) : nat :=
  match e with
  | Get _ => pred d
  | Unget _ => S d
  end.

Definition held_from (d : nat) (l : list io_call) : nat :=
  fold_left held_step l d.

Definition held (l : list io_call) : nat := held_from 0 l.

(** Every [unget_character] call comes right after a [get_character] call and
    passes the character that call returned. *)
Definition unget_follows_get (l : list io_call) : Prop :=
  forall l1 c l2, l = l1 ++ Unget c :: l2 ->
    exists l0 r, l1 = l0 ++ [Get r] /\ char_of_int r = c.

Definition Inv (st : state) : Prop :=
  check None (calls st) = true /\ length (ungot st) <= held (calls st).

Definition JustGot (r : Z) (st : state) : Prop :=
  Inv st /\ after None (calls st) = Some r.

(** The claim as the specification words it: every call to
    [unget_character] passes the byte that the read right before it
    returned. *)
Definition unget_passes_byte_read (l : list io_call) : Prop :=
  forall l1 c l2, l = l1 ++ Unget c :: l2 ->
    exists l0, l1 = l0 ++ [Get (code c)].

(** What the program does: the read right before returned the byte passed,
    or it returned [EOF], no byte was read, and the character passed is the
    one [EOF] converts to. *)
Definition unget_passes_char_read (l : list io_call) : Prop :=
  forall l1 c l2, l = l1 ++ Unget c :: l2 ->
    exists l0 r, l1 = l0 ++ [Get r] /\ (r = code c \/ (r = EOF /\ c = xff)).

(** No two calls to [unget_character] without a read between them. *)
Definition never_unget_twice (l : list io_call) : Prop :=
  forall l1 c d l2, l <> l1 ++ Unget c :: Unget d :: l2.

(** The number of bytes held pushed back after the calls of a log, when [d]
    were held before: a read takes one, and a call to [unget_character] adds
    one unless [ungetc] refuses the character. *)
Definition bytes_held_step (d : nat) (e : io_call) : nat :=
  match e with
  | Get _ => pred d
  | Unget c => if (int_of_char c =? EOF)%Z then d else S d
  end.

Definition bytes_held_from (d : nat) (l : list io_call) : nat :=
  fold_left bytes_held_step l d.

Definition bytes_held (l : list io_call) : nat := bytes_held_from 0 l.

Definition Counted (st : state) : Prop :=
  length (ungot st) = bytes_held (calls st).

(** What [get_character] returns: a byte as an [unsigned char], or [EOF]. *)
Definition getc_result (e : io_call) : Prop :=
  match e with
  | Get r => r = EOF \/ exists b, r = code b
  | Unget _ => True
  end.

Definition Logged (st : state) : Prop := Forall getc_result (calls st).

(** [preserves I m]: the state [m] stops in, however it stops, is in [I]
    when the state it starts from is. *)
Definition preserves (I : state -> Prop) {A} (m : M A) : Prop :=
  forall st, I st -> I (snd (m st)).

(** [keeps P m Q]: from a state in [P], the computation [m] ends in [Q], or
    stops with the discipline still observed. *)
Definition keeps {A} (P : state -> Prop) (m : M A) (Q : A -> state -> Prop)
  : Prop :=
  forall st, P st ->
    match m st with
    | (Done a, st') => Q a st'
    | (_, st') => Inv st'
    end.

(** * The round trip through a JSON decoder and a bencode encoder *)

(** Modelled from the spec: the JSON values a decoder returns for the text
    the program writes.  Neither a JSON decoder nor a bencode encoder is part
    of the repository; section 8 names them only as "decoding the produced
    JSON" and "a reference encoder". *)
Inductive json : Type :=
| JNumber (n : Z)
| JString (s : list byte)
| JArray (js : list json)
| JObject (ms : list (list byte * json)).

Notation "'let?' x := m 'in' k" :=
  (match m with Some x => k | None => None end)
  (at level 10, x pattern, m at level 100, k at level 200).

(** Modelled from the spec: the digits of a JSON number, read greedily. *)
Fixpoint digits_run (s : list byte) (acc : Z) : Z * list byte :=
  match s with
  | [] => (acc, [])
  | c :: s' => if isdigit c then digits_run s' (digit_step acc c) else (acc, s)
  end.

Definition parse_digits (s : list byte) : option (Z * list byte) :=
  match s with
  | [] => None
  | c :: _ => if isdigit c then Some (digits_run s 0%Z) else None
  end.

(** Modelled from the spec: a JSON integer literal, an optional minus sign and
    decimal digits. *)
Definition parse_number (s : list byte) : option (Z * list byte) :=
  match s with
  | [] => None
  | c :: s' =>
      if Byte.eqb c "-" then
        let? (n, rest) := parse_digits s' in Some ((- n)%Z, rest)
      else parse_digits s
  end.

(** Modelled from the spec: the character a two-character JSON escape stands
    for.  A [\u] escape is not decoded: the program writes none for printable
    ASCII text. *)
Definition unescape (e : byte) : option byte :=
  if Byte.eqb e dquote then Some dquote
  else if Byte.eqb e "\" then Some "\"
  else if Byte.eqb e "/" then Some "/"
  else if Byte.eqb e "b" then Some x08
  else if Byte.eqb e "f" then Some x0c
  else if Byte.eqb e "n" then Some x0a
  else if Byte.eqb e "r" then Some x0d
  else if Byte.eqb e "t" then Some x09
  else None.

(** Modelled from the spec: a JSON string after its opening quote, up to and
    with its closing quote. *)
Fixpoint parse_string_body (s : list byte) (acc : list byte)
  : option (list byte * list byte) :=
  match s with
  | [] => None
  | c :: s' =>
      if Byte.eqb c dquote then Some (rev acc, s')
      else if Byte.eqb c "\" then
        match s' with
        | [] => None
        | e :: s'' =>
            let? b := unescape e in parse_string_body s'' (b :: acc)
        end
      else parse_string_body s' (c :: acc)
  end.

Section JsonContainers.

Variable parse_value : list byte -> option (json * list byte).

(** Modelled from the spec: the elements of a JSON array after its opening
    bracket, when the array is not empty. *)
Fixpoint parse_elements (fuel : nat) (s : list byte)
  : option (list json * list byte) :=
  match fuel with
  | O => None
  | S fuel' =>
      let? (j, s1) := parse_value s in
      match s1 with
      | [] => None
      | c :: s2 =>
          if Byte.eqb c "," then
            let? (js, s3) := parse_elements fuel' s2 in Some (j :: js, s3)
          else if Byte.eqb c "]" then Some ([j], s2)
          else None
      end
  end.

Definition parse_array (fuel : nat) (s : list byte)
  : option (list json * list byte) :=
  match s with
  | [] => None
  | c :: s' => if Byte.eqb c "]" then Some ([], s') else parse_elements fuel s
  end.

(** Modelled from the spec: the members of a JSON object after its opening
    brace, when the object is not empty. *)
Fixpoint parse_members (fuel : nat) (s : list byte)
  : option (list (list byte * json) * list byte) :=
  match fuel with
  | O => None
  | S fuel' =>
      match s with
      | [] => None
      | q :: s0 =>
          if Byte.eqb q dquote then
            let? (k, s1) := parse_string_body s0 [] in
            match s1 with
            | [] => None
            | c :: s2 =>
                if Byte.eqb c ":" then
                  let? (j, s3) := parse_value s2 in
                  match s3 with
                  | [] => None
                  | d :: s4 =>
                      if Byte.eqb d "," then
                        let? (ms, s5) := parse_members fuel' s4 in
                        Some ((k, j) :: ms, s5)
                      else if Byte.eqb d "}" then Some ([(k, j)], s4)
                      else None
                  end
                else None
            end
          else None
      end
  end.

Definition parse_object (fuel : nat) (s : list byte)
  : option (list (list byte * json) * list byte) :=
  match s with
  | [] => None
  | c :: s' => if Byte.eqb c "}" then Some ([], s') else parse_members fuel s
  end.

End JsonContainers.

(** Modelled from the spec: a JSON value, chosen by its first character. *)
Fixpoint parse_value (fuel : nat) (s : list byte) : option (json * list byte) :=
  match fuel with
  | O => None
  | S fuel' =>
      match s with
      | [] => None
      | c :: s' =>
          if Byte.eqb c dquote then
            let? (str, rest) := parse_string_body s' [] in
            Some (JString str, rest)
          else if Byte.eqb c "[" then
            let? (js, rest) := parse_array (parse_value fuel') fuel' s' in
            Some (JArray js, rest)
          else if Byte.eqb c "{" then
            let? (ms, rest) := parse_object (parse_value fuel') fuel' s' in
            Some (JObject ms, rest)
          else
            let? (n, rest) := parse_number s in Some (JNumber n, rest)
      end
  end.

(** Modelled from the spec: "decoding the produced JSON": the whole text is
    one JSON value. *)
Definition json_decode (text : list byte) : option json :=
  match parse_value (S (length text)) text with
  | Some (j, []) => Some j
  | _ => None
  end.

(** Modelled from the spec: the order of bencode dictionary keys, byte
    strings compared as raw bytes. *)
Fixpoint bytes_leb (a b : list byte) : bool :=
  match a, b with
  | [], _ => true
  | _ :: _, [] => false
  | x :: a', y :: b' =>
      if (code x <? code y)%Z then true
      else if (code y <? code x)%Z then false
      else bytes_leb a' b'
  end.

Fixpoint insert_member (m : list byte * list byte)
         (l : list (list byte * list byte)) : list (list byte * list byte) :=
  match l with
  | [] => [m]
  | x :: l' =>
      if bytes_leb (fst m) (fst x) then m :: l else x :: insert_member m l'
  end.

Definition sort_members (l : list (list byte * list byte))
  : list (list byte * list byte) :=
  fold_right insert_member [] l.

(** Modelled from the spec: the "reference encoder" of section 8: integers
    as [i<decimal>e], strings with their length prefix, lists in order, and
    dictionaries with their members sorted by key. *)
Fixpoint bencode_of_json (j : json) : list byte :=
  match j with
  | JNumber n => "i" :: show_int n ++ ["e"]
  | JString s => bencode_string s
  | JArray js => "l" :: concat (map bencode_of_json js) ++ ["e"]
  | JObject ms =>
      "d" :: concat (map (fun m => bencode_string (fst m) ++ snd m)
                         (sort_members
                            (map (fun m => let '(k, j') := m in
                                           (k, bencode_of_json j')) ms)))
          ++ ["e"]
  end.

(** The JSON value a bencode value stands for. *)
Fixpoint json_of (v : bvalue) : json :=
  match v with
  | BInt n => JNumber n
  | BStr s => JString s
  | BList vs => JArray (map json_of vs)
  | BDict kvs => JObject (map (fun kv => let '(k, v') := kv in (k, json_of v')) kvs)
  end.

(** Printable ASCII: the codes 32 to 126. *)
Definition printable (c : byte) : bool := in_range 32 126 c.

Definition text (s : list byte) : bool := short s && forallb printable s.

(** Keys in strictly ascending order, as bencode asks of a dictionary. *)
Fixpoint ascending (ks : list (list byte)) : bool :=
  match ks with
  | [] => true
  | k :: ks' =>
      match ks' with
      | [] => true
      | k' :: _ => bytes_leb k k' && negb (bytes_leb k' k) && ascending ks'
      end
  end.

(** A well-formed value for the round trip: strings of printable ASCII whose
    lengths fit an [int], and dictionary keys in ascending order. *)
Fixpoint canonical (v : bvalue) : bool :=
  match v with
  | BInt _ => true
  | BStr s => text s
  | BList vs => forallb canonical vs
  | BDict kvs =>
      ascending (map fst kvs) &&
      forallb (fun kv => let '(k, v') := kv in text k && canonical v') kvs
  end.

(** What may follow a number: the end of the text or a byte that is not a
    digit. *)
Definition delimited (rest : list byte) : bool :=
  match rest with
  | [] => true
  | c :: _ => negb (isdigit c)
  end.

(** What the value parser is assumed to do on the text of a value. *)
Definition decodes (pv : list byte -> option (json * list byte)) (v : bvalue)
  : Prop :=
  forall rest, delimited rest = true ->
    pv (to_json v ++ rest) = Some (json_of v, rest).

Definition decodes_pair (pv : list byte -> option (json * list byte))
           (kv : list byte * bvalue) : Prop :=
  forallb printable (fst kv) = true /\ decodes pv (snd kv).

Definition member_of (kv : list byte * bvalue) : list byte * json :=
  let '(k, v) := kv in (k, json_of v).

(** * What the further properties are written with *)

(** ** Reads at any point of the input, its end included *)

(** The [int] the next call of [get_character] returns on the coming input. *)
Definition next_int (inp : list byte) : Z :=
  match inp with
  | c :: _ => code c
  | [] => EOF
  end.

(** ** Nothing is left pushed back when a converter returns *)

(** The discipline holds and no byte is held pushed back. *)
Definition Clean (st : state) : Prop := Inv st /\ ungot st = [].

(** Right after a read that returned [r]. *)
Definition GotClean (r : Z) (st : state) : Prop := JustGot r st /\ ungot st = [].

(** ** The writes into lenBuf over a whole run *)

(** No index written so far is above the size of [lenBuf]. *)
Definition Bounded (st : state) : Prop :=
  Forall (fun i => i <= MAX_INT_LEN) (lenBuf_writes st).

(** [holds I P m Q]: from a state in [P], the computation [m] ends in [Q], or
    stops in a state where [I] holds. *)
Definition holds (I : state -> Prop) {A} (P : state -> Prop) (m : M A)
           (Q : A -> state -> Prop) : Prop :=
  forall st, P st ->
    match m st with
    | (Done a, st') => Q a st'
    | (_, st') => I st'
    end.

(** A computation that leaves the record of the writes alone. *)
Definition silent {A} (m : M A) : Prop :=
  forall st, lenBuf_writes (snd (m st)) = lenBuf_writes st.

(** ** Reading the written text back, byte for byte *)

(** The value of a lowercase hexadecimal digit. *)
Definition unhex (c : byte) : option Z :=
  if isdigit c then Some (code c - 48)%Z
  else if in_range 97 102 c then Some (code c - 87)%Z
  else None.

(** A string as [convert_string] writes it, after its opening quote: the
    two-character escapes of the quote and the backslash, and the escape
    [\u00XX] read as the byte [XX]. *)
Fixpoint read_payload (s : list byte) (acc : list byte)
  : option (list byte * list byte) :=
  match s with
  | [] => None
  | c :: s' =>
      if Byte.eqb c dquote then Some (rev acc, s')
      else if Byte.eqb c "\" then
        match s' with
        | [] => None
        | e :: s'' =>
            if Byte.eqb e dquote || Byte.eqb e "\" then
              read_payload s'' (e :: acc)
            else if Byte.eqb e "u" then
              match s'' with
              | z1 :: z2 :: h1 :: h2 :: s4 =>
                  if Byte.eqb z1 "0" && Byte.eqb z2 "0" then
                    let? a := unhex h1 in
                    let? b := unhex h2 in
                    read_payload s4 (char_of_int (16 * a + b) :: acc)
                  else None
              | _ => None
              end
            else None
        end
      else read_payload s' (c :: acc)
  end.

Section ReadContainers.

Variable read_value : list byte -> option (json * list byte).

(** The members of an object after its opening brace, when it is not empty,
    with the keys read by [read_payload]. *)
Fixpoint read_members (fuel : nat) (s : list byte)
  : option (list (list byte * json) * list byte) :=
  match fuel with
  | O => None
  | S fuel' =>
      match s with
      | [] => None
      | q :: s0 =>
          if Byte.eqb q dquote then
            let? (k, s1) := read_payload s0 [] in
            match s1 with
            | [] => None
            | c :: s2 =>
                if Byte.eqb c ":" then
                  let? (j, s3) := read_value s2 in
                  match s3 with
                  | [] => None
                  | d :: s4 =>
                      if Byte.eqb d "," then
                        let? (ms, s5) := read_members fuel' s4 in
                        Some ((k, j) :: ms, s5)
                      else if Byte.eqb d "}" then Some ([(k, j)], s4)
                      else None
                  end
                else None
            end
          else None
      end
  end.

Definition read_object (fuel : nat) (s : list byte)
  : option (list (list byte * json) * list byte) :=
  match s with
  | [] => None
  | c :: s' => if Byte.eqb c "}" then Some ([], s') else read_members fuel s
  end.

End ReadContainers.

(** A reader of the text the program writes, strings of any bytes included. *)
Fixpoint read_value (fuel : nat) (s : list byte) : option (json * list byte) :=
  match fuel with
  | O => None
  | S fuel' =>
      match s with
      | [] => None
      | c :: s' =>
          if Byte.eqb c dquote then
            let? (str, rest) := read_payload s' [] in
            Some (JString str, rest)
          else if Byte.eqb c "[" then
            let? (js, rest) := parse_array (read_value fuel') fuel' s' in
            Some (JArray js, rest)
          else if Byte.eqb c "{" then
            let? (ms, rest) := read_object (read_value fuel') fuel' s' in
            Some (JObject ms, rest)
          else
            let? (n, rest) := parse_number s in Some (JNumber n, rest)
      end
  end.

(** The bencode value a JSON value stands for. *)
Fixpoint bvalue_of (j : json) : bvalue :=
  match j with
  | JNumber n => BInt n
  | JString s => BStr s
  | JArray js => BList (map bvalue_of js)
  | JObject ms => BDict (map (fun m => let '(k, j') := m in (k, bvalue_of j')) ms)
  end.

(** ** Dictionaries whose keys are not strings *)

(** An entry of a dictionary whose key is any value, and what is written
    for it. *)
Definition bencode_entry (kv : bvalue * bvalue) : list byte :=
  bencode (fst kv) ++ bencode (snd kv).

Definition json_entry (kv : bvalue * bvalue) : list byte :=
  to_json (fst kv) ++ ":" :: to_json (snd kv).

(** ** A list or a dictionary cut short by the end of the input *)

(** [fails m inp]: from any state whose coming input is [inp], the
    computation [m] meets undefined behaviour. *)
Definition fails {A} (m : M A) (inp : list byte) : Prop :=
  forall st, pending st = inp -> fst (m st) = Undefined.

(** * Lemmas *)

(** ** The rules of [io] *)

Lemma io_ret {A} (a : A) inp : io (ret a) inp a [] inp.
Proof.
  intros st H. exists st. unfold ret. rewrite app_nil_r. auto.
Qed.

Lemma io_bind {A B} (m : M A) (k : A -> M B) inp a out1 inp1 b out2 inp2 :
  io m inp a out1 inp1 ->
  io (k a) inp1 b out2 inp2 ->
  io (bind m k) inp b (out1 ++ out2) inp2.
Proof.
  intros Hm Hk st H.
  destruct (Hm st H) as (st1 & E1 & P1 & O1).
  destruct (Hk st1 P1) as (st2 & E2 & P2 & O2).
  exists st2. unfold bind. rewrite E1, E2, O2, O1, app_assoc. auto.
Qed.

Lemma io_get c inp : io get_character (c :: inp) (code c) [] inp.
Proof.
  intros st H. unfold pending in H. unfold get_character.
  destruct (ungot st) as [|u us] eqn:U; simpl in H.
  - rewrite H. eexists. split; [reflexivity|].
    unfold pending; simpl. rewrite app_nil_r. auto.
  - inversion H; subst. eexists. split; [reflexivity|].
    unfold pending; simpl. rewrite app_nil_r. auto.
Qed.

Lemma io_get_eof : io get_character [] EOF [] [].
Proof.
  intros st H. unfold pending in H. unfold get_character.
  apply app_eq_nil in H. destruct H as [U I]. rewrite U, I.
  eexists. split; [reflexivity|].
  unfold pending; simpl. rewrite app_nil_r. auto.
Qed.

Lemma io_output c inp : io (output_character c) inp tt [c] inp.
Proof.
  intros st H. eexists. split; [reflexivity|]. simpl. auto.
Qed.

Lemma char_of_int_code c : char_of_int (code c) = c.
Proof. destruct c; reflexivity. Qed.

Lemma char_of_int_EOF : char_of_int EOF = xff.
Proof. reflexivity. Qed.

Lemma eqb_refl_byte c : Byte.eqb c c = true.
Proof. apply byte_dec_lb. reflexivity. Qed.

Lemma eqb_neq_byte c d : c <> d -> Byte.eqb c d = false.
Proof.
  intros H. destruct (Byte.eqb c d) eqn:E; [|reflexivity].
  apply byte_dec_bl in E. contradiction.
Qed.

Lemma int_of_char_EOF c : (int_of_char c =? EOF)%Z = Byte.eqb c xff.
Proof. destruct c; reflexivity. Qed.

Lemma char_of_int_of_char c : char_of_int (int_of_char c) = c.
Proof. destruct c; reflexivity. Qed.

(** What [unget_character] does, by the byte it is passed. *)
Lemma unget_character_eq c st :
  unget_character c st
  = (Done tt,
     mkState (stdin st) (if Byte.eqb c xff then ungot st else c :: ungot st)
             (stdout st) (calls st ++ [Unget c]) (lenBuf_writes st)).
Proof.
  unfold unget_character.
  rewrite int_of_char_EOF, char_of_int_of_char. reflexivity.
Qed.

Lemma io_unget c inp :
  c <> xff -> io (unget_character c) inp tt [] (c :: inp).
Proof.
  intros Hc st H. eexists. split; [apply unget_character_eq|].
  rewrite (eqb_neq_byte _ _ Hc).
  unfold pending in *; simpl. rewrite H, app_nil_r. auto.
Qed.

(** The character 0xff is not pushed back. *)
Lemma io_unget_lost inp : io (unget_character xff) inp tt [] inp.
Proof.
  intros st H. eexists. split; [apply unget_character_eq|].
  unfold pending in *; simpl. rewrite H, app_nil_r. auto.
Qed.

(** Reading a byte and converting it to [char] gives the byte back. *)
Lemma io_get_char {B} c inp (k : Z -> M B) b out inp' :
  io (k (code c)) inp b out inp' ->
  io (bind get_character k) (c :: inp) b out inp'.
Proof.
  intros H. change out with ([] ++ out).
  eapply io_bind; [apply io_get | exact H].
Qed.

Lemma io_seq_output {B} c (k : M B) inp b out inp' :
  io k inp b out inp' ->
  io (output_character c ;; k) inp b (c :: out) inp'.
Proof.
  intros H. change (c :: out) with ([c] ++ out).
  eapply io_bind; [apply io_output | exact H].
Qed.

(** ** convert_integer *)

Lemma convert_integer_io body rest fuel :
  Forall (fun c => c <> "e") body ->
  length body < fuel ->
  io (convert_integer fuel) (body ++ "e" :: rest) tt body rest.
Proof.
  revert fuel. induction body as [|c body IH]; intros fuel Hne Hf.
  - destruct fuel as [|fuel]; [inversion Hf|]. simpl.
    apply io_get_char. rewrite char_of_int_code. simpl. apply io_ret.
  - destruct fuel as [|fuel]; [inversion Hf|]. simpl in *.
    inversion Hne; subst.
    apply io_get_char. rewrite char_of_int_code.
    rewrite eqb_neq_byte by assumption.
    apply io_seq_output. apply IH; [assumption | lia].
Qed.

(** ** Decimal digits *)

Lemma code_char_of_int z : (0 <= z < 256)%Z -> code (char_of_int z) = z.
Proof.
  intros H. unfold char_of_int, code.
  rewrite Z.mod_small by lia.
  destruct (Byte.of_N (Z.to_N z)) as [c|] eqn:E.
  - apply Byte.to_of_N in E. rewrite E. lia.
  - apply Byte.of_N_None_iff in E. lia.
Qed.

Lemma isdigit_code c : isdigit c = true <-> (48 <= code c <= 57)%Z.
Proof. unfold isdigit, in_range. rewrite andb_true_iff. lia. Qed.

Lemma dec_digits_spec fuel : forall n,
  (0 <= n < 2 ^ Z.of_nat (S fuel))%Z ->
  Forall (fun c => isdigit c = true) (dec_digits (S fuel) n) /\
  dec_digits (S fuel) n <> [] /\
  digits_value (dec_digits (S fuel) n) = n.
Proof.
  induction fuel as [|fuel IH]; intros n Hn;
    change (dec_digits (S ?f) n)
      with (if (n <? 10)%Z then [char_of_int (48 + n)]
            else dec_digits f (n / 10) ++ [char_of_int (48 + n mod 10)]);
    destruct (n <? 10)%Z eqn:E.
  1, 3: apply Z.ltb_lt in E; repeat split;
    [ constructor; [|constructor]; apply isdigit_code;
      rewrite code_char_of_int; lia
    | discriminate
    | unfold digits_value, digit_step; cbn [fold_left];
      rewrite code_char_of_int; lia ].
  - apply Z.ltb_ge in E. change (2 ^ Z.of_nat 1)%Z with 2%Z in Hn. lia.
  - apply Z.ltb_ge in E.
    assert (Hq : (0 <= n / 10 < 2 ^ Z.of_nat (S fuel))%Z).
    { rewrite (Nat2Z.inj_succ (S fuel)), Z.pow_succ_r in Hn by lia.
      split; [apply Z.div_pos; lia|].
      apply Z.div_lt_upper_bound; lia. }
    destruct (IH _ Hq) as (D & N & V).
    assert (Hm : (0 <= n mod 10 < 10)%Z) by (apply Z.mod_pos_bound; lia).
    repeat split.
    + apply Forall_app; split; [assumption|].
      constructor; [|constructor]. apply isdigit_code.
      rewrite code_char_of_int; lia.
    + destruct (dec_digits (S fuel) (n / 10)); [contradiction|discriminate].
    + unfold digits_value in *. rewrite fold_left_app, V. cbn [fold_left].
      unfold digit_step. rewrite code_char_of_int by lia.
      pose proof (Z.div_mod n 10). lia.
Qed.

Lemma decimal_spec n :
  (0 <= n)%Z ->
  Forall (fun c => isdigit c = true) (decimal n) /\
  decimal n <> [] /\
  digits_value (decimal n) = n.
Proof.
  intros H. apply dec_digits_spec.
  rewrite Nat2Z.inj_succ, Z2Nat.id by apply Z.log2_nonneg.
  split; [assumption|].
  destruct (Z.eq_dec n 0) as [->|]; [reflexivity|].
  apply Z.log2_spec. lia.
Qed.

Lemma dec_digits_length fuel : forall k n,
  (0 <= n < 10 ^ Z.of_nat (S k))%Z ->
  length (dec_digits fuel n) <= S k.
Proof.
  induction fuel as [|fuel IH]; intros k n Hn; simpl; [lia|].
  destruct (n <? 10)%Z eqn:E; simpl; [lia|].
  apply Z.ltb_ge in E.
  rewrite length_app. simpl.
  destruct k as [|k]; [simpl in Hn; lia|].
  assert (length (dec_digits fuel (n / 10)) <= S k); [|lia].
  apply IH.
  rewrite (Nat2Z.inj_succ (S k)), Z.pow_succ_r in Hn by lia.
  split; [apply Z.div_pos; lia|].
  apply Z.div_lt_upper_bound; lia.
Qed.

Lemma decimal_length_short n :
  (0 <= n <= INT_MAX)%Z -> length (decimal n) <= 10.
Proof.
  intros H. apply (dec_digits_length _ 9). unfold INT_MAX in H.
  change (10 ^ Z.of_nat 10)%Z with 10000000000%Z. lia.
Qed.

Lemma isdigit_neq c d : isdigit c = true -> isdigit d = false -> c <> d.
Proof. intros H1 H2 ->. congruence. Qed.

Lemma digits_no (d : byte) ds :
  isdigit d = false ->
  Forall (fun c => isdigit c = true) ds ->
  Forall (fun c => c <> d) ds.
Proof.
  intros Hd H. eapply Forall_impl; [|exact H].
  intros c Hc. simpl in Hc. eapply isdigit_neq; eassumption.
Qed.

Lemma show_int_no_e n : Forall (fun c => c <> "e") (show_int n).
Proof.
  unfold show_int. destruct (n <? 0)%Z eqn:E.
  - apply Z.ltb_lt in E. constructor; [discriminate|].
    apply digits_no; [reflexivity|]. apply decimal_spec. lia.
  - apply Z.ltb_ge in E.
    apply digits_no; [reflexivity|]. apply decimal_spec. lia.
Qed.

(** ** The primitives, with everything they leave unchanged *)

Lemma get_character_run st c inp :
  pending st = c :: inp ->
  exists st', get_character st = (Done (code c), st') /\
              pending st' = inp /\ stdout st' = stdout st /\
              lenBuf_writes st' = lenBuf_writes st /\
              calls st' = calls st ++ [Get (code c)].
Proof.
  intros H. unfold pending in H. unfold get_character.
  destruct (ungot st) as [|u us] eqn:U; simpl in H.
  - rewrite H. eexists. split; [reflexivity|]. unfold pending. simpl. auto.
  - inversion H; subst. eexists. split; [reflexivity|].
    unfold pending. simpl. auto.
Qed.

Lemma get_character_eof st :
  pending st = [] ->
  exists st', get_character st = (Done EOF, st') /\
              pending st' = [] /\ stdout st' = stdout st /\
              lenBuf_writes st' = lenBuf_writes st /\
              calls st' = calls st ++ [Get EOF].
Proof.
  intros H. unfold pending in H. unfold get_character.
  apply app_eq_nil in H. destruct H as [U I]. rewrite U, I.
  eexists. split; [reflexivity|]. unfold pending. simpl. auto.
Qed.

Lemma update_next pre c t :
  update (map Some pre ++ None :: t) (length pre) c
  = Some (map Some (pre ++ [c]) ++ t).
Proof.
  induction pre as [|x pre IH]; simpl; [reflexivity|].
  rewrite IH. reflexivity.
Qed.

Lemma update_past pre c : update (map Some pre) (length pre) c = None.
Proof.
  induction pre as [|x pre IH]; simpl; [reflexivity|].
  rewrite IH. reflexivity.
Qed.

Lemma update_buffer pre c :
  length pre < MAX_INT_LEN ->
  update (buffer pre) (length pre) c = Some (buffer (pre ++ [c])).
Proof.
  intros H. unfold buffer.
  replace (MAX_INT_LEN - length pre) with (S (MAX_INT_LEN - length (pre ++ [c])))
    by (rewrite length_app; cbn [length]; lia).
  cbn [repeat]. apply update_next.
Qed.

Lemma update_buffer_full pre c :
  length pre = MAX_INT_LEN -> update (buffer pre) (length pre) c = None.
Proof.
  intros H. unfold buffer. rewrite H, Nat.sub_diag. simpl.
  rewrite app_nil_r, <- H. apply update_past.
Qed.

(** One turn of the loop on a byte that is not the delimiter. *)
Lemma read_count_loop_step c inp pre fuel st :
  pending st = c :: inp ->
  c <> ":" ->
  length pre < MAX_INT_LEN ->
  exists st1,
    pending st1 = inp /\ stdout st1 = stdout st /\
    lenBuf_writes st1 = lenBuf_writes st ++ [length pre] /\
    read_count_loop (S fuel) (buffer pre) (length pre) st
    = if MAX_INT_LEN <=? S (length pre)
      then (Done (buffer (pre ++ [c]), S (length pre)), st1)
      else read_count_loop fuel (buffer (pre ++ [c])) (S (length pre)) st1.
Proof.
  intros P Hc Hlen.
  destruct (get_character_run st c inp P) as (st0 & E & P0 & O0 & W0 & _).
  eexists (mkState (stdin st0) (ungot st0) (stdout st0) (calls st0)
                   (lenBuf_writes st0 ++ [length pre])).
  split; [exact P0|]. split; [exact O0|].
  split; [simpl; rewrite W0; reflexivity|].
  cbn [read_count_loop]. unfold bind at 1. rewrite E.
  rewrite char_of_int_code, (eqb_neq_byte _ _ Hc).
  unfold bind, store. cbn [Nat.sub]. rewrite Nat.sub_0_r.
  rewrite (update_buffer _ _ Hlen).
  destruct (MAX_INT_LEN <=? S (length pre)); reflexivity.
Qed.

Lemma read_count_loop_delim p : forall pre fuel rest st,
  Forall (fun c => c <> ":") p ->
  length pre + length p < MAX_INT_LEN ->
  length p < fuel ->
  pending st = p ++ ":" :: rest ->
  exists st',
    read_count_loop fuel (buffer pre) (length pre) st
    = (Done (buffer (pre ++ p), length pre + length p), st') /\
    pending st' = rest /\ stdout st' = stdout st /\
    lenBuf_writes st' = lenBuf_writes st ++ seq (length pre) (length p).
Proof.
  induction p as [|c p IH]; intros pre fuel rest st Hp Hlen Hf P;
    (destruct fuel as [|fuel]; [inversion Hf|]).
  - simpl in P.
    destruct (get_character_run st _ _ P) as (st0 & E & P0 & O0 & W0 & _).
    exists st0. cbn [read_count_loop]. unfold bind. rewrite E.
    rewrite char_of_int_code. simpl. unfold ret.
    rewrite !app_nil_r, Nat.add_0_r. auto.
  - simpl in P, Hlen, Hf. inversion Hp; subst.
    destruct (read_count_loop_step c _ pre fuel st P) as (st1 & P1 & O1 & W1 & E);
      [assumption | lia |].
    rewrite E.
    destruct (MAX_INT_LEN <=? S (length pre)) eqn:L;
      [apply Nat.leb_le in L; lia|].
    destruct (IH (pre ++ [c]) fuel rest st1) as (st' & E' & P' & O' & W');
      [assumption | rewrite length_app; simpl; lia | lia | assumption |].
    rewrite length_app in E', W'. simpl in E', W'.
    rewrite Nat.add_1_r in E', W'. rewrite <- app_assoc in E'. simpl in E'.
    exists st'. rewrite E'. simpl.
    rewrite Nat.add_succ_r. split; [reflexivity|].
    split; [assumption|]. split; [congruence|].
    rewrite W', W1, <- app_assoc. reflexivity.
Qed.

Lemma read_count_loop_full p : forall pre fuel rest st,
  Forall (fun c => c <> ":") p ->
  p <> [] ->
  length pre + length p = MAX_INT_LEN ->
  length p <= fuel ->
  pending st = p ++ rest ->
  exists st',
    read_count_loop fuel (buffer pre) (length pre) st
    = (Done (buffer (pre ++ p), MAX_INT_LEN), st') /\
    pending st' = rest /\ stdout st' = stdout st /\
    lenBuf_writes st' = lenBuf_writes st ++ seq (length pre) (length p).
Proof.
  induction p as [|c p IH]; intros pre fuel rest st Hp Hne Hlen Hf P;
    [contradiction|].
  destruct fuel as [|fuel]; [inversion Hf|].
  simpl in P, Hlen, Hf. inversion Hp; subst.
  destruct (read_count_loop_step c _ pre fuel st P) as (st1 & P1 & O1 & W1 & E);
    [assumption | lia |].
  rewrite E.
  destruct (MAX_INT_LEN <=? S (length pre)) eqn:L.
  - apply Nat.leb_le in L.
    destruct p as [|d p]; [|simpl in Hlen; lia].
    exists st1. simpl. replace (S (length pre)) with MAX_INT_LEN by lia.
    auto.
  - apply Nat.leb_gt in L.
    destruct (IH (pre ++ [c]) fuel rest st1) as (st' & E' & P' & O' & W');
      [assumption | destruct p; [simpl in Hlen; lia | discriminate]
      | rewrite length_app; simpl; lia | lia | assumption |].
    rewrite length_app in E', W'. simpl in E', W'.
    rewrite Nat.add_1_r in E', W'. rewrite <- app_assoc in E'. simpl in E'.
    exists st'. rewrite E'. simpl.
    split; [reflexivity|]. split; [assumption|]. split; [congruence|].
    rewrite W', W1, <- app_assoc. reflexivity.
Qed.

(** ** atoi on the buffer of read_count *)

Lemma atoi_digits_run ds : forall acc c0 tail,
  Forall (fun c => isdigit c = true) ds ->
  isdigit c0 = false ->
  atoi_digits (map Some ds ++ Some c0 :: tail) acc
  = Some (fold_left digit_step ds acc).
Proof.
  induction ds as [|d ds IH]; intros acc c0 tail Hd H0; simpl.
  - rewrite H0. reflexivity.
  - apply Forall_cons_iff in Hd. destruct Hd as [Hd1 Hd2].
    rewrite Hd1. apply IH; assumption.
Qed.

Lemma digit_not_blank d :
  isdigit d = true ->
  isspace d = false /\ Byte.eqb d "-" = false /\ Byte.eqb d "+" = false.
Proof. destruct d; intros H; try discriminate H; repeat split. Qed.

Lemma atoi_skip_digits ds tail :
  Forall (fun c => isdigit c = true) ds ->
  atoi_skip (map Some ds ++ Some x00 :: tail) = Some (digits_value ds).
Proof.
  intros Hd. destruct ds as [|d ds]; [reflexivity|].
  pose proof (Forall_inv Hd) as Hd1. simpl in Hd1.
  destruct (digit_not_blank d Hd1) as (S1 & S2 & S3).
  cbn [map app atoi_skip]. rewrite S1, S2, S3.
  apply (atoi_digits_run (d :: ds)); [assumption | reflexivity].
Qed.

Lemma fold_digit_step_nonneg ds : forall acc,
  Forall (fun c => isdigit c = true) ds ->
  (0 <= acc)%Z -> (0 <= fold_left digit_step ds acc)%Z.
Proof.
  induction ds as [|d ds IH]; intros acc Hd Ha; simpl; [assumption|].
  apply Forall_cons_iff in Hd. destruct Hd as [Hd1 Hd2].
  apply IH; [assumption|].
  apply isdigit_code in Hd1. unfold digit_step. lia.
Qed.

Lemma digits_value_nonneg ds :
  Forall (fun c => isdigit c = true) ds -> (0 <= digits_value ds)%Z.
Proof. intros H. apply fold_digit_step_nonneg; [assumption | lia]. Qed.

Lemma buffer_terminated ds :
  buffer (ds ++ [x00])
  = map Some ds ++ Some x00 :: repeat None (MAX_INT_LEN - length (ds ++ [x00])).
Proof. unfold buffer. rewrite map_app, <- app_assoc. reflexivity. Qed.

Lemma atoi_buffer ds :
  Forall (fun c => isdigit c = true) ds ->
  (digits_value ds <= INT_MAX)%Z ->
  atoi (buffer (ds ++ [x00])) = Some (digits_value ds).
Proof.
  intros Hd Hv. unfold atoi.
  rewrite buffer_terminated, atoi_skip_digits by assumption.
  pose proof (digits_value_nonneg ds Hd) as Hn.
  replace ((INT_MIN <=? digits_value ds)%Z && (digits_value ds <=? INT_MAX)%Z)
    with true; [reflexivity|].
  symmetry. apply andb_true_iff. unfold INT_MIN. lia.
Qed.

(** A digit prefix closed by the delimiter: the count is its decimal value. *)
Lemma read_count_digits ds rest fuel st :
  Forall (fun c => isdigit c = true) ds ->
  length ds < MAX_INT_LEN ->
  (digits_value ds <= INT_MAX)%Z ->
  length ds < fuel ->
  pending st = ds ++ ":" :: rest ->
  exists st',
    read_count fuel st = (Done (digits_value ds), st') /\
    pending st' = rest /\ stdout st' = stdout st /\
    lenBuf_writes st' = lenBuf_writes st ++ seq 0 (S (length ds)).
Proof.
  intros Hd Hlen Hv Hf P.
  destruct (read_count_loop_delim ds [] fuel rest st)
    as (st1 & E & P1 & O1 & W1);
    [apply digits_no; [reflexivity | assumption] | simpl; lia | lia
    | assumption |].
  simpl in E, W1. unfold read_count, bind.
  change (repeat None MAX_INT_LEN) with (buffer []). rewrite E.
  cbn [fst snd]. unfold store.
  rewrite (update_buffer ds x00 Hlen), (atoi_buffer ds Hd Hv).
  unfold ret, size_t_of_int.
  pose proof (digits_value_nonneg ds Hd) as Hn.
  rewrite Z.mod_small by (unfold INT_MAX in Hv; lia).
  rewrite seq_S.
  eexists. split; [reflexivity|]. simpl.
  split; [exact P1|]. split; [exact O1|].
  rewrite W1, <- app_assoc. reflexivity.
Qed.

(** Fifty bytes without a delimiter: the loop is left, nothing more is read,
    and the terminating null byte is written at index 50. *)
Lemma read_count_full p rest fuel st :
  Forall (fun c => c <> ":") p ->
  length p = MAX_INT_LEN ->
  MAX_INT_LEN <= fuel ->
  pending st = p ++ rest ->
  exists st',
    read_count fuel st = (Undefined, st') /\
    pending st' = rest /\ stdout st' = stdout st /\
    lenBuf_writes st' = lenBuf_writes st ++ seq 0 (S MAX_INT_LEN).
Proof.
  intros Hp Hlen Hf P.
  destruct (read_count_loop_full p [] fuel rest st)
    as (st1 & E & P1 & O1 & W1);
    [assumption | intros ->; discriminate Hlen | simpl; lia | lia
    | assumption |].
  simpl in E, W1. unfold read_count, bind.
  change (repeat None MAX_INT_LEN) with (buffer []). rewrite E.
  cbn [fst snd]. unfold store.
  pose proof (update_buffer_full p x00 Hlen) as U.
  rewrite Hlen in U. rewrite U.
  rewrite (seq_S MAX_INT_LEN).
  eexists. split; [reflexivity|]. cbn [pending stdout lenBuf_writes Nat.add].
  split; [exact P1|]. split; [exact O1|].
  rewrite W1, Hlen, <- app_assoc. reflexivity.
Qed.

(** [read_count] writes nothing to the output. *)
Lemma read_count_loop_stdout fuel : forall buf len st,
  stdout (snd (read_count_loop fuel buf len st)) = stdout st.
Proof.
  induction fuel as [|fuel IH]; intros buf len st; [reflexivity|].
  cbn [read_count_loop]. unfold bind at 1.
  assert (G : stdout (snd (get_character st)) = stdout st).
  { unfold get_character. destruct (ungot st); [destruct (stdin st)|];
      reflexivity. }
  destruct (get_character st) as [[r| |] st0]; try exact G.
  simpl in G.
  destruct (Byte.eqb (char_of_int r) ":"); [exact G|].
  unfold bind, store.
  destruct (update buf (S len - 1) (char_of_int r)); [|exact G].
  destruct (MAX_INT_LEN <=? S len); [exact G|].
  rewrite IH. exact G.
Qed.

Lemma read_count_stdout fuel st :
  stdout (snd (read_count fuel st)) = stdout st.
Proof.
  unfold read_count, bind.
  pose proof (read_count_loop_stdout fuel (repeat None MAX_INT_LEN) 0 st) as L.
  destruct (read_count_loop fuel (repeat None MAX_INT_LEN) 0 st)
    as [[p| |] st1]; try exact L.
  unfold store. simpl in L.
  destruct (update (fst p) (snd p) x00); [|exact L].
  destruct (atoi l); exact L.
Qed.

Lemma read_count_io ds rest fuel :
  Forall (fun c => isdigit c = true) ds ->
  length ds < MAX_INT_LEN ->
  (digits_value ds <= INT_MAX)%Z ->
  length ds < fuel ->
  io (read_count fuel) (ds ++ ":" :: rest) (digits_value ds) [] rest.
Proof.
  intros Hd Hlen Hv Hf st P.
  destruct (read_count_digits ds rest fuel st Hd Hlen Hv Hf P)
    as (st' & E & P' & O' & _).
  exists st'. rewrite app_nil_r. auto.
Qed.

(** ** convert_string *)

Lemma sprintf_02x_lower_hex c :
  sprintf_02x c = (lower_hex (code c / 16), lower_hex (code c mod 16)).
Proof. destruct c; reflexivity. Qed.

(** The loop body writes the escaping of section 4.6 for the byte. *)
Lemma convert_string_char_io c inp :
  io (convert_string_char c) inp tt (json_escape c) inp.
Proof.
  unfold convert_string_char, json_escape.
  destruct (Byte.eqb c dquote || Byte.eqb c "\").
  - apply io_seq_output, io_output.
  - destruct (isalnum c || ispunct c || Byte.eqb c " ").
    + apply io_output.
    + rewrite sprintf_02x_lower_hex. cbn [fst snd].
      do 5 apply io_seq_output. apply io_output.
Qed.

Lemma convert_string_loop_io bs : forall fuel i count rest,
  count = (i + Z.of_nat (length bs))%Z ->
  length bs < fuel ->
  io (convert_string_loop fuel i count) (bs ++ rest) tt
     (flat_map json_escape bs) rest.
Proof.
  induction bs as [|b bs IH]; intros fuel i count rest Hc Hf;
    (destruct fuel as [|fuel]; [inversion Hf|]); cbn [convert_string_loop].
  - simpl in Hc. replace (i <? count)%Z with false
      by (symmetry; apply Z.ltb_ge; lia).
    apply io_ret.
  - cbn [length] in Hc, Hf. replace (i <? count)%Z with true
      by (symmetry; apply Z.ltb_lt; lia).
    cbn [app flat_map]. apply io_get_char. rewrite char_of_int_code.
    eapply io_bind; [apply convert_string_char_io|].
    apply IH; lia.
Qed.

Lemma reads_available bs rest : reads (length bs) (bs ++ rest) = bs.
Proof.
  unfold reads. rewrite firstn_app, firstn_all, Nat.sub_diag, length_app.
  replace (length bs - (length bs + length rest)) with 0 by lia.
  simpl. rewrite !app_nil_r. reflexivity.
Qed.

Lemma io_get_int {B} inp (k : Z -> M B) b out inp' :
  io (k (match inp with c :: _ => code c | [] => EOF end)) (tl inp) b out inp' ->
  io (bind get_character k) inp b out inp'.
Proof.
  intros H. change out with ([] ++ out).
  destruct inp as [|c inp]; (eapply io_bind; [|exact H]);
    [apply io_get_eof | apply io_get].
Qed.

Lemma convert_string_loop_reads n : forall inp fuel i count,
  count = (i + Z.of_nat n)%Z ->
  n < fuel ->
  io (convert_string_loop fuel i count) inp tt
     (flat_map json_escape (reads n inp)) (skipn n inp).
Proof.
  induction n as [|n IH]; intros inp fuel i count Hc Hf;
    (destruct fuel as [|fuel]; [inversion Hf|]); cbn [convert_string_loop].
  - replace (i <? count)%Z with false by (symmetry; apply Z.ltb_ge; lia).
    unfold reads. simpl. apply io_ret.
  - replace (i <? count)%Z with true by (symmetry; apply Z.ltb_lt; lia).
    apply io_get_int.
    assert (E : reads (S n) inp
                = char_of_int (match inp with c :: _ => code c | [] => EOF end)
                  :: reads n (tl inp)).
    { destruct inp as [|c inp]; unfold reads; simpl.
      - rewrite Nat.sub_0_r. destruct n; reflexivity.
      - rewrite char_of_int_code. reflexivity. }
    rewrite E. cbn [flat_map].
    replace (skipn (S n) inp) with (skipn n (tl inp))
      by (destruct inp; [destruct n|]; reflexivity).
    eapply io_bind; [apply convert_string_char_io|].
    apply IH; lia.
Qed.

Lemma get_character_calls st :
  exists r st', get_character st = (Done r, st') /\
                calls st' = calls st ++ [Get r].
Proof.
  unfold get_character.
  destruct (ungot st); [destruct (stdin st)|]; eexists _, _; split; reflexivity.
Qed.

Lemma convert_string_char_calls c st :
  exists st', convert_string_char c st = (Done tt, st') /\ calls st' = calls st.
Proof.
  unfold convert_string_char.
  destruct (Byte.eqb c dquote || Byte.eqb c "\");
    [|destruct (isalnum c || ispunct c || Byte.eqb c " ")];
    eexists; split; reflexivity.
Qed.

(** The payload loop calls [get_character] once for each byte counted. *)
Lemma convert_string_loop_calls n : forall fuel i count st,
  count = (i + Z.of_nat n)%Z ->
  n < fuel ->
  length (calls (snd (convert_string_loop fuel i count st)))
  = length (calls st) + n.
Proof.
  induction n as [|n IH]; intros fuel i count st Hc Hf;
    (destruct fuel as [|fuel]; [inversion Hf|]); cbn [convert_string_loop].
  - replace (i <? count)%Z with false by (symmetry; apply Z.ltb_ge; lia).
    simpl. lia.
  - replace (i <? count)%Z with true by (symmetry; apply Z.ltb_lt; lia).
    destruct (get_character_calls st) as (r & st1 & E1 & C1).
    destruct (convert_string_char_calls (char_of_int r) st1) as (st2 & E2 & C2).
    unfold bind. rewrite E1, E2.
    rewrite (IH fuel (i + 1)%Z count st2) by lia.
    rewrite C2, C1, length_app. simpl. lia.
Qed.

Lemma size_t_of_int_nonneg v : (0 <= size_t_of_int v)%Z.
Proof. unfold size_t_of_int. apply Z.mod_pos_bound. lia. Qed.

Lemma read_count_nonneg fuel st n st1 :
  read_count fuel st = (Done n, st1) -> (0 <= n)%Z.
Proof.
  unfold read_count, bind, store, ret, undefined. intros H.
  destruct (read_count_loop fuel (repeat None MAX_INT_LEN) 0 st)
    as [[p| |] st0]; try discriminate H.
  destruct (update (fst p) (snd p) x00); [|discriminate H].
  destruct (atoi l); inversion H. apply size_t_of_int_nonneg.
Qed.

(** The statements after [read_count] in [convert_string]. *)
Lemma convert_string_payload_io bs fuel rest :
  length bs < fuel ->
  io (output_character dquote ;;
      convert_string_loop fuel 0%Z (Z.of_nat (length bs)) ;;
      output_character dquote)
     (bs ++ rest) tt (json_string bs) rest.
Proof.
  intros Hf. unfold json_string. apply io_seq_output.
  eapply io_bind; [apply convert_string_loop_io; [reflexivity | assumption]|].
  apply io_output.
Qed.

Lemma convert_string_io ds bs rest fuel :
  Forall (fun c => isdigit c = true) ds ->
  length ds < MAX_INT_LEN ->
  digits_value ds = Z.of_nat (length bs) ->
  (Z.of_nat (length bs) <= INT_MAX)%Z ->
  length ds < fuel -> length bs < fuel ->
  io (convert_string fuel) (ds ++ ":" :: bs ++ rest) tt (json_string bs) rest.
Proof.
  intros Hd Hlen Hv Hs Hf1 Hf2. unfold convert_string.
  change (json_string bs) with ([] ++ json_string bs).
  eapply io_bind.
  - apply read_count_io; [assumption | assumption | lia | assumption].
  - rewrite Hv. apply convert_string_payload_io. assumption.
Qed.

Lemma short_length s :
  short s = true -> (0 <= Z.of_nat (length s) <= INT_MAX)%Z.
Proof. unfold short. intros H. apply Z.leb_le in H. lia. Qed.

Lemma bencode_string_io s rest fuel :
  short s = true ->
  10 < fuel -> length s < fuel ->
  io (convert_string fuel) (bencode_string s ++ rest) tt (json_string s) rest.
Proof.
  intros Hs Hf1 Hf2. apply short_length in Hs.
  destruct (decimal_spec (Z.of_nat (length s))) as (D & _ & V); [lia|].
  pose proof (decimal_length_short _ Hs) as L.
  unfold bencode_string. rewrite <- app_assoc. cbn [app].
  apply convert_string_io; try assumption; try lia.
  unfold MAX_INT_LEN. lia.
Qed.

(** ** The shape of an encoded value *)

Lemma bencode_string_head s :
  exists c tl, bencode_string s = c :: tl /\ isdigit c = true.
Proof.
  unfold bencode_string.
  destruct (decimal_spec (Z.of_nat (length s))) as (D & N & _); [lia|].
  destruct (decimal (Z.of_nat (length s))) as [|c tl]; [contradiction|].
  exists c, (tl ++ ":" :: s). split; [reflexivity|].
  exact (Forall_inv D).
Qed.

Lemma bencode_head v :
  exists c tl, bencode v = c :: tl /\ c <> "e" /\ c <> xff.
Proof.
  destruct v as [n|s|vs|kvs]; simpl.
  - eexists _, _. split; [reflexivity | split; discriminate].
  - destruct (bencode_string_head s) as (c & tl & E & D).
    exists c, tl. split; [assumption | split; intros ->; discriminate D].
  - eexists _, _. split; [reflexivity | split; discriminate].
  - eexists _, _. split; [reflexivity | split; discriminate].
Qed.

Lemma bencode_nonempty v : 0 < length (bencode v).
Proof.
  destruct (bencode_head v) as (c & tl & E & _). rewrite E. simpl. lia.
Qed.

(** ** convert_list and convert_dictionary *)

Lemma io_silent {A B} (m : M A) (k : A -> M B) inp a inp1 b out inp2 :
  io m inp a [] inp1 ->
  io (k a) inp1 b out inp2 ->
  io (bind m k) inp b out inp2.
Proof.
  intros Hm Hk. change out with ([] ++ out). eapply io_bind; eassumption.
Qed.

Lemma io_comma (output : bool) inp :
  io (if output then output_character "," else ret tt) inp tt
     (if output then [","] else []) inp.
Proof. destruct output; [apply io_output | apply io_ret]. Qed.

Section ContainerRuns.

Variable convert_value : M unit.

Lemma convert_list_loop_io vs : forall fuel output rest,
  Forall (converts convert_value) vs ->
  length vs < fuel ->
  io (convert_list_loop convert_value fuel output)
     (concat (map bencode vs) ++ "e" :: rest) tt
     (items output (map to_json vs)) rest.
Proof.
  induction vs as [|v vs IH]; intros fuel output rest Hc Hf;
    (destruct fuel as [|fuel]; [inversion Hf|]); cbn [convert_list_loop].
  - cbn [map concat app items]. apply io_get_char.
    rewrite char_of_int_code. simpl. apply io_ret.
  - apply Forall_cons_iff in Hc. destruct Hc as [Hv Hvs].
    cbn [map concat items length] in *. rewrite <- app_assoc.
    destruct (bencode_head v) as (c & tl & E & Hne & Hx).
    rewrite E at 1. cbn [app]. apply io_get_char.
    rewrite char_of_int_code, (eqb_neq_byte _ _ Hne).
    eapply io_silent; [apply io_unget; exact Hx|].
    change (c :: tl ++ ?r) with ((c :: tl) ++ r). rewrite <- E.
    eapply io_bind; [apply io_comma|].
    eapply io_bind; [apply Hv|].
    apply IH; [assumption | lia].
Qed.

Lemma convert_list_io vs fuel rest :
  Forall (converts convert_value) vs ->
  length vs < fuel ->
  io (convert_list convert_value fuel)
     (concat (map bencode vs) ++ "e" :: rest) tt
     ("[" :: items false (map to_json vs) ++ ["]"]) rest.
Proof.
  intros Hc Hf. unfold convert_list. apply io_seq_output.
  eapply io_bind; [apply convert_list_loop_io; assumption|].
  apply io_output.
Qed.

Lemma convert_dictionary_loop_io kvs : forall fuel output rest,
  Forall (fun kv => converts convert_value (BStr (fst kv)) /\
                    converts convert_value (snd kv)) kvs ->
  length kvs < fuel ->
  io (convert_dictionary_loop convert_value fuel output)
     (concat (map bencode_pair kvs) ++ "e" :: rest) tt
     (items output (map json_pair kvs)) rest.
Proof.
  induction kvs as [|[k v] kvs IH]; intros fuel output rest Hc Hf;
    (destruct fuel as [|fuel]; [inversion Hf|]);
    cbn [convert_dictionary_loop].
  - cbn [map concat app items]. apply io_get_char.
    rewrite char_of_int_code. simpl. apply io_ret.
  - apply Forall_cons_iff in Hc. destruct Hc as [[Hk Hv] Hkvs].
    cbn [fst snd] in Hk, Hv.
    cbn [map concat items length bencode_pair json_pair] in *.
    rewrite <- !app_assoc.
    destruct (bencode_string_head k) as (c & tl & E & Hd).
    assert (Hne : c <> "e") by (intros ->; discriminate Hd).
    rewrite E at 1. cbn [app]. apply io_get_char.
    rewrite char_of_int_code, (eqb_neq_byte _ _ Hne).
    eapply io_silent; [apply io_unget; intros ->; discriminate Hd|].
    change (c :: tl ++ ?r) with ((c :: tl) ++ r). rewrite <- E.
    eapply io_bind; [apply io_comma|].
    eapply io_bind; [apply (Hk _)|].
    cbn [app]. apply io_seq_output.
    eapply io_bind; [apply Hv|].
    apply IH; [assumption | lia].
Qed.

Lemma convert_dictionary_io kvs fuel rest :
  Forall (fun kv => converts convert_value (BStr (fst kv)) /\
                    converts convert_value (snd kv)) kvs ->
  length kvs < fuel ->
  io (convert_dictionary convert_value fuel)
     (concat (map bencode_pair kvs) ++ "e" :: rest) tt
     ("{" :: items false (map json_pair kvs) ++ ["}"]) rest.
Proof.
  intros Hc Hf. unfold convert_dictionary. apply io_seq_output.
  eapply io_bind; [apply convert_dictionary_loop_io; assumption|].
  apply io_output.
Qed.

End ContainerRuns.

(** ** convert_value on a well-formed value *)

Lemma length_concat_in {A} (f : A -> list byte) x l :
  In x l -> length (f x) <= length (concat (map f l)).
Proof.
  induction l as [|y l IH]; intros H; [contradiction|].
  cbn [map concat]. rewrite length_app.
  destruct H as [->|H]; [lia|]. apply IH in H. lia.
Qed.

Lemma length_concat_count {A} (f : A -> list byte) l :
  (forall x, 0 < length (f x)) ->
  length l <= length (concat (map f l)).
Proof.
  intros Hf. induction l as [|y l IH]; [simpl; lia|].
  cbn [map concat length]. rewrite length_app.
  specialize (Hf y). lia.
Qed.

Lemma bencode_pair_nonempty kv : 0 < length (bencode_pair kv).
Proof.
  destruct kv as [k v]. unfold bencode_pair. rewrite length_app.
  pose proof (bencode_nonempty v). lia.
Qed.

Lemma wf_BList vs : wf (BList vs) = true -> Forall (fun v => wf v = true) vs.
Proof. simpl. intros H. apply Forall_forall. apply forallb_forall. exact H. Qed.

Lemma wf_BDict kvs :
  wf (BDict kvs) = true ->
  Forall (fun kv => short (fst kv) = true /\ wf (snd kv) = true) kvs.
Proof.
  simpl. intros H. apply Forall_forall. intros [k v] Hin.
  rewrite forallb_forall in H. specialize (H _ Hin).
  apply andb_true_iff in H. exact H.
Qed.

Lemma bencode_BDict kvs :
  bencode (BDict kvs) = "d" :: concat (map bencode_pair kvs) ++ ["e"].
Proof. reflexivity. Qed.

Lemma to_json_BDict kvs :
  to_json (BDict kvs) = "{" :: items false (map json_pair kvs) ++ ["}"].
Proof. reflexivity. Qed.

Lemma convert_value_io fuel : forall v rest,
  wf v = true ->
  length (bencode v) < fuel ->
  io (convert_value fuel) (bencode v ++ rest) tt (to_json v) rest.
Proof.
  induction fuel as [|fuel IH]; intros v rest Hwf Hf; [inversion Hf|].
  cbn [convert_value].
  destruct v as [n|s|vs|kvs].
  - (* integer *)
    cbn [bencode to_json app] in *. apply io_get_char.
    rewrite char_of_int_code. cbn [Byte.eqb].
    change (Byte.eqb "i" "i") with true. cbv iota.
    rewrite <- app_assoc. cbn [app].
    apply convert_integer_io; [apply show_int_no_e|].
    cbn [length] in Hf. rewrite length_app in Hf. simpl in Hf. lia.
  - (* byte string *)
    cbn [bencode to_json wf] in *.
    destruct (bencode_string_head s) as (c & tl & E & Hd).
    rewrite E at 1. cbn [app]. apply io_get_char.
    rewrite char_of_int_code.
    rewrite !eqb_neq_byte by (intros ->; discriminate Hd).
    eapply io_silent; [apply io_unget; intros ->; discriminate Hd|].
    change (c :: tl ++ rest) with ((c :: tl) ++ rest). rewrite <- E.
    pose proof (short_length s Hwf) as Hs.
    destruct (decimal_spec (Z.of_nat (length s))) as (D & _ & V); [lia|].
    pose proof (decimal_length_short _ Hs) as L.
    unfold bencode_string in *. rewrite length_app in Hf. cbn [length] in Hf.
    rewrite <- app_assoc. cbn [app].
    apply convert_string_io; try assumption; try lia.
    unfold MAX_INT_LEN. lia.
  - (* list *)
    cbn [bencode to_json app] in *. apply io_get_char.
    rewrite char_of_int_code.
    change (Byte.eqb "l" "i") with false. change (Byte.eqb "l" "l") with true.
    cbv iota. rewrite <- app_assoc. cbn [app].
    cbn [length] in Hf. rewrite length_app in Hf. cbn [length] in Hf.
    apply convert_list_io.
    + pose proof (wf_BList vs Hwf) as W.
      rewrite Forall_forall in *. intros v Hin rest'.
      apply IH; [apply W; assumption|].
      pose proof (length_concat_in bencode v vs Hin). lia.
    + pose proof (length_concat_count bencode vs bencode_nonempty). lia.
  - (* dictionary *)
    rewrite bencode_BDict in *. rewrite to_json_BDict.
    cbn [app]. apply io_get_char.
    rewrite char_of_int_code.
    change (Byte.eqb "d" "i") with false. change (Byte.eqb "d" "l") with false.
    change (Byte.eqb "d" "d") with true.
    cbv iota. rewrite <- app_assoc. cbn [app].
    cbn [length] in Hf. rewrite length_app in Hf. cbn [length] in Hf.
    apply (convert_dictionary_io (convert_value fuel) kvs).
    + pose proof (wf_BDict kvs Hwf) as W.
      rewrite Forall_forall in *. intros [k v] Hin.
      destruct (W _ Hin) as [Wk Wv]. cbn [fst snd] in *.
      pose proof (length_concat_in bencode_pair (k, v) kvs Hin) as L.
      cbn [bencode_pair] in L. rewrite length_app in L.
      split; intros rest'; apply IH; cbn [wf bencode]; try assumption; lia.
    + pose proof (length_concat_count bencode_pair kvs bencode_pair_nonempty).
      lia.
Qed.

(** ** The pushback discipline *)

Lemma check_app l1 : forall prev l2,
  check prev (l1 ++ l2) = check prev l1 && check (after prev l1) l2.
Proof.
  induction l1 as [|[r|c] l1 IH]; intros prev l2; simpl.
  - reflexivity.
  - apply IH.
  - destruct prev; [|reflexivity]. rewrite IH, andb_assoc. reflexivity.
Qed.

Lemma after_app l1 : forall prev l2,
  after prev (l1 ++ l2) = after (after prev l1) l2.
Proof.
  induction l1 as [|[r|c] l1 IH]; intros prev l2; simpl; auto.
Qed.

Lemma held_app l1 l2 : held (l1 ++ l2) = held_from (held l1) l2.
Proof. unfold held, held_from. apply fold_left_app. Qed.

Lemma after_get_last l : forall prev r,
  after prev l = Some r -> l = [] \/ exists l0, l = l0 ++ [Get r].
Proof.
  induction l as [|e l IH]; intros prev r H; [left; reflexivity|right].
  destruct e as [r'|c]; simpl in H.
  - destruct (IH _ _ H) as [->|(l0 & ->)].
    + simpl in H. inversion H; subst. exists []. reflexivity.
    + exists (Get r' :: l0). reflexivity.
  - destruct (IH _ _ H) as [->|(l0 & ->)].
    + discriminate H.
    + exists (Unget c :: l0). reflexivity.
Qed.

Lemma check_unget_follows_get l :
  check None l = true -> unget_follows_get l.
Proof.
  intros H l1 c l2 ->. rewrite check_app in H.
  apply andb_true_iff in H. destruct H as [_ H]. simpl in H.
  destruct (after None l1) as [r|] eqn:A; [|discriminate H].
  apply andb_true_iff in H. destruct H as [H _]. apply byte_dec_bl in H.
  destruct (after_get_last _ _ _ A) as [->|(l0 & ->)]; [discriminate A|].
  exists l0, r. auto.
Qed.

Lemma check_held l : forall prev d,
  check prev l = true ->
  d <= 1 -> (prev <> None -> d = 0) ->
  held_from d l <= 1.
Proof.
  induction l as [|[r|c] l IH]; intros prev d H Hd Hp; simpl in *.
  - assumption.
  - apply (IH (Some r)); [assumption | lia | intros _; lia].
  - destruct prev as [r|]; [|discriminate H].
    apply andb_true_iff in H. destruct H as [_ H].
    apply (IH None); [assumption | | congruence].
    rewrite Hp by discriminate. lia.
Qed.

Lemma check_held_prefix l l1 l2 :
  check None l = true -> l = l1 ++ l2 -> held l1 <= 1.
Proof.
  intros H ->. rewrite check_app in H. apply andb_true_iff in H.
  apply (check_held l1 None 0); [apply H | lia | congruence].
Qed.

Lemma keeps_ret {A} (P : state -> Prop) (a : A) (Q : A -> state -> Prop) :
  (forall st, P st -> Q a st) -> keeps P (ret a) Q.
Proof. intros H st HP. simpl. auto. Qed.

Lemma keeps_bind {A B} P (m : M A) Q (k : A -> M B) R :
  keeps P m Q -> (forall a, keeps (Q a) (k a) R) -> keeps P (bind m k) R.
Proof.
  intros Hm Hk st HP. specialize (Hm st HP). unfold bind.
  destruct (m st) as [[a| |] st1]; try exact Hm.
  apply Hk. exact Hm.
Qed.

Lemma keeps_pre {A} (P P' : state -> Prop) (m : M A) Q :
  (forall st, P' st -> P st) -> keeps P m Q -> keeps P' m Q.
Proof. intros HPP H st HP. apply H. auto. Qed.

Lemma keeps_out_of_fuel {A} (Q : A -> state -> Prop) :
  keeps Inv out_of_fuel Q.
Proof. intros st H. exact H. Qed.

Lemma keeps_undefined {A} (Q : A -> state -> Prop) :
  keeps Inv undefined Q.
Proof. intros st H. exact H. Qed.

Lemma Inv_snoc_get st r (u : list byte) :
  Inv st -> length u = pred (length (ungot st)) ->
  check None (calls st ++ [Get r]) = true /\
  length u <= held (calls st ++ [Get r]) /\
  after None (calls st ++ [Get r]) = Some r.
Proof.
  intros [C H] Hu. rewrite check_app, after_app, held_app, C. simpl.
  repeat split. lia.
Qed.

Lemma keeps_get : keeps Inv get_character JustGot.
Proof.
  intros st H. unfold get_character, JustGot, Inv.
  destruct (ungot st) as [|c u] eqn:U; [destruct (stdin st) as [|c rest]|];
    simpl;
    match goal with
    | |- context [calls st ++ [Get ?r]] =>
        destruct (Inv_snoc_get st r (tl (ungot st)) H) as (X & Y & Z);
        [rewrite U; reflexivity | rewrite U in Y; auto]
    end.
Qed.

Lemma keeps_unget r :
  keeps (JustGot r) (unget_character (char_of_int r)) (fun _ => Inv).
Proof.
  intros st [[C H] A]. rewrite unget_character_eq. unfold Inv. simpl.
  rewrite check_app, held_app, C, A. simpl.
  rewrite eqb_refl_byte. split; [reflexivity|].
  destruct (Byte.eqb (char_of_int r) xff); simpl; lia.
Qed.

Lemma keeps_output c : keeps Inv (output_character c) (fun _ => Inv).
Proof. intros st H. exact H. Qed.

Lemma keeps_store buf i c : keeps Inv (store buf i c) (fun _ => Inv).
Proof.
  intros st H. unfold store. destruct (update buf i c); exact H.
Qed.

Lemma JustGot_Inv r st : JustGot r st -> Inv st.
Proof. intros [H _]. exact H. Qed.

Ltac keeps_inv :=
  lazymatch goal with
  | |- keeps _ (if ?b then _ else _) _ => destruct b
  | |- keeps (JustGot _) (bind (unget_character _) _) _ =>
      eapply keeps_bind; [apply keeps_unget | intros ?u; cbv beta]
  | |- keeps Inv (bind (if ?b then _ else _) _) _ =>
      apply (keeps_bind _ _ (fun _ => Inv)); [|intros ?u]
  | |- keeps (JustGot _) _ _ =>
      apply (keeps_pre Inv); [apply JustGot_Inv|]
  | |- keeps Inv (bind get_character _) _ =>
      eapply keeps_bind; [apply keeps_get | intros ?r; cbv beta zeta]
  | |- keeps Inv (bind (output_character _) _) _ =>
      eapply keeps_bind; [apply keeps_output | intros ?u; cbv beta]
  | |- keeps Inv (bind (store _ _ _) _) _ =>
      eapply keeps_bind; [apply keeps_store | intros ?buf; cbv beta]
  | |- keeps Inv (output_character _) _ => apply keeps_output
  | |- keeps Inv (ret _) _ => apply keeps_ret; auto
  | |- keeps Inv out_of_fuel _ => apply keeps_out_of_fuel
  | |- keeps Inv undefined _ => apply keeps_undefined
  end.

Lemma keeps_convert_integer fuel :
  keeps Inv (convert_integer fuel) (fun _ => Inv).
Proof.
  induction fuel as [|fuel IH]; cbn [convert_integer]; repeat keeps_inv.
  exact IH.
Qed.

Lemma keeps_read_count_loop fuel : forall buf len,
  keeps Inv (read_count_loop fuel buf len) (fun _ => Inv).
Proof.
  induction fuel as [|fuel IH]; intros buf len; cbn [read_count_loop];
    repeat keeps_inv.
  apply IH.
Qed.

Lemma keeps_read_count fuel : keeps Inv (read_count fuel) (fun _ => Inv).
Proof.
  unfold read_count.
  eapply keeps_bind; [apply keeps_read_count_loop | intros p; cbv beta].
  keeps_inv. destruct (atoi buf); keeps_inv.
Qed.

Lemma keeps_convert_string_char c :
  keeps Inv (convert_string_char c) (fun _ => Inv).
Proof. unfold convert_string_char. repeat keeps_inv. Qed.

Lemma keeps_convert_string_loop fuel : forall i count,
  keeps Inv (convert_string_loop fuel i count) (fun _ => Inv).
Proof.
  induction fuel as [|fuel IH]; intros i count; cbn [convert_string_loop];
    repeat keeps_inv.
  eapply keeps_bind; [apply keeps_convert_string_char | intros ?u; cbv beta]. apply IH.
Qed.

Lemma keeps_convert_string fuel :
  keeps Inv (convert_string fuel) (fun _ => Inv).
Proof.
  unfold convert_string.
  eapply keeps_bind; [apply keeps_read_count | intros count; cbv beta].
  keeps_inv.
  eapply keeps_bind; [apply keeps_convert_string_loop | intros ?u; cbv beta].
  keeps_inv.
Qed.

Lemma keeps_convert_list cv fuel :
  keeps Inv cv (fun _ => Inv) ->
  keeps Inv (convert_list cv fuel) (fun _ => Inv).
Proof.
  intros Hcv. unfold convert_list. keeps_inv.
  apply (keeps_bind _ _ (fun _ => Inv)); [|intros ?u; keeps_inv].
  generalize false. induction fuel as [|fuel IH]; intros output;
    cbn [convert_list_loop]; repeat keeps_inv;
    (eapply keeps_bind; [apply Hcv | intros ?u; cbv beta]); apply IH.
Qed.

Lemma keeps_convert_dictionary cv fuel :
  keeps Inv cv (fun _ => Inv) ->
  keeps Inv (convert_dictionary cv fuel) (fun _ => Inv).
Proof.
  intros Hcv. unfold convert_dictionary. keeps_inv.
  apply (keeps_bind _ _ (fun _ => Inv)); [|intros ?u; keeps_inv].
  generalize false. induction fuel as [|fuel IH]; intros output;
    cbn [convert_dictionary_loop]; repeat keeps_inv;
    (eapply keeps_bind; [apply Hcv | intros ?u; cbv beta]); keeps_inv;
    (eapply keeps_bind; [apply Hcv | intros ?u; cbv beta]); apply IH.
Qed.

Lemma keeps_convert_value fuel :
  keeps Inv (convert_value fuel) (fun _ => Inv).
Proof.
  induction fuel as [|fuel IH]; cbn [convert_value]; [keeps_inv|].
  keeps_inv.
  destruct (Byte.eqb (char_of_int r) "i");
    [keeps_inv; apply keeps_convert_integer|].
  destruct (Byte.eqb (char_of_int r) "l");
    [keeps_inv; apply keeps_convert_list; exact IH|].
  destruct (Byte.eqb (char_of_int r) "d");
    [keeps_inv; apply keeps_convert_dictionary; exact IH|].
  keeps_inv. apply keeps_convert_string.
Qed.

Lemma keeps_main fuel : keeps Inv (main fuel) (fun _ => Inv).
Proof.
  unfold main. eapply keeps_bind; [apply keeps_convert_value | intros ?u; cbv beta].
  keeps_inv.
Qed.

Lemma Inv_initial inp : Inv (initial inp).
Proof. split; [reflexivity | apply Nat.le_refl]. Qed.

(** *** What is true of every state the program passes through *)

Lemma preserves_ret I {A} (a : A) : preserves I (ret a).
Proof. intros st H. exact H. Qed.

Lemma preserves_out_of_fuel I {A} : preserves I (@out_of_fuel A).
Proof. intros st H. exact H. Qed.

Lemma preserves_undefined I {A} : preserves I (@undefined A).
Proof. intros st H. exact H. Qed.

Lemma preserves_bind I {A B} (m : M A) (k : A -> M B) :
  preserves I m -> (forall a, preserves I (k a)) -> preserves I (bind m k).
Proof.
  intros Hm Hk st H. specialize (Hm st H). unfold bind.
  destruct (m st) as [[a| |] st1]; cbn [snd] in *; try exact Hm.
  apply Hk. exact Hm.
Qed.

Section Preserved.

Variable I : state -> Prop.

Hypothesis I_get : preserves I get_character.
Hypothesis I_unget : forall c, preserves I (unget_character c).
Hypothesis I_output : forall c, preserves I (output_character c).
Hypothesis I_store : forall buf i c, preserves I (store buf i c).

Ltac preserve :=
  repeat first
    [ assumption
    | apply preserves_ret
    | apply preserves_out_of_fuel
    | apply preserves_undefined
    | apply I_get
    | apply I_unget
    | apply I_output
    | apply I_store
    | apply preserves_bind; [|intros ?x; cbv beta zeta]
    | match goal with
      | |- preserves _ (if ?b then _ else _) => destruct b
      | |- preserves _ (match ?o with Some _ => _ | None => _ end) =>
          destruct o
      | IH : forall _, preserves _ _ |- _ => apply IH
      | IH : forall _ _, preserves _ _ |- _ => apply IH
      end ].

Lemma preserves_convert_integer fuel : preserves I (convert_integer fuel).
Proof. induction fuel as [|fuel IH]; cbn [convert_integer]; preserve. Qed.

Lemma preserves_read_count_loop fuel : forall buf len,
  preserves I (read_count_loop fuel buf len).
Proof.
  induction fuel as [|fuel IH]; intros buf len; cbn [read_count_loop];
    preserve.
Qed.

Lemma preserves_read_count fuel : preserves I (read_count fuel).
Proof.
  unfold read_count.
  apply preserves_bind; [apply preserves_read_count_loop | intros p].
  preserve.
Qed.

Lemma preserves_convert_string_char c : preserves I (convert_string_char c).
Proof. unfold convert_string_char. preserve. Qed.

Lemma preserves_convert_string_loop fuel : forall i count,
  preserves I (convert_string_loop fuel i count).
Proof.
  induction fuel as [|fuel IH]; intros i count; cbn [convert_string_loop];
    preserve.
  apply preserves_convert_string_char.
Qed.

Lemma preserves_convert_string fuel : preserves I (convert_string fuel).
Proof.
  unfold convert_string.
  apply preserves_bind; [apply preserves_read_count | intros count].
  apply preserves_bind; [apply I_output | intros ?u].
  apply preserves_bind; [apply preserves_convert_string_loop | intros ?u].
  apply I_output.
Qed.

Lemma preserves_convert_list cv fuel :
  preserves I cv -> preserves I (convert_list cv fuel).
Proof.
  intros Hcv. unfold convert_list.
  apply preserves_bind; [apply I_output | intros ?u].
  apply preserves_bind; [|intros ?u; apply I_output].
  generalize false. induction fuel as [|fuel IH]; intros output;
    cbn [convert_list_loop]; preserve.
Qed.

Lemma preserves_convert_dictionary cv fuel :
  preserves I cv -> preserves I (convert_dictionary cv fuel).
Proof.
  intros Hcv. unfold convert_dictionary.
  apply preserves_bind; [apply I_output | intros ?u].
  apply preserves_bind; [|intros ?u; apply I_output].
  generalize false. induction fuel as [|fuel IH]; intros output;
    cbn [convert_dictionary_loop]; preserve.
Qed.

Lemma preserves_convert_value fuel : preserves I (convert_value fuel).
Proof.
  induction fuel as [|fuel IH]; cbn [convert_value];
    [apply preserves_out_of_fuel|].
  apply preserves_bind; [apply I_get | intros r; cbv beta zeta].
  destruct (Byte.eqb (char_of_int r) "i");
    [apply preserves_convert_integer|].
  destruct (Byte.eqb (char_of_int r) "l");
    [apply preserves_convert_list; exact IH|].
  destruct (Byte.eqb (char_of_int r) "d");
    [apply preserves_convert_dictionary; exact IH|].
  apply preserves_bind; [apply I_unget | intros ?u].
  apply preserves_convert_string.
Qed.

Lemma preserves_main fuel : preserves I (main fuel).
Proof.
  unfold main.
  apply preserves_bind; [apply preserves_convert_value | intros ?u].
  apply preserves_ret.
Qed.

End Preserved.

Lemma logged_get : preserves Logged get_character.
Proof.
  intros st H. unfold get_character, Logged in *.
  destruct (ungot st) as [|c u]; [destruct (stdin st) as [|c rest]|];
    cbn [snd calls]; apply Forall_app; (split; [exact H|]);
    (apply Forall_cons; [|apply Forall_nil]); cbn [getc_result];
    [left; reflexivity | right; exists c; reflexivity
     | right; exists c; reflexivity].
Qed.

Lemma logged_unget c : preserves Logged (unget_character c).
Proof.
  intros st H. unfold unget_character, Logged in *. cbn [snd calls].
  apply Forall_app. split; [exact H|].
  apply Forall_cons; [exact Logic.I | apply Forall_nil].
Qed.

Lemma logged_output c : preserves Logged (output_character c).
Proof. intros st H. exact H. Qed.

Lemma logged_store buf i c : preserves Logged (store buf i c).
Proof. intros st H. unfold store. destruct (update buf i c); exact H. Qed.

Lemma logged_main inp fuel : Logged (snd (main fuel (initial inp))).
Proof.
  apply (preserves_main Logged logged_get logged_unget logged_output
           logged_store).
  constructor.
Qed.

Lemma bytes_held_app l1 l2 :
  bytes_held (l1 ++ l2) = bytes_held_from (bytes_held l1) l2.
Proof. unfold bytes_held, bytes_held_from. apply fold_left_app. Qed.

Lemma counted_get : preserves Counted get_character.
Proof.
  intros st H. unfold get_character, Counted in *.
  destruct (ungot st) as [|c u]; [destruct (stdin st) as [|c rest]|];
    cbn [snd calls ungot]; rewrite bytes_held_app; cbn; rewrite <- H;
    reflexivity.
Qed.

Lemma counted_unget c : preserves Counted (unget_character c).
Proof.
  intros st H. unfold unget_character, Counted in *. cbn [snd calls ungot].
  rewrite bytes_held_app. cbn. rewrite <- H.
  destruct (int_of_char c =? EOF)%Z; reflexivity.
Qed.

Lemma counted_output c : preserves Counted (output_character c).
Proof. intros st H. exact H. Qed.

Lemma counted_store buf i c : preserves Counted (store buf i c).
Proof. intros st H. unfold store. destruct (update buf i c); exact H. Qed.

Lemma counted_main inp fuel : Counted (snd (main fuel (initial inp))).
Proof.
  apply (preserves_main Counted counted_get counted_unget counted_output
           counted_store).
  reflexivity.
Qed.

Lemma bytes_held_le_held l : forall d d',
  d <= d' -> bytes_held_from d l <= held_from d' l.
Proof.
  induction l as [|[r|c] l IH]; intros d d' H; cbn.
  - exact H.
  - apply IH. lia.
  - apply IH. destruct (int_of_char c =? EOF)%Z; lia.
Qed.

Lemma follows_passes_char_read l :
  unget_follows_get l -> Forall getc_result l -> unget_passes_char_read l.
Proof.
  intros Hf Hl l1 c l2 E. destruct (Hf l1 c l2 E) as (l0 & r & -> & Hc).
  exists l0, r. split; [reflexivity|]. subst l.
  apply Forall_app in Hl. destruct Hl as [Hl _].
  apply Forall_app in Hl. destruct Hl as [_ Hl].
  apply Forall_inv in Hl. cbn [getc_result] in Hl.
  destruct Hl as [->|(b & ->)].
  - right. split; [reflexivity|]. rewrite <- Hc. reflexivity.
  - left. rewrite <- Hc, char_of_int_code. reflexivity.
Qed.

Lemma follows_never_twice l : unget_follows_get l -> never_unget_twice l.
Proof.
  intros Hf l1 c d l2 E.
  destruct (Hf (l1 ++ [Unget c]) d l2) as (l0 & r & E2 & _).
  { rewrite <- app_assoc. exact E. }
  apply app_inj_tail in E2. destruct E2 as [_ E2]. discriminate E2.
Qed.

(** * The claims *)

(** C7: called once the [i] tag is consumed, [convert_integer] copies every
    following input byte to the output unchanged until it reads the byte [e],
    which it consumes and does not write.  The text of a well-formed integer
    (decimal digits after an optional minus sign, see [show_int_no_e]) holds
    no [e], so its output is that text and nothing more. *)
Theorem convert_integer_copies_verbatim body rest fuel st :
  Forall (fun c => c <> "e") body ->
  pending st = body ++ "e" :: rest ->
  length body < fuel ->
  exists st', convert_integer fuel st = (Done tt, st') /\
              stdout st' = stdout st ++ body /\
              pending st' = rest.
Proof.
  intros Hb P Hf.
  destruct (convert_integer_io body rest fuel Hb Hf st P) as (st' & E & P' & O').
  exists st'. auto.
Qed.

Lemma convert_integer_copies_verbatim_witness :
  exists st', convert_integer 3 (mkState (bytes "42e") [] [] [Get 105] [])
              = (Done tt, st') /\
              stdout st' = [] ++ bytes "42" /\ pending st' = [].
Proof.
  apply (convert_integer_copies_verbatim (bytes "42") [] 3
           (mkState (bytes "42e") [] [] [Get 105] [])).
  - repeat constructor; discriminate.
  - reflexivity.
  - simpl. lia.
Defined.

(** The program on [i42e] writes [42]. *)
Example run_i42e : run 5 (bytes "i42e") = (Done 0%Z, bytes "42").
Proof. reflexivity. Qed.

(** C3: called once the [l] tag is consumed, on any sequence of well-formed
    values closed by [e], [convert_list] writes an opening bracket, the JSON
    form of each element in input order with a comma before each one except
    the first, consumes the closing [e] and writes a closing bracket. *)
Theorem convert_list_elements_in_order vs rest fuel st :
  forallb wf vs = true ->
  pending st = concat (map bencode vs) ++ "e" :: rest ->
  length (concat (map bencode vs)) < fuel ->
  exists st', convert_list (convert_value fuel) fuel st = (Done tt, st') /\
              stdout st' = stdout st ++ "[" :: items false (map to_json vs) ++ ["]"] /\
              pending st' = rest.
Proof.
  intros Hwf P Hf.
  assert (Hc : Forall (converts (convert_value fuel)) vs).
  { apply Forall_forall. intros v Hin rest'. apply convert_value_io.
    - rewrite forallb_forall in Hwf. auto.
    - pose proof (length_concat_in bencode v vs Hin). lia. }
  assert (Hn : length vs < fuel).
  { pose proof (length_concat_count bencode vs bencode_nonempty). lia. }
  destruct (convert_list_io (convert_value fuel) vs fuel rest Hc Hn st P)
    as (st' & E & P' & O').
  exists st'. auto.
Qed.

Lemma convert_list_elements_in_order_witness :
  (exists st', convert_list (convert_value 20) 20
                 (mkState (bytes "4:spam4:eggse") [] [] [] [])
               = (Done tt, st') /\
               stdout st' = [] ++ "[" :: items false
                              (map to_json [BStr (bytes "spam"); BStr (bytes "eggs")])
                              ++ ["]"] /\
               pending st' = []) /\
  (exists st', convert_list (convert_value 1) 1 (mkState (bytes "e") [] [] [] [])
               = (Done tt, st') /\
               stdout st' = [] ++ "[" :: items false (map to_json []) ++ ["]"] /\
               pending st' = []).
Proof.
  split.
  - apply (convert_list_elements_in_order
             [BStr (bytes "spam"); BStr (bytes "eggs")] [] 20
             (mkState (bytes "4:spam4:eggse") [] [] [] []));
      [reflexivity | reflexivity | simpl; lia].
  - apply (convert_list_elements_in_order [] [] 1
             (mkState (bytes "e") [] [] [] []));
      [reflexivity | reflexivity | simpl; lia].
Defined.

(** The program on [le] writes a pair of brackets, and on
    [l4:spam4:eggse] the two strings in order. *)
Example run_le : run 5 (bytes "le") = (Done 0%Z, bytes "[]").
Proof. reflexivity. Qed.

Example run_list :
  run 10 (bytes "l4:spam4:eggse")
  = (Done 0%Z, "[" :: dquote :: bytes "spam" ++ dquote :: "," :: dquote
                   :: bytes "eggs" ++ [dquote; "]"]).
Proof. reflexivity. Qed.

(** C4: called once the [d] tag is consumed, on any sequence of well-formed
    key/value pairs closed by [e], [convert_dictionary] writes an opening
    brace, then for each pair in input order the key, a colon and the value,
    with a comma between pairs, consumes the closing [e] and writes a closing
    brace: the pairs are neither sorted nor rekeyed. *)
Theorem convert_dictionary_pairs_in_order kvs rest fuel st :
  forallb (fun kv => short (fst kv) && wf (snd kv)) kvs = true ->
  pending st = concat (map bencode_pair kvs) ++ "e" :: rest ->
  length (concat (map bencode_pair kvs)) < fuel ->
  exists st', convert_dictionary (convert_value fuel) fuel st = (Done tt, st') /\
              stdout st' = stdout st ++ "{" :: items false (map json_pair kvs) ++ ["}"] /\
              pending st' = rest.
Proof.
  intros Hwf P Hf.
  assert (Hc : Forall (fun kv => converts (convert_value fuel) (BStr (fst kv)) /\
                                 converts (convert_value fuel) (snd kv)) kvs).
  { apply Forall_forall. intros [k v] Hin.
    rewrite forallb_forall in Hwf. specialize (Hwf _ Hin).
    apply andb_true_iff in Hwf. destruct Hwf as [Wk Wv]. cbn [fst snd] in *.
    pose proof (length_concat_in bencode_pair (k, v) kvs Hin) as L.
    cbn [bencode_pair] in L. rewrite length_app in L.
    split; intros rest'; apply convert_value_io; cbn [wf bencode];
      try assumption; lia. }
  assert (Hn : length kvs < fuel).
  { pose proof (length_concat_count bencode_pair kvs bencode_pair_nonempty).
    lia. }
  destruct (convert_dictionary_io (convert_value fuel) kvs fuel rest Hc Hn st P)
    as (st' & E & P' & O').
  exists st'. auto.
Qed.

Lemma convert_dictionary_pairs_in_order_witness :
  (exists st', convert_dictionary (convert_value 30) 30
                 (mkState (bytes "4:spam4:eggs3:cow3:mooe") [] [] [] [])
               = (Done tt, st') /\
               stdout st' = [] ++ "{" :: items false
                              (map json_pair [(bytes "spam", BStr (bytes "eggs"));
                                              (bytes "cow", BStr (bytes "moo"))])
                              ++ ["}"] /\
               pending st' = []) /\
  (exists st', convert_dictionary (convert_value 1) 1
                 (mkState (bytes "e") [] [] [] [])
               = (Done tt, st') /\
               stdout st' = [] ++ "{" :: items false (map json_pair []) ++ ["}"] /\
               pending st' = []).
Proof.
  split.
  - apply (convert_dictionary_pairs_in_order
             [(bytes "spam", BStr (bytes "eggs")); (bytes "cow", BStr (bytes "moo"))]
             [] 30 (mkState (bytes "4:spam4:eggs3:cow3:mooe") [] [] [] []));
      [reflexivity | reflexivity | simpl; lia].
  - apply (convert_dictionary_pairs_in_order [] [] 1
             (mkState (bytes "e") [] [] [] []));
      [reflexivity | reflexivity | simpl; lia].
Defined.

Example run_de : run 5 (bytes "de") = (Done 0%Z, bytes "{}").
Proof. reflexivity. Qed.

Example run_dictionary :
  run 10 (bytes "d3:cow3:moo4:spam4:eggse")
  = (Done 0%Z,
     "{" :: dquote :: bytes "cow" ++ dquote :: ":" :: dquote :: bytes "moo"
         ++ dquote :: "," :: dquote :: bytes "spam" ++ dquote :: ":" :: dquote
         :: bytes "eggs" ++ [dquote; "}"]).
Proof. reflexivity. Qed.

(** C6: [convert_value] reads one byte and dispatches on it: [i] goes to the
    integer converter, [l] to the list converter, [d] to the dictionary
    converter, and any other byte is passed to [unget_character] before the
    string converter runs.  That call pushes the byte back, as the comment of
    [unget_character] says, for every byte but one: 0xff reaches [ungetc] as
    [EOF], is not pushed back, and the string converter starts one byte
    late.  On a well-formed value, whose first byte is never 0xff,
    [convert_value] returns having consumed exactly that value, closing
    delimiter included, and written exactly its JSON form. *)
Theorem convert_value_dispatch_and_consume :
  (forall c inp fuel st, pending st = c :: inp ->
     exists st1,
       get_character st = (Done (code c), st1) /\ pending st1 = inp /\
       if Byte.eqb c "i" then
         convert_value (S fuel) st = convert_integer fuel st1
       else if Byte.eqb c "l" then
         convert_value (S fuel) st = convert_list (convert_value fuel) fuel st1
       else if Byte.eqb c "d" then
         convert_value (S fuel) st
         = convert_dictionary (convert_value fuel) fuel st1
       else
         exists st2,
           unget_character c st1 = (Done tt, st2) /\
           pending st2 = (if Byte.eqb c xff then inp else c :: inp) /\
           convert_value (S fuel) st = convert_string fuel st2) /\
  (forall v rest fuel st,
     wf v = true ->
     pending st = bencode v ++ rest ->
     length (bencode v) < fuel ->
     exists st', convert_value fuel st = (Done tt, st') /\
                 stdout st' = stdout st ++ to_json v /\
                 pending st' = rest).
Proof.
  split.
  - intros c inp fuel st P.
    destruct (get_character_run st c inp P) as (st1 & E & P1 & _).
    exists st1. split; [exact E|]. split; [exact P1|].
    assert (X : convert_value (S fuel) st
                = (if Byte.eqb c "i" then convert_integer fuel
                   else if Byte.eqb c "l"
                        then convert_list (convert_value fuel) fuel
                   else if Byte.eqb c "d"
                        then convert_dictionary (convert_value fuel) fuel
                   else unget_character c ;; convert_string fuel) st1).
    { cbn [convert_value]. unfold bind at 1.
      rewrite E, char_of_int_code. reflexivity. }
    rewrite X.
    destruct (Byte.eqb c "i"); [reflexivity|].
    destruct (Byte.eqb c "l"); [reflexivity|].
    destruct (Byte.eqb c "d"); [reflexivity|].
    eexists. split; [apply unget_character_eq|].
    split; [|unfold bind; rewrite unget_character_eq; reflexivity].
    unfold pending in *. cbn [ungot stdin].
    destruct (Byte.eqb c xff); [exact P1 | cbn [app]; rewrite P1; reflexivity].
  - intros v rest fuel st Hwf P Hf.
    destruct (convert_value_io fuel v rest Hwf Hf st P) as (st' & E & P' & O').
    exists st'. auto.
Qed.

Lemma convert_value_dispatch_and_consume_witness :
  (exists st1,
     get_character (initial (xff :: bytes "1:a")) = (Done (code xff), st1) /\
     pending st1 = bytes "1:a" /\
     exists st2,
       unget_character xff st1 = (Done tt, st2) /\
       pending st2 = bytes "1:a" /\
       convert_value 7 (initial (xff :: bytes "1:a")) = convert_string 6 st2) /\
  (exists st1,
     get_character (initial (bytes "4:spam")) = (Done (code "4"), st1) /\
     pending st1 = bytes ":spam" /\
     exists st2,
       unget_character "4" st1 = (Done tt, st2) /\
       pending st2 = bytes "4:spam" /\
       convert_value 7 (initial (bytes "4:spam")) = convert_string 6 st2) /\
  (exists st',
     convert_value 20 (initial (bytes "d1:ali1ei-2eeei7e")) = (Done tt, st') /\
     stdout st' = [] ++ to_json (BDict [(bytes "a", BList [BInt 1; BInt (-2)])]) /\
     pending st' = bytes "i7e").
Proof.
  split; [|split].
  - apply (proj1 convert_value_dispatch_and_consume xff (bytes "1:a") 6
             (initial (xff :: bytes "1:a"))).
    reflexivity.
  - apply (proj1 convert_value_dispatch_and_consume "4" (bytes ":spam") 6
             (initial (bytes "4:spam"))).
    reflexivity.
  - apply (proj2 convert_value_dispatch_and_consume
             (BDict [(bytes "a", BList [BInt 1; BInt (-2)])]) (bytes "i7e") 20
             (initial (bytes "d1:ali1ei-2eeei7e")));
      [reflexivity | reflexivity | simpl; lia].
Defined.

(** The byte 0xff where a value is expected is lost: the string converter
    reads the length prefix [1] and the payload [a].  Had the byte been pushed
    back, the prefix would have been 0xff followed by [1], which [atoi] reads
    as 0, and the output an empty string. *)
Example run_on_byte_255 :
  run 10 (xff :: bytes "1:a") = (Done 0%Z, [dquote; "a"; dquote]) /\
  pending (snd (main 10 (initial (xff :: bytes "1:a")))) = [] /\
  fst (read_count 10 (mkState (xff :: bytes "1:a") [] [] [] [])) = Done 0%Z.
Proof. vm_compute. repeat split; reflexivity. Qed.

(** A length prefix above [INT_MAX] is outside what [atoi] can return: this
    is why well-formed values are taken with string lengths that fit an
    [int]. *)
Example read_count_above_INT_MAX :
  fst (read_count 20 (initial (bytes "2147483647:"))) = Done 2147483647%Z /\
  fst (read_count 20 (initial (bytes "2147483648:"))) = Undefined.
Proof. vm_compute. split; reflexivity. Qed.

(** C2: with [n] the count parsed from the length prefix, [convert_string]
    makes exactly [n] reads, which consume the [n] payload bytes that follow,
    and writes, between two double quotes, the escaping of each byte in
    order: a backslash and the byte for a double quote or a backslash; the
    byte itself when it is alphanumeric, punctuation or a space; and
    otherwise the six characters backslash, [u], [0], [0] and the two
    lowercase hexadecimal digits of the byte (so byte 1 gives [\u0001]).
    When the input holds the [n] bytes [bs], these are the bytes escaped. *)
Theorem convert_string_escapes_payload fuel st n st1 :
  read_count fuel st = (Done n, st1) ->
  Z.to_nat n < fuel ->
  exists st2,
    convert_string fuel st = (Done tt, st2) /\
    stdout st2
    = stdout st ++ dquote :: flat_map json_escape (reads (Z.to_nat n) (pending st1))
                ++ [dquote] /\
    pending st2 = skipn (Z.to_nat n) (pending st1) /\
    length (calls st2) = length (calls st1) + Z.to_nat n /\
    forall bs rest, pending st1 = bs ++ rest -> length bs = Z.to_nat n ->
      reads (Z.to_nat n) (pending st1) = bs /\ pending st2 = rest.
Proof.
  intros R Hf.
  pose proof (read_count_nonneg fuel st n st1 R) as Hn.
  assert (L : io (output_character dquote ;;
                  convert_string_loop fuel 0%Z n ;;
                  output_character dquote)
                 (pending st1) tt
                 (dquote :: flat_map json_escape (reads (Z.to_nat n) (pending st1))
                         ++ [dquote])
                 (skipn (Z.to_nat n) (pending st1))).
  { apply io_seq_output.
    eapply io_bind; [apply convert_string_loop_reads; [lia | assumption]|].
    apply io_output. }
  destruct (L st1 eq_refl) as (st2 & E & P2 & O2).
  exists st2. unfold convert_string, bind at 1. rewrite R.
  split; [exact E|]. split; [|split; [exact P2|split]].
  - rewrite O2. pose proof (read_count_stdout fuel st) as S.
    rewrite R in S. simpl in S. rewrite S. reflexivity.
  - pose proof (convert_string_loop_calls (Z.to_nat n) fuel 0%Z n
                  (snd (output_character dquote st1))) as C.
    unfold bind, output_character in E, C. cbn [snd] in C.
    destruct (convert_string_loop fuel 0%Z n _) as [[[]| |] st3] eqn:E3;
      inversion E; subst. simpl in *. apply C; lia.
  - intros bs rest Hp Hl. rewrite P2, Hp, <- Hl.
    split; [apply reads_available|].
    rewrite skipn_app, skipn_all, Nat.sub_diag. reflexivity.
Qed.

Lemma convert_string_escapes_payload_witness :
  exists st2,
    convert_string 10 (initial (bytes "5:a b" ++ [x01; x5c; xe9; dquote; "z"]))
    = (Done tt, st2) /\
    stdout st2
    = stdout (initial (bytes "5:a b" ++ [x01; x5c; xe9; dquote; "z"]))
      ++ dquote
         :: flat_map json_escape
              (reads (Z.to_nat 5)
                 (pending (snd (read_count 10
                    (initial (bytes "5:a b" ++ [x01; x5c; xe9; dquote; "z"]))))))
         ++ [dquote] /\
    pending st2
    = skipn (Z.to_nat 5)
        (pending (snd (read_count 10
           (initial (bytes "5:a b" ++ [x01; x5c; xe9; dquote; "z"]))))) /\
    length (calls st2)
    = length (calls (snd (read_count 10
        (initial (bytes "5:a b" ++ [x01; x5c; xe9; dquote; "z"])))))
      + Z.to_nat 5 /\
    forall bs rest,
      pending (snd (read_count 10
         (initial (bytes "5:a b" ++ [x01; x5c; xe9; dquote; "z"]))))
      = bs ++ rest ->
      length bs = Z.to_nat 5 ->
      reads (Z.to_nat 5)
        (pending (snd (read_count 10
           (initial (bytes "5:a b" ++ [x01; x5c; xe9; dquote; "z"])))))
      = bs /\ pending st2 = rest.
Proof.
  apply (convert_string_escapes_payload 10
           (initial (bytes "5:a b" ++ [x01; x5c; xe9; dquote; "z"])) 5%Z
           (snd (read_count 10
              (initial (bytes "5:a b" ++ [x01; x5c; xe9; dquote; "z"]))))).
  - reflexivity.
  - simpl. lia.
Defined.

(** On [5:a b] followed by the bytes 1 and 92 and three more bytes, the five
    payload bytes are escaped and the three others are left unread; a payload
    cut short by the end of the input is completed by [EOF] read as a
    [char]. *)
Example convert_string_on_binary :
  (let r := convert_string 10
              (initial (bytes "5:a b" ++ [x01; x5c; xe9; dquote; "z"])) in
   fst r = Done tt /\
   stdout (snd r) = dquote :: bytes "a b\u0001\\" ++ [dquote] /\
   pending (snd r) = [xe9; dquote; "z"]) /\
  (let r := convert_string 10 (initial (bytes "3:a")) in
   fst r = Done tt /\
   stdout (snd r) = dquote :: bytes "a\u00ff\u00ff" ++ [dquote]).
Proof. vm_compute. repeat split. Qed.

(** The escapings the claim names. *)
Example json_escape_cases :
  json_escape x01 = bytes "\u0001" /\
  json_escape xe9 = bytes "\u00e9" /\
  json_escape x7f = bytes "\u007f" /\
  json_escape dquote = ["\"; dquote] /\
  json_escape "\" = ["\"; "\"] /\
  json_escape "a" = ["a"] /\ json_escape "~" = ["~"] /\ json_escape " " = [" "].
Proof. repeat split. Qed.

(** C10: when at most 49 bytes other than the delimiter come before the
    delimiter, the writes of [read_count] into [lenBuf] (the stored bytes and
    the terminating null byte) are at the indices 0, 1, ..., [length p], each
    below the 50 cells of the array. *)
Theorem read_count_writes_in_bounds p rest fuel st :
  Forall (fun c => c <> ":") p ->
  length p <= 49 ->
  pending st = p ++ ":" :: rest ->
  length p < fuel ->
  lenBuf_writes (snd (read_count fuel st))
  = lenBuf_writes st ++ seq 0 (S (length p)) /\
  Forall (fun i => i < MAX_INT_LEN) (seq 0 (S (length p))).
Proof.
  intros Hp Hlen P Hf.
  assert (L : length p < MAX_INT_LEN) by (unfold MAX_INT_LEN; lia).
  split.
  - destruct (read_count_loop_delim p [] fuel rest st)
      as (st1 & E & P1 & O1 & W1); [assumption | exact L | assumption
                                   | assumption |].
    simpl in E, W1. unfold read_count, bind.
    change (repeat None MAX_INT_LEN) with (buffer []). rewrite E.
    cbn [fst snd]. unfold store. rewrite (update_buffer p x00 L).
    rewrite seq_S.
    destruct (atoi (buffer (p ++ [x00]))); simpl;
      rewrite W1, <- app_assoc; reflexivity.
  - apply Forall_forall. intros i Hi. apply in_seq in Hi. lia.
Qed.

Lemma read_count_writes_in_bounds_witness :
  lenBuf_writes (snd (read_count 10 (initial (bytes "12:hello world!"))))
  = lenBuf_writes (initial (bytes "12:hello world!")) ++ seq 0 (S (length (bytes "12"))) /\
  Forall (fun i => i < MAX_INT_LEN) (seq 0 (S (length (bytes "12")))).
Proof.
  apply (read_count_writes_in_bounds (bytes "12") (bytes "hello world!") 10
           (initial (bytes "12:hello world!"))).
  - repeat constructor; discriminate.
  - simpl. lia.
  - reflexivity.
  - simpl. lia.
Defined.

(** C1, as stated, fails.  On fifty digits (forty-nine zeros and a five)
    followed by [7:ab], the read loop is left by its length test after the
    fiftieth byte: the bytes [7:ab], delimiter included, are still to be read,
    and no count is returned since the terminating null byte is written at
    index 50, outside [lenBuf].  On eleven nines before the delimiter the
    decimal value does not fit the [int] that [atoi] returns. *)
Lemma read_count_discards_counterexample :
  (fst (read_count_loop 100 (repeat None MAX_INT_LEN) 0
          (initial (repeat "0" 49 ++ bytes "57:ab")))
   = Done (map Some (repeat "0" 49 ++ ["5"]), 50) /\
   pending (snd (read_count_loop 100 (repeat None MAX_INT_LEN) 0
                   (initial (repeat "0" 49 ++ bytes "57:ab"))))
   = bytes "7:ab") /\
  (fst (read_count 100 (initial (repeat "0" 49 ++ bytes "57:ab"))) = Undefined /\
   pending (snd (read_count 100 (initial (repeat "0" 49 ++ bytes "57:ab"))))
   = bytes "7:ab" /\
   lenBuf_writes (snd (read_count 100 (initial (repeat "0" 49 ++ bytes "57:ab"))))
   = seq 0 51) /\
  fst (read_count 100 (initial (bytes "99999999999:"))) <> Done 99999999999%Z.
Proof.
  split; [|split].
  - vm_compute. split; reflexivity.
  - vm_compute. repeat split; reflexivity.
  - vm_compute. discriminate.
Qed.

(** C1, amended: once fifty bytes have been read without a delimiter the read
    loop is left at once, with exactly those fifty bytes consumed and the
    bytes after them, delimiter included, still to be read; and for every
    prefix of at most 49 digits whose decimal value is at most [INT_MAX],
    followed by the delimiter, [read_count] consumes the prefix and the
    delimiter and returns the decimal value of the digits. *)
Theorem read_count_bounded_prefix :
  (forall p rest fuel st,
     Forall (fun c => c <> ":") p ->
     length p = MAX_INT_LEN ->
     MAX_INT_LEN <= fuel ->
     pending st = p ++ rest ->
     (exists st1,
        read_count_loop fuel (repeat None MAX_INT_LEN) 0 st
        = (Done (map Some p, MAX_INT_LEN), st1) /\ pending st1 = rest) /\
     pending (snd (read_count fuel st)) = rest) /\
  (forall ds rest fuel st,
     Forall (fun c => isdigit c = true) ds ->
     length ds <= 49 ->
     (digits_value ds <= INT_MAX)%Z ->
     pending st = ds ++ ":" :: rest ->
     length ds < fuel ->
     exists st', read_count fuel st = (Done (digits_value ds), st') /\
                 pending st' = rest).
Proof.
  split.
  - intros p rest fuel st Hp Hlen Hf P. split.
    + destruct (read_count_loop_full p [] fuel rest st)
        as (st1 & E & P1 & _);
        [assumption | intros ->; discriminate Hlen | simpl; lia | lia
        | assumption |].
      exists st1. split; [|exact P1].
      change (repeat None MAX_INT_LEN) with (buffer []). simpl in E.
      rewrite E. unfold buffer. rewrite Hlen, Nat.sub_diag. simpl.
      rewrite app_nil_r. reflexivity.
    + destruct (read_count_full p rest fuel st Hp Hlen Hf P)
        as (st' & E & P' & _).
      rewrite E. exact P'.
  - intros ds rest fuel st Hd Hlen Hv P Hf.
    destruct (read_count_digits ds rest fuel st) as (st' & E & P' & _);
      try assumption.
    + unfold MAX_INT_LEN. lia.
    + exists st'. auto.
Qed.

Lemma read_count_bounded_prefix_witness :
  ((exists st1,
      read_count_loop 60 (repeat None MAX_INT_LEN) 0
        (initial (repeat "1" 50 ++ bytes "23:x"))
      = (Done (map Some (repeat "1" 50), MAX_INT_LEN), st1) /\
      pending st1 = bytes "23:x") /\
   pending (snd (read_count 60 (initial (repeat "1" 50 ++ bytes "23:x"))))
   = bytes "23:x") /\
  (exists st', read_count 10 (initial (bytes "0042:rest"))
               = (Done (digits_value (bytes "0042")), st') /\
               pending st' = bytes "rest").
Proof.
  split.
  - apply (proj1 read_count_bounded_prefix (repeat "1" 50) (bytes "23:x") 60
             (initial (repeat "1" 50 ++ bytes "23:x"))).
    + repeat constructor; discriminate.
    + reflexivity.
    + unfold MAX_INT_LEN. lia.
    + reflexivity.
  - apply (proj2 read_count_bounded_prefix (bytes "0042") (bytes "rest") 10
             (initial (bytes "0042:rest"))).
    + repeat constructor.
    + simpl. lia.
    + vm_compute. discriminate.
    + reflexivity.
    + simpl. lia.
Defined.

(** At the end of the input [convert_integer] reads [EOF] for ever. *)
Lemma convert_integer_at_eof fuel : forall st,
  pending st = [] -> fst (convert_integer fuel st) = OutOfFuel.
Proof.
  induction fuel as [|fuel IH]; intros st P; [reflexivity|].
  destruct (get_character_eof st P) as (st1 & E & P1 & _).
  cbn [convert_integer]. unfold bind at 1. rewrite E, char_of_int_EOF.
  cbn [Byte.eqb]. change (Byte.eqb xff "e") with false. cbv iota.
  unfold bind, output_character. apply IH.
  unfold pending in *. simpl. exact P1.
Qed.

Lemma main_on_i fuel : fst (main fuel (initial (bytes "i"))) = OutOfFuel.
Proof.
  destruct fuel as [|fuel]; [reflexivity|].
  unfold main, bind.
  pose proof (convert_integer_at_eof fuel
                (mkState [] [] [] [Get (code "i")] []) eq_refl) as H.
  change (convert_value (S fuel) (initial (bytes "i")))
    with (convert_integer fuel (mkState [] [] [] [Get (code "i")] [])).
  destruct (convert_integer fuel (mkState [] [] [] [Get (code "i")] []))
    as [[u| |] st']; simpl in H; try discriminate H. reflexivity.
Qed.

(** C5, as stated, fails: on the input [i], an integer cut short, [main]
    never returns, whatever the fuel. *)
Lemma main_terminates_counterexample :
  ~ exists fuel r st', main fuel (initial (bytes "i")) = (Done r, st').
Proof.
  intros (fuel & r & st' & H).
  pose proof (main_on_i fuel) as F. rewrite H in F. discriminate F.
Qed.

(** C5, amended: [main] makes one call to [convert_value] and, whenever that
    call returns, returns 0 (success), whatever the input; on an input that
    starts with a well-formed value the call does return, having consumed
    exactly that value. *)
Theorem main_returns_success :
  (forall fuel st r st', main fuel st = (Done r, st') ->
     r = 0%Z /\ convert_value fuel st = (Done tt, st')) /\
  (forall v rest fuel,
     wf v = true ->
     length (bencode v) < fuel ->
     exists st', main fuel (initial (bencode v ++ rest)) = (Done 0%Z, st') /\
                 stdout st' = to_json v /\ pending st' = rest).
Proof.
  split.
  - intros fuel st r st' H. unfold main, bind, ret in H.
    destruct (convert_value fuel st) as [[[]| |] st1]; inversion H; subst.
    auto.
  - intros v rest fuel Hwf Hf.
    destruct (convert_value_io fuel v rest Hwf Hf (initial (bencode v ++ rest))
                eq_refl) as (st' & E & P' & O').
    exists st'. unfold main, bind, ret. rewrite E. auto.
Qed.

Lemma main_returns_success_witness :
  (0%Z = 0%Z /\
   convert_value 5 (initial (bytes "x:"))
   = (Done tt, snd (main 5 (initial (bytes "x:"))))) /\
  (exists st', main 10 (initial (bencode (BList [BInt 42]) ++ bytes "tail"))
               = (Done 0%Z, st') /\
               stdout st' = to_json (BList [BInt 42]) /\
               pending st' = bytes "tail").
Proof.
  split.
  - apply (proj1 main_returns_success 5 (initial (bytes "x:")) 0%Z
             (snd (main 5 (initial (bytes "x:"))))).
    reflexivity.
  - apply (proj2 main_returns_success (BList [BInt 42]) (bytes "tail") 10);
      [reflexivity | simpl; lia].
Defined.

(** C9, as stated, fails: on the input [l], a list cut short, the second
    read returns [EOF] and [convert_list] calls [unget_character] all the
    same, with the character 0xff that [EOF] was stored as.  No read had
    returned that byte. *)
Lemma pushback_passes_byte_counterexample :
  ~ unget_passes_byte_read (calls (snd (main 60 (initial (bytes "l"))))).
Proof.
  intros H.
  assert (E : exists l2, calls (snd (main 60 (initial (bytes "l"))))
                         = [Get (code "l"); Get EOF] ++ Unget xff :: l2).
  { eexists. vm_compute. reflexivity. }
  destruct E as (l2 & E). destruct (H _ _ _ E) as (l0 & E0).
  change [Get (code "l"); Get EOF] with ([Get (code "l")] ++ [Get EOF]) in E0.
  apply app_inj_tail in E0. destruct E0 as [_ E0]. discriminate E0.
Qed.

(** C9, amended: in every run of the program, on any input and also when
    the run does not end, at most one byte is held pushed back at any time;
    [unget_character] is never called twice without a read between the two
    calls; and every call to [unget_character] comes right after a call to
    [get_character] and passes what that call returned, converted to [char]:
    the byte read when a byte was read, and 0xff when the call returned [EOF]
    at the end of the input, where no byte was read. *)
Theorem pushback_discipline inp fuel :
  unget_passes_char_read (calls (snd (main fuel (initial inp)))) /\
  never_unget_twice (calls (snd (main fuel (initial inp)))) /\
  (forall l1 l2, calls (snd (main fuel (initial inp))) = l1 ++ l2 ->
                 bytes_held l1 <= 1) /\
  length (ungot (snd (main fuel (initial inp))))
  = bytes_held (calls (snd (main fuel (initial inp)))).
Proof.
  pose proof (keeps_main fuel (initial inp) (Inv_initial inp)) as H.
  assert (I : Inv (snd (main fuel (initial inp)))).
  { destruct (main fuel (initial inp)) as [[r| |] st']; exact H. }
  destruct I as [C L]. apply check_unget_follows_get in C as F.
  split; [apply follows_passes_char_read; [exact F | apply logged_main]|].
  split; [apply follows_never_twice; exact F|].
  split; [|apply counted_main].
  intros l1 l2 E.
  apply Nat.le_trans with (held l1);
    [apply bytes_held_le_held; apply Nat.le_refl|].
  eapply check_held_prefix; eassumption.
Qed.

(** At the end of the input the call is made with 0xff, nothing is pushed
    back, and the next read returns [EOF] again. *)
Example calls_on_cut_list :
  firstn 5 (calls (snd (main 60 (initial (bytes "l")))))
  = [Get (code "l"); Get EOF; Unget xff; Get EOF; Unget xff] /\
  ungot (snd (main 60 (initial (bytes "l")))) = [].
Proof. vm_compute. split; reflexivity. Qed.

Example calls_on_list :
  calls (snd (main 10 (initial (bytes "l1:ae"))))
  = [Get (code "l"); Get (code "1"); Unget "1"; Get (code "1");
     Unget "1"; Get (code "1"); Get (code ":"); Get (code "a");
     Get (code "e")].
Proof. reflexivity. Qed.

(** * The JSON decoder on the text the program writes *)

Lemma digits_run_app ds : forall acc rest,
  Forall (fun c => isdigit c = true) ds ->
  delimited rest = true ->
  digits_run (ds ++ rest) acc = (fold_left digit_step ds acc, rest).
Proof.
  induction ds as [|d ds IH]; intros acc rest Hd Hr.
  - destruct rest as [|c rest]; [reflexivity|]. simpl in *.
    apply negb_true_iff in Hr. rewrite Hr. reflexivity.
  - apply Forall_cons_iff in Hd. destruct Hd as [Hd1 Hd2].
    cbn [app digits_run fold_left]. rewrite Hd1. apply IH; assumption.
Qed.

Lemma parse_digits_decimal n rest :
  (0 <= n)%Z ->
  delimited rest = true ->
  parse_digits (decimal n ++ rest) = Some (n, rest).
Proof.
  intros Hn Hr. destruct (decimal_spec n Hn) as (D & N & V).
  destruct (decimal n) as [|d ds] eqn:E; [contradiction|].
  unfold parse_digits. cbn [app]. rewrite (Forall_inv D).
  change (d :: ds ++ rest) with ((d :: ds) ++ rest).
  rewrite (digits_run_app _ _ _ D Hr). unfold digits_value in V.
  rewrite V. reflexivity.
Qed.

Lemma parse_number_show_int n rest :
  delimited rest = true ->
  parse_number (show_int n ++ rest) = Some (n, rest).
Proof.
  intros Hr. unfold show_int. destruct (n <? 0)%Z eqn:E.
  - apply Z.ltb_lt in E. cbn [app parse_number Byte.eqb].
    change (Byte.eqb "-" "-") with true. cbv iota.
    rewrite parse_digits_decimal by (assumption || lia).
    rewrite Z.opp_involutive. reflexivity.
  - apply Z.ltb_ge in E.
    destruct (decimal_spec n E) as (D & N & _).
    destruct (decimal n) as [|d ds] eqn:Ed; [contradiction|].
    destruct (digit_not_blank d (Forall_inv D)) as (_ & S2 & _).
    cbn [app parse_number]. rewrite S2.
    change (d :: ds ++ rest) with ((d :: ds) ++ rest). rewrite <- Ed.
    apply parse_digits_decimal; assumption.
Qed.

Lemma json_escape_printable b :
  printable b = true ->
  (b = dquote \/ b = "\") /\ json_escape b = ["\"; b] \/
  (Byte.eqb b dquote = false /\ Byte.eqb b "\" = false) /\ json_escape b = [b].
Proof.
  destruct b; intros H; try discriminate H;
    first [ right; split; [split|]; reflexivity
          | left; split; [left; reflexivity | reflexivity]
          | left; split; [right; reflexivity | reflexivity] ].
Qed.

Lemma parse_string_body_escaped s : forall acc rest,
  forallb printable s = true ->
  parse_string_body (flat_map json_escape s ++ dquote :: rest) acc
  = Some (rev acc ++ s, rest).
Proof.
  induction s as [|b s IH]; intros acc rest Hs.
  - simpl. rewrite app_nil_r. reflexivity.
  - cbn [forallb] in Hs. apply andb_true_iff in Hs. destruct Hs as [Hb Hs].
    cbn [flat_map]. rewrite <- app_assoc.
    destruct (json_escape_printable b Hb) as [[Hq E]|[[N1 N2] E]]; rewrite E.
    + cbn [app parse_string_body].
      change (Byte.eqb "\" dquote) with false.
      change (Byte.eqb "\" "\") with true. cbv iota.
      replace (unescape b) with (Some b)
        by (destruct Hq as [->| ->]; reflexivity).
      rewrite IH by assumption. cbn [rev]. rewrite <- app_assoc. reflexivity.
    + cbn [app parse_string_body]. rewrite N1, N2.
      rewrite IH by assumption. cbn [rev]. rewrite <- app_assoc. reflexivity.
Qed.

Lemma parse_json_string s rest :
  forallb printable s = true ->
  parse_string_body (flat_map json_escape s ++ dquote :: rest) []
  = Some (s, rest).
Proof. intros H. apply (parse_string_body_escaped s [] rest H). Qed.

Lemma digit_not_opening d :
  isdigit d = true ->
  Byte.eqb d dquote = false /\ Byte.eqb d "[" = false /\
  Byte.eqb d "{" = false /\ Byte.eqb d "]" = false.
Proof. destruct d; intros H; try discriminate H; repeat split. Qed.

Lemma show_int_head n :
  exists c tl, show_int n = c :: tl /\ (c = "-" \/ isdigit c = true).
Proof.
  unfold show_int. destruct (n <? 0)%Z eqn:E.
  - eexists _, _. split; [reflexivity | left; reflexivity].
  - apply Z.ltb_ge in E. destruct (decimal_spec n E) as (D & N & _).
    destruct (decimal n) as [|d ds]; [contradiction|].
    exists d, ds. split; [reflexivity | right; exact (Forall_inv D)].
Qed.

Lemma to_json_head v :
  exists c tl, to_json v = c :: tl /\ Byte.eqb c "]" = false.
Proof.
  destruct v as [n|s|vs|kvs]; simpl.
  - destruct (show_int_head n) as (c & tl & E & [->|H]).
    + eexists _, _. split; [exact E | reflexivity].
    + eexists _, _. split; [exact E | apply digit_not_opening; exact H].
  - eexists _, _. split; reflexivity.
  - eexists _, _. split; reflexivity.
  - eexists _, _. split; reflexivity.
Qed.

Lemma to_json_nonempty v : 0 < length (to_json v).
Proof.
  destruct (to_json_head v) as (c & tl & E & _). rewrite E. simpl. lia.
Qed.

Lemma json_pair_nonempty kv : 0 < length (json_pair kv).
Proof. destruct kv as [k v]. simpl. lia. Qed.

Lemma length_items_in {A} (f : A -> list byte) x l : forall b,
  In x l -> length (f x) <= length (items b (map f l)).
Proof.
  induction l as [|y l IH]; intros b H; [contradiction|].
  cbn [map items]. rewrite !length_app.
  destruct H as [->|H]; [lia|]. specialize (IH true H). lia.
Qed.

Lemma length_items_count {A} (f : A -> list byte) l : forall b,
  (forall x, 0 < length (f x)) ->
  length l <= length (items b (map f l)).
Proof.
  intros b Hf. revert b. induction l as [|y l IH]; intros b; [simpl; lia|].
  cbn [map items length]. rewrite !length_app.
  specialize (Hf y). specialize (IH true). lia.
Qed.

Section JsonContainerRuns.

Variable pv : list byte -> option (json * list byte).

Lemma parse_elements_items vs : forall v fuel rest,
  Forall (decodes pv) (v :: vs) ->
  length vs < fuel ->
  parse_elements pv fuel
    (to_json v ++ items true (map to_json vs) ++ "]" :: rest)
  = Some (map json_of (v :: vs), rest).
Proof.
  induction vs as [|w vs IH]; intros v fuel rest Hd Hf;
    (destruct fuel as [|fuel]; [inversion Hf|]);
    apply Forall_cons_iff in Hd; destruct Hd as [Hv Hvs];
    cbn [parse_elements map items app].
  - rewrite Hv by reflexivity. reflexivity.
  - rewrite <- !app_assoc. cbn [app]. rewrite Hv by reflexivity.
    change (Byte.eqb "," ",") with true. cbv iota.
    rewrite IH; [reflexivity | assumption | simpl in Hf; lia].
Qed.

Lemma parse_array_items vs fuel rest :
  Forall (decodes pv) vs ->
  length vs <= fuel ->
  parse_array pv fuel (items false (map to_json vs) ++ "]" :: rest)
  = Some (map json_of vs, rest).
Proof.
  intros Hd Hf. destruct vs as [|v vs]; [reflexivity|].
  cbn [map items app]. rewrite <- app_assoc.
  destruct (to_json_head v) as (c & tl & E & Hc).
  unfold parse_array. rewrite E at 1. cbn [app]. rewrite Hc.
  apply parse_elements_items; [assumption | simpl in Hf; lia].
Qed.

Lemma parse_members_items kvs : forall kv fuel rest,
  Forall (decodes_pair pv) (kv :: kvs) ->
  length kvs < fuel ->
  parse_members pv fuel
    (json_pair kv ++ items true (map json_pair kvs) ++ "}" :: rest)
  = Some (map member_of (kv :: kvs), rest).
Proof.
  induction kvs as [|kw kvs IH]; intros [k v] fuel rest Hd Hf;
    (destruct fuel as [|fuel]; [inversion Hf|]);
    apply Forall_cons_iff in Hd; destruct Hd as [[Hk Hv] Hkvs];
    cbn [fst snd] in Hk, Hv;
    cbn [parse_members map items app json_pair member_of json_string];
    change (Byte.eqb dquote dquote) with true; cbv iota;
    rewrite <- !app_assoc; cbn [app];
    rewrite (parse_json_string k _ Hk);
    change (Byte.eqb ":" ":") with true; cbv iota.
  - rewrite Hv by reflexivity. reflexivity.
  - rewrite <- ?app_assoc. cbn [app]. rewrite Hv by reflexivity.
    change (Byte.eqb "," ",") with true. cbv iota.
    rewrite (IH kw fuel rest Hkvs) by (simpl in Hf; lia). reflexivity.
Qed.

Lemma parse_object_items kvs fuel rest :
  Forall (decodes_pair pv) kvs ->
  length kvs <= fuel ->
  parse_object pv fuel (items false (map json_pair kvs) ++ "}" :: rest)
  = Some (map member_of kvs, rest).
Proof.
  intros Hd Hf. destruct kvs as [|kv kvs]; [reflexivity|].
  cbn [map items app]. rewrite <- app_assoc.
  unfold parse_object. destruct kv as [k v].
  cbn [json_pair json_string app].
  change (Byte.eqb dquote "}") with false. cbv iota.
  apply (parse_members_items kvs (k, v)); [assumption | simpl in Hf; lia].
Qed.

End JsonContainerRuns.

(** Induction on a value, with the property at hand for the values inside a
    list or a dictionary. *)
Lemma bvalue_nested_ind (P : bvalue -> Prop) :
  (forall n, P (BInt n)) ->
  (forall s, P (BStr s)) ->
  (forall vs, Forall P vs -> P (BList vs)) ->
  (forall kvs, Forall (fun kv => P (snd kv)) kvs -> P (BDict kvs)) ->
  forall v, P v.
Proof.
  intros HI HS HL HD.
  assert (H : forall n v, length (bencode v) <= n -> P v).
  { induction n as [|n IH]; intros v Hn.
    - pose proof (bencode_nonempty v). lia.
    - destruct v as [z|s|vs|kvs]; [apply HI | apply HS | apply HL | apply HD].
      + apply Forall_forall. intros v Hin. apply IH.
        pose proof (length_concat_in bencode v vs Hin). cbn [bencode length] in Hn.
        rewrite length_app in Hn. lia.
      + apply Forall_forall. intros [k v] Hin. cbn [snd]. apply IH.
        pose proof (length_concat_in bencode_pair (k, v) kvs Hin) as L.
        rewrite bencode_BDict in Hn. cbn [length] in Hn.
        rewrite length_app in Hn. cbn [bencode_pair] in L.
        rewrite length_app in L. lia. }
  intros v. apply (H (length (bencode v))). lia.
Qed.

Lemma canonical_BList vs :
  canonical (BList vs) = true -> Forall (fun v => canonical v = true) vs.
Proof. simpl. intros H. apply Forall_forall. apply forallb_forall. exact H. Qed.

Lemma canonical_BDict kvs :
  canonical (BDict kvs) = true ->
  ascending (map fst kvs) = true /\
  Forall (fun kv => text (fst kv) = true /\ canonical (snd kv) = true) kvs.
Proof.
  cbn [canonical]. intros H. apply andb_true_iff in H. destruct H as [Ha H].
  split; [exact Ha|]. apply Forall_forall. intros [k v] Hin.
  rewrite forallb_forall in H. specialize (H _ Hin).
  apply andb_true_iff in H. exact H.
Qed.

Lemma text_short s : text s = true -> short s = true.
Proof. unfold text. intros H. apply andb_true_iff in H. apply H. Qed.

Lemma text_printable s : text s = true -> forallb printable s = true.
Proof. unfold text. intros H. apply andb_true_iff in H. apply H. Qed.

Lemma canonical_wf v : canonical v = true -> wf v = true.
Proof.
  induction v as [n|s|vs IH|kvs IH] using bvalue_nested_ind; intros H.
  - reflexivity.
  - apply text_short. exact H.
  - apply canonical_BList in H. cbn [wf]. apply forallb_forall.
    rewrite Forall_forall in *. auto.
  - apply canonical_BDict in H. destruct H as [_ H]. cbn [wf].
    apply forallb_forall. intros [k v] Hin. rewrite Forall_forall in *.
    destruct (H _ Hin) as [Hk Hv]. cbn [fst snd] in *.
    apply andb_true_iff. split; [apply text_short; exact Hk|].
    apply (IH _ Hin). exact Hv.
Qed.

(** The decoder reads back the text written for a canonical value. *)
Lemma parse_value_to_json fuel : forall v rest,
  canonical v = true ->
  delimited rest = true ->
  length (to_json v) < fuel ->
  parse_value fuel (to_json v ++ rest) = Some (json_of v, rest).
Proof.
  induction fuel as [|fuel IH]; intros v rest Hc Hr Hf; [inversion Hf|].
  destruct v as [n|s|vs|kvs].
  - cbn [to_json json_of].
    destruct (show_int_head n) as (c & tl & E & Hd).
    assert (N : Byte.eqb c dquote = false /\ Byte.eqb c "[" = false /\
                Byte.eqb c "{" = false).
    { destruct Hd as [->|Hd]; [repeat split|].
      destruct (digit_not_opening c Hd) as (A & B & C & _). auto. }
    destruct N as (N1 & N2 & N3).
    cbn [parse_value]. rewrite E at 1. cbn [app]. rewrite N1, N2, N3.
    rewrite parse_number_show_int by assumption. reflexivity.
  - cbn [to_json json_of json_string parse_value app canonical] in *.
    change (Byte.eqb dquote dquote) with true. cbv iota.
    rewrite <- app_assoc. cbn [app].
    rewrite parse_json_string by (apply text_printable; assumption).
    reflexivity.
  - cbn [to_json json_of parse_value app]. cbn [to_json length] in Hf.
    rewrite length_app in Hf. cbn [length] in Hf.
    change (Byte.eqb "[" dquote) with false. change (Byte.eqb "[" "[") with true.
    cbv iota. rewrite <- app_assoc. cbn [app].
    rewrite parse_array_items; [reflexivity | |].
    + apply canonical_BList in Hc. rewrite Forall_forall in *.
      intros v Hin rest' Hr'. apply IH; [auto | assumption |].
      pose proof (length_items_in to_json v vs false Hin). lia.
    + pose proof (length_items_count to_json vs false to_json_nonempty). lia.
  - rewrite to_json_BDict. rewrite to_json_BDict in Hf.
    cbn [json_of parse_value app]. cbn [length] in Hf.
    rewrite length_app in Hf. cbn [length] in Hf.
    change (Byte.eqb "{" dquote) with false. change (Byte.eqb "{" "[") with false.
    change (Byte.eqb "{" "{") with true.
    cbv iota. rewrite <- app_assoc. cbn [app].
    rewrite parse_object_items; [reflexivity | |].
    + apply canonical_BDict in Hc. destruct Hc as [_ Hc].
      rewrite Forall_forall in *. intros [k v] Hin.
      destruct (Hc _ Hin) as [Hk Hv]. cbn [fst snd] in *.
      split; [apply text_printable; exact Hk|]. cbn [snd].
      intros rest' Hr'. apply IH; [assumption | assumption |].
      pose proof (length_items_in json_pair (k, v) kvs false Hin) as L.
      cbn [json_pair] in L. rewrite length_app in L. cbn [length] in L. lia.
    + pose proof (length_items_count json_pair kvs false json_pair_nonempty).
      lia.
Qed.

Lemma json_decode_to_json v :
  canonical v = true -> json_decode (to_json v) = Some (json_of v).
Proof.
  intros H. unfold json_decode.
  rewrite <- (app_nil_r (to_json v)) at 2.
  rewrite parse_value_to_json; [reflexivity | assumption | reflexivity | lia].
Qed.

(** Members already in ascending key order are left in place. *)
Lemma sort_members_ascending l :
  ascending (map fst l) = true -> sort_members l = l.
Proof.
  induction l as [|x l IH]; intros H; [reflexivity|].
  cbn [sort_members fold_right]. fold (sort_members l).
  destruct l as [|y l]; [reflexivity|].
  cbn [map ascending] in H.
  apply andb_true_iff in H. destruct H as [H Ha].
  apply andb_true_iff in H. destruct H as [Hle _].
  rewrite IH by exact Ha. cbn [insert_member]. rewrite Hle. reflexivity.
Qed.

(** The encoder writes a canonical value back as it was. *)
Lemma bencode_of_json_of v :
  canonical v = true -> bencode_of_json (json_of v) = bencode v.
Proof.
  induction v as [n|s|vs IH|kvs IH] using bvalue_nested_ind; intros H.
  - reflexivity.
  - reflexivity.
  - apply canonical_BList in H. cbn [json_of bencode_of_json bencode].
    rewrite map_map. do 3 f_equal. apply map_ext_in.
    intros v Hin. rewrite Forall_forall in *. auto.
  - apply canonical_BDict in H. destruct H as [Ha H].
    rewrite bencode_BDict. cbn [json_of bencode_of_json].
    rewrite map_map.
    assert (E : map (fun x => let '(k, j') := let '(k, v') := x in (k, json_of v')
                              in (k, bencode_of_json j')) kvs
                = map (fun kv => (fst kv, bencode (snd kv))) kvs).
    { apply map_ext_in. intros [k v] Hin. rewrite Forall_forall in *.
      cbn [fst snd]. f_equal. apply (IH _ Hin). apply (H _ Hin). }
    rewrite E. rewrite sort_members_ascending.
    + rewrite map_map. do 3 f_equal. apply map_ext. intros [k v]. reflexivity.
    + rewrite map_map. cbn [fst]. exact Ha.
Qed.

(** C8: for every well-formed bencode value whose strings hold only printable
    ASCII bytes (and whose dictionary keys are in ascending order, as bencode
    asks), the program writes a text that the JSON decoder reads as a value
    which the reference encoder writes back as the original input. *)
Theorem round_trip_printable v fuel :
  canonical v = true ->
  length (bencode v) < fuel ->
  exists st' j,
    main fuel (initial (bencode v)) = (Done 0%Z, st') /\
    json_decode (stdout st') = Some j /\
    bencode_of_json j = bencode v.
Proof.
  intros Hc Hf.
  destruct (convert_value_io fuel v [] (canonical_wf v Hc) Hf
              (initial (bencode v ++ [])) eq_refl) as (st' & E & _ & O').
  rewrite app_nil_r in E. simpl in O'.
  exists st', (json_of v). unfold main, bind, ret. rewrite E, O'.
  split; [reflexivity|].
  split; [apply json_decode_to_json | apply bencode_of_json_of]; assumption.
Qed.

Lemma round_trip_printable_witness :
  exists st' j,
    main 40 (initial (bencode (BDict [(bytes "a b", BList [BInt (-7); BStr (bytes "x\y")]);
                                      (bytes "cow", BStr (bytes "moo"))])))
    = (Done 0%Z, st') /\
    json_decode (stdout st') = Some j /\
    bencode_of_json j
    = bencode (BDict [(bytes "a b", BList [BInt (-7); BStr (bytes "x\y")]);
                      (bytes "cow", BStr (bytes "moo"))]).
Proof.
  apply (round_trip_printable
           (BDict [(bytes "a b", BList [BInt (-7); BStr (bytes "x\y")]);
                   (bytes "cow", BStr (bytes "moo"))]) 40).
  - reflexivity.
  - vm_compute. lia.
Defined.

(** * Further properties of the program *)

(** ** Reads at any point of the input, its end included *)

Lemma get_character_any st :
  exists st1,
    get_character st = (Done (next_int (pending st)), st1) /\
    pending st1 = tl (pending st) /\ stdout st1 = stdout st /\
    lenBuf_writes st1 = lenBuf_writes st /\
    calls st1 = calls st ++ [Get (next_int (pending st))].
Proof.
  destruct (pending st) as [|c inp] eqn:P.
  - destruct (get_character_eof st P) as (st1 & E & P1 & O1 & W1 & C1).
    exists st1. simpl. auto.
  - destruct (get_character_run st c inp P) as (st1 & E & P1 & O1 & W1 & C1).
    exists st1. simpl. auto.
Qed.

Lemma reads_S n inp :
  reads (S n) inp = char_of_int (next_int inp) :: reads n (tl inp).
Proof.
  destruct inp as [|c inp]; unfold reads; simpl.
  - rewrite Nat.sub_0_r. destruct n; reflexivity.
  - rewrite char_of_int_code. reflexivity.
Qed.

Lemma skipn_S_tl {A} n (l : list A) : skipn (S n) l = skipn n (tl l).
Proof. destruct l; [destruct n|]; reflexivity. Qed.

Lemma length_reads n inp : length (reads n inp) = n.
Proof.
  revert inp. induction n as [|n IH]; intros inp; [reflexivity|].
  rewrite reads_S. simpl. rewrite IH. reflexivity.
Qed.

(** ** read_count on any input *)

(** One turn of the loop, whatever comes next, when it is not the
    delimiter. *)
Lemma read_count_loop_turn pre fuel st :
  char_of_int (next_int (pending st)) <> ":" ->
  length pre < MAX_INT_LEN ->
  exists st1,
    pending st1 = tl (pending st) /\ stdout st1 = stdout st /\
    lenBuf_writes st1 = lenBuf_writes st ++ [length pre] /\
    calls st1 = calls st ++ [Get (next_int (pending st))] /\
    read_count_loop (S fuel) (buffer pre) (length pre) st
    = if MAX_INT_LEN <=? S (length pre)
      then (Done (buffer (pre ++ [char_of_int (next_int (pending st))]),
                  S (length pre)), st1)
      else read_count_loop fuel
             (buffer (pre ++ [char_of_int (next_int (pending st))]))
             (S (length pre)) st1.
Proof.
  intros Hc Hlen.
  destruct (get_character_any st) as (st0 & E & P0 & O0 & W0 & C0).
  eexists (mkState (stdin st0) (ungot st0) (stdout st0) (calls st0)
                   (lenBuf_writes st0 ++ [length pre])).
  split; [exact P0|]. split; [exact O0|].
  split; [simpl; rewrite W0; reflexivity|]. split; [exact C0|].
  cbn [read_count_loop]. unfold bind at 1. rewrite E.
  rewrite (eqb_neq_byte _ _ Hc).
  unfold bind, store. cbn [Nat.sub]. rewrite Nat.sub_0_r.
  rewrite (update_buffer _ _ Hlen).
  destruct (MAX_INT_LEN <=? S (length pre)); reflexivity.
Qed.

(** The loop fills the buffer when no delimiter comes among the characters
    that fit in it. *)
Lemma read_count_loop_fills n : forall pre fuel st,
  0 < n ->
  length pre + n = MAX_INT_LEN ->
  n <= fuel ->
  Forall (fun c => c <> ":") (reads n (pending st)) ->
  exists st',
    read_count_loop fuel (buffer pre) (length pre) st
    = (Done (buffer (pre ++ reads n (pending st)), MAX_INT_LEN), st') /\
    pending st' = skipn n (pending st) /\ stdout st' = stdout st /\
    lenBuf_writes st' = lenBuf_writes st ++ seq (length pre) n /\
    length (calls st') = length (calls st) + n.
Proof.
  induction n as [|n IH]; intros pre fuel st Hn Hlen Hf Hp; [inversion Hn|].
  destruct fuel as [|fuel]; [inversion Hf|].
  rewrite reads_S in Hp. apply Forall_cons_iff in Hp. destruct Hp as [Hc Hp].
  destruct (read_count_loop_turn pre fuel st Hc)
    as (st1 & P1 & O1 & W1 & C1 & E); [lia|].
  rewrite E, reads_S, skipn_S_tl.
  destruct (MAX_INT_LEN <=? S (length pre)) eqn:L.
  - apply Nat.leb_le in L. assert (n = 0) by lia. subst n.
    exists st1. replace (S (length pre)) with MAX_INT_LEN by lia.
    unfold reads. simpl. rewrite W1, C1, length_app. simpl.
    repeat split; auto.
  - apply Nat.leb_gt in L. rewrite <- P1 in Hp.
    destruct (IH (pre ++ [char_of_int (next_int (pending st))]) fuel st1)
      as (st' & E' & P' & O' & W' & C');
      [lia | rewrite length_app; simpl; lia | lia | exact Hp |].
    rewrite length_app in E', W'. simpl in E', W'.
    rewrite Nat.add_1_r in E', W'. rewrite <- app_assoc in E'. simpl in E'.
    exists st'. rewrite E', P1. split; [reflexivity|].
    rewrite <- P1. split; [exact P'|]. split; [congruence|].
    split.
    + rewrite W', W1, <- app_assoc. reflexivity.
    + rewrite C', C1, length_app. simpl. lia.
Qed.

(** The run of [read_count] when the buffer fills up before a delimiter. *)
Lemma read_count_fills_buffer fuel st :
  Forall (fun c => c <> ":") (reads MAX_INT_LEN (pending st)) ->
  MAX_INT_LEN <= fuel ->
  exists st',
    read_count fuel st = (Undefined, st') /\
    lenBuf_writes st' = lenBuf_writes st ++ seq 0 MAX_INT_LEN ++ [MAX_INT_LEN] /\
    pending st' = skipn MAX_INT_LEN (pending st) /\
    length (calls st') = length (calls st) + MAX_INT_LEN /\
    stdout st' = stdout st.
Proof.
  intros Hp Hf.
  destruct (read_count_loop_fills MAX_INT_LEN [] fuel st)
    as (st1 & E & P1 & O1 & W1 & C1);
    [unfold MAX_INT_LEN; lia | reflexivity | assumption | assumption |].
  cbn [app length] in E, W1. unfold read_count, bind.
  change (repeat None MAX_INT_LEN) with (buffer []). rewrite E.
  cbn [fst snd]. unfold store.
  pose proof (update_buffer_full (reads MAX_INT_LEN (pending st)) x00
                (length_reads _ _)) as U.
  rewrite length_reads in U. rewrite U.
  eexists. split; [reflexivity|]. cbn [pending stdout lenBuf_writes calls].
  split; [rewrite W1, <- app_assoc; reflexivity|].
  split; [exact P1|]. split; [exact C1 | exact O1].
Qed.

(** X1: when none of the fifty characters that [read_count] reads first
    (bytes of the input, then [EOF] as a [char] once the input is exhausted)
    is the delimiter, the loop stops after exactly fifty reads and the
    terminating null byte is written at index 50, one past the last cell of
    [lenBuf]: the write is out of bounds. *)
Theorem read_count_overflows fuel st :
  Forall (fun c => c <> ":") (reads MAX_INT_LEN (pending st)) ->
  MAX_INT_LEN <= fuel ->
  exists st',
    read_count fuel st = (Undefined, st') /\
    lenBuf_writes st' = lenBuf_writes st ++ seq 0 MAX_INT_LEN ++ [MAX_INT_LEN] /\
    length (repeat (@None byte) MAX_INT_LEN) = MAX_INT_LEN /\
    pending st' = skipn MAX_INT_LEN (pending st) /\
    length (calls st') = length (calls st) + MAX_INT_LEN /\
    stdout st' = stdout st.
Proof.
  intros Hp Hf.
  destruct (read_count_fills_buffer fuel st Hp Hf) as (st' & E & W & P & C & O).
  exists st'. split; [exact E|]. split; [exact W|].
  split; [apply repeat_length|]. auto.
Qed.

Lemma read_count_overflows_witness :
  exists st',
    read_count 50 (initial (bytes "12345")) = (Undefined, st') /\
    lenBuf_writes st'
    = lenBuf_writes (initial (bytes "12345")) ++ seq 0 MAX_INT_LEN ++ [MAX_INT_LEN] /\
    length (repeat (@None byte) MAX_INT_LEN) = MAX_INT_LEN /\
    pending st' = skipn MAX_INT_LEN (pending (initial (bytes "12345"))) /\
    length (calls st') = length (calls (initial (bytes "12345"))) + MAX_INT_LEN /\
    stdout st' = stdout (initial (bytes "12345")).
Proof.
  apply (read_count_overflows 50 (initial (bytes "12345"))).
  - vm_compute. repeat constructor; discriminate.
  - unfold MAX_INT_LEN. lia.
Defined.

(** The read loop always ends within fifty turns. *)
Lemma read_count_loop_ends n : forall pre fuel st,
  length pre + n = MAX_INT_LEN ->
  0 < n -> n <= fuel ->
  exists p st',
    read_count_loop fuel (buffer pre) (length pre) st = (Done p, st') /\
    length (calls st') <= length (calls st) + n.
Proof.
  induction n as [|n IH]; intros pre fuel st Hlen Hn Hf; [inversion Hn|].
  destruct fuel as [|fuel]; [inversion Hf|].
  destruct (Byte.eqb (char_of_int (next_int (pending st))) ":") eqn:D.
  - destruct (get_character_any st) as (st0 & E & _ & _ & _ & C0).
    cbn [read_count_loop]. unfold bind. rewrite E, D.
    eexists _, st0. split; [reflexivity|].
    rewrite C0, length_app. simpl. lia.
  - apply eqb_false in D.
    destruct (read_count_loop_turn pre fuel st D)
      as (st1 & _ & _ & _ & C1 & E); [lia|].
    rewrite E. destruct (MAX_INT_LEN <=? S (length pre)) eqn:L.
    + eexists _, st1. split; [reflexivity|].
      rewrite C1, length_app. simpl. lia.
    + apply Nat.leb_gt in L.
      destruct (IH (pre ++ [char_of_int (next_int (pending st))]) fuel st1)
        as (p & st' & E' & C');
        [rewrite length_app; simpl; lia | lia | lia |].
      rewrite length_app in E'. simpl in E'. rewrite Nat.add_1_r in E'.
      exists p, st'. split; [exact E'|].
      rewrite C1, length_app in C'. simpl in C'. lia.
Qed.

(** X2: whatever the input, and also at its end, [read_count] comes to an end
    within fifty turns of its loop: with fuel for fifty turns it never runs
    out of fuel, and it calls [get_character] at most fifty times. *)
Theorem read_count_ends_within_buffer fuel st :
  MAX_INT_LEN <= fuel ->
  fst (read_count fuel st) <> OutOfFuel /\
  length (calls (snd (read_count fuel st))) <= length (calls st) + MAX_INT_LEN.
Proof.
  intros Hf.
  destruct (read_count_loop_ends MAX_INT_LEN [] fuel st)
    as (p & st1 & E & C); [reflexivity | unfold MAX_INT_LEN; lia | assumption |].
  unfold read_count, bind. change (repeat None MAX_INT_LEN) with (buffer []).
  cbn [length] in E. rewrite E. unfold store.
  destruct (update (fst p) (snd p) x00) as [buf|]; cbn [fst snd calls];
    [|split; [discriminate | exact C]].
  destruct (atoi buf); cbn [fst snd calls]; (split; [discriminate | exact C]).
Qed.

Lemma read_count_ends_within_buffer_witness :
  fst (read_count 50 (initial [])) <> OutOfFuel /\
  length (calls (snd (read_count 50 (initial []))))
  <= length (calls (initial [])) + MAX_INT_LEN.
Proof.
  apply (read_count_ends_within_buffer 50 (initial [])).
  unfold MAX_INT_LEN. lia.
Defined.

(** X3: when no [e] is left in the input, [convert_integer] never returns:
    whatever the fuel, it is used up, by copying what is left of the input
    and then writing the byte 255 ([EOF] as a [char]) at each turn. *)
Theorem convert_integer_without_e fuel : forall st,
  Forall (fun c => c <> "e") (pending st) ->
  exists st',
    convert_integer fuel st = (OutOfFuel, st') /\
    stdout st' = stdout st ++ reads fuel (pending st) /\
    pending st' = skipn fuel (pending st).
Proof.
  induction fuel as [|fuel IH]; intros st Hp.
  - exists st. unfold reads. simpl. rewrite app_nil_r. auto.
  - destruct (get_character_any st) as (st1 & E & P1 & O1 & _).
    assert (Hc : char_of_int (next_int (pending st)) <> "e").
    { destruct (pending st) as [|c inp]; [discriminate|].
      simpl. rewrite char_of_int_code. exact (Forall_inv Hp). }
    assert (Ht : Forall (fun c => c <> "e") (tl (pending st))).
    { destruct (pending st); [constructor | exact (Forall_inv_tail Hp)]. }
    cbn [convert_integer]. unfold bind at 1. rewrite E.
    rewrite (eqb_neq_byte _ _ Hc). unfold bind, output_character.
    match goal with |- context [convert_integer fuel ?s] => set (s2 := s) end.
    assert (Ps : pending s2 = tl (pending st)) by (rewrite <- P1; reflexivity).
    assert (Os : stdout s2
                 = stdout st ++ [char_of_int (next_int (pending st))])
      by (simpl; rewrite O1; reflexivity).
    destruct (IH s2) as (st' & E' & O' & P'); [rewrite Ps; exact Ht|].
    exists st'. rewrite E'. split; [reflexivity|].
    rewrite reads_S, skipn_S_tl, O', P', Os, Ps, <- app_assoc. auto.
Qed.

Lemma convert_integer_without_e_witness :
  exists st',
    convert_integer 5 (initial (bytes "42")) = (OutOfFuel, st') /\
    stdout st' = stdout (initial (bytes "42"))
                 ++ reads 5 (pending (initial (bytes "42"))) /\
    pending st' = skipn 5 (pending (initial (bytes "42"))).
Proof.
  apply (convert_integer_without_e 5 (initial (bytes "42"))).
  repeat constructor; discriminate.
Defined.

(** ** Length prefixes that are not a plain number *)

Lemma atoi_skip_leading ds c0 tail :
  Forall (fun c => isdigit c = true) ds ->
  isdigit c0 = false ->
  (ds = [] -> isspace c0 = false /\ c0 <> "-" /\ c0 <> "+") ->
  atoi_skip (map Some ds ++ Some c0 :: tail) = Some (digits_value ds).
Proof.
  intros Hd H0 Hs. destruct ds as [|d ds].
  - destruct (Hs eq_refl) as (S1 & S2 & S3).
    cbn [map app atoi_skip atoi_digits].
    rewrite S1, (eqb_neq_byte _ _ S2), (eqb_neq_byte _ _ S3), H0. reflexivity.
  - pose proof (Forall_inv Hd) as Hd1. simpl in Hd1.
    destruct (digit_not_blank d Hd1) as (S1 & S2 & S3).
    cbn [map app atoi_skip]. rewrite S1, S2, S3.
    apply (atoi_digits_run (d :: ds)); assumption.
Qed.

Lemma buffer_split ds c0 t :
  buffer (ds ++ c0 :: t)
  = map Some ds ++ Some c0
      :: (map Some t ++ repeat None (MAX_INT_LEN - length (ds ++ c0 :: t))).
Proof. unfold buffer. rewrite map_app, <- app_assoc. reflexivity. Qed.

(** X4: the count is the value of the digits the prefix starts with; what
    follows them before the delimiter is ignored, and a prefix that starts
    with no digit (an empty one too) counts as 0.  Here the prefix is [ds]
    followed by [junk], and [junk] is empty or starts with a byte that is no
    digit (nor, when there are no digits, white space or a sign). *)
Theorem read_count_leading_digits ds junk rest fuel st :
  Forall (fun c => isdigit c = true) ds ->
  Forall (fun c => c <> ":") junk ->
  isdigit (hd x00 junk) = false ->
  (ds = [] -> isspace (hd x00 junk) = false /\
              hd x00 junk <> "-" /\ hd x00 junk <> "+") ->
  length ds + length junk <= 49 ->
  (digits_value ds <= INT_MAX)%Z ->
  pending st = ds ++ junk ++ ":" :: rest ->
  length ds + length junk < fuel ->
  exists st', read_count fuel st = (Done (digits_value ds), st') /\
              pending st' = rest /\ stdout st' = stdout st.
Proof.
  intros Hd Hj Hg Hs Hlen Hv P Hf.
  assert (L : length (ds ++ junk) < MAX_INT_LEN)
    by (rewrite length_app; unfold MAX_INT_LEN; lia).
  destruct (read_count_loop_delim (ds ++ junk) [] fuel rest st)
    as (st1 & E & P1 & O1 & _).
  { apply Forall_app. split; [|exact Hj].
    apply digits_no; [reflexivity | exact Hd]. }
  { exact L. }
  { rewrite length_app. lia. }
  { rewrite <- app_assoc. exact P. }
  simpl in E. unfold read_count, bind.
  change (repeat None MAX_INT_LEN) with (buffer []). rewrite E.
  cbn [fst snd]. unfold store. rewrite (update_buffer _ x00 L).
  assert (A : atoi (buffer ((ds ++ junk) ++ [x00])) = Some (digits_value ds)).
  { rewrite <- app_assoc. unfold atoi.
    destruct junk as [|g junk]; cbn [app hd] in *;
      rewrite buffer_split, atoi_skip_leading by assumption;
      pose proof (digits_value_nonneg ds Hd) as Hn;
      (replace ((INT_MIN <=? digits_value ds)%Z && (digits_value ds <=? INT_MAX)%Z)
         with true; [reflexivity|]);
      symmetry; apply andb_true_iff; unfold INT_MIN; lia. }
  rewrite A. unfold ret, size_t_of_int.
  pose proof (digits_value_nonneg ds Hd) as Hn.
  rewrite Z.mod_small by (unfold INT_MAX in Hv; lia).
  eexists. split; [reflexivity|]. simpl. auto.
Qed.

Lemma read_count_leading_digits_witness :
  (exists st', read_count 10 (initial (bytes "12ab:xyz"))
               = (Done (digits_value (bytes "12")), st') /\
               pending st' = bytes "xyz" /\
               stdout st' = stdout (initial (bytes "12ab:xyz"))) /\
  (exists st', read_count 10 (initial (bytes "x:yz"))
               = (Done (digits_value []), st') /\
               pending st' = bytes "yz" /\
               stdout st' = stdout (initial (bytes "x:yz"))).
Proof.
  split.
  - apply (read_count_leading_digits (bytes "12") (bytes "ab") (bytes "xyz") 10
             (initial (bytes "12ab:xyz"))).
    + repeat constructor.
    + repeat constructor; discriminate.
    + reflexivity.
    + discriminate.
    + simpl. lia.
    + vm_compute. discriminate.
    + reflexivity.
    + simpl. lia.
  - apply (read_count_leading_digits [] (bytes "x") (bytes "yz") 10
             (initial (bytes "x:yz"))).
    + constructor.
    + repeat constructor; discriminate.
    + reflexivity.
    + intros _. repeat split; discriminate.
    + simpl. lia.
    + vm_compute. discriminate.
    + reflexivity.
    + simpl. lia.
Defined.

(** The payload loop uses up any fuel below the number of bytes it still has
    to read. *)
Lemma convert_string_loop_long fuel : forall i count st,
  (i + Z.of_nat fuel <= count)%Z ->
  fst (convert_string_loop fuel i count st) = OutOfFuel.
Proof.
  induction fuel as [|fuel IH]; intros i count st H; [reflexivity|].
  cbn [convert_string_loop].
  replace (i <? count)%Z with true by (symmetry; apply Z.ltb_lt; lia).
  destruct (get_character_calls st) as (r & st1 & E1 & _).
  destruct (convert_string_char_calls (char_of_int r) st1) as (st2 & E2 & _).
  unfold bind. rewrite E1, E2. apply IH. lia.
Qed.

(** X5: a length prefix with a minus sign, [-v], comes back from
    [read_count] as the count [2^64 - v] (the [int] that [atoi] returns,
    converted to [size_t]); the payload loop of [convert_string] then has
    that many bytes to read, and uses up any fuel below it. *)
Theorem read_count_negative_prefix ds rest fuel st :
  Forall (fun c => isdigit c = true) ds ->
  length ds <= 48 ->
  (1 <= digits_value ds <= 2147483648)%Z ->
  pending st = "-" :: ds ++ ":" :: rest ->
  S (length ds) < fuel ->
  exists st',
    read_count fuel st = (Done (2 ^ 64 - digits_value ds)%Z, st') /\
    pending st' = rest /\
    ((Z.of_nat fuel <= 2 ^ 64 - digits_value ds)%Z ->
     fst (convert_string fuel st) = OutOfFuel).
Proof.
  intros Hd Hlen Hv P Hf.
  assert (L : length ("-" :: ds) < MAX_INT_LEN)
    by (simpl; unfold MAX_INT_LEN; lia).
  destruct (read_count_loop_delim ("-" :: ds) [] fuel rest st)
    as (st1 & E & P1 & O1 & _).
  { constructor; [discriminate|].
    apply digits_no; [reflexivity | exact Hd]. }
  { exact L. }
  { simpl. lia. }
  { exact P. }
  cbn [app length Nat.add] in E.
  assert (A : atoi (buffer (("-" :: ds) ++ [x00])) = Some (- digits_value ds)%Z).
  { unfold atoi. cbn [app]. unfold buffer. cbn [map app atoi_skip].
    change (isspace "-") with false. change (Byte.eqb "-" "-") with true.
    cbv iota. rewrite map_app, <- app_assoc. cbn [map app].
    rewrite atoi_digits_run by (assumption || reflexivity).
    cbn [option_map]. fold (digits_value ds).
    replace ((INT_MIN <=? - digits_value ds)%Z && (- digits_value ds <=? INT_MAX)%Z)
      with true; [reflexivity|].
    symmetry. apply andb_true_iff. unfold INT_MIN, INT_MAX. lia. }
  assert (V : size_t_of_int (- digits_value ds) = (2 ^ 64 - digits_value ds)%Z).
  { unfold size_t_of_int.
    replace (- digits_value ds)%Z
      with ((2 ^ 64 - digits_value ds) + (-1) * 2 ^ 64)%Z by lia.
    rewrite Z.mod_add by lia. apply Z.mod_small. lia. }
  assert (R : read_count fuel st
              = (Done (2 ^ 64 - digits_value ds)%Z,
                 mkState (stdin st1) (ungot st1) (stdout st1) (calls st1)
                         (lenBuf_writes st1 ++ [S (length ds)]))).
  { unfold read_count, bind.
    change (repeat None MAX_INT_LEN) with (buffer []). rewrite E.
    cbn [fst snd]. unfold store.
    pose proof (update_buffer ("-" :: ds) x00 L) as U. cbn [length] in U.
    rewrite U, A. unfold ret. rewrite V. reflexivity. }
  eexists. split; [exact R|]. split; [exact P1|].
  intros Hbig. unfold convert_string, bind at 1. rewrite R.
  unfold bind at 1, output_character.
  unfold bind.
  match goal with |- context [convert_string_loop fuel 0%Z ?c ?s] =>
    pose proof (convert_string_loop_long fuel 0%Z c s) as Lg;
    destruct (convert_string_loop fuel 0%Z c s) as [[[]| |] s3]
  end; [| reflexivity |];
    (assert (Hle : (0 + Z.of_nat fuel <= 2 ^ 64 - digits_value ds)%Z) by lia;
     specialize (Lg Hle); discriminate Lg).
Qed.

Lemma read_count_negative_prefix_witness :
  exists st',
    read_count 10 (initial (bytes "-1:abc"))
    = (Done (2 ^ 64 - digits_value (bytes "1"))%Z, st') /\
    pending st' = bytes "abc" /\
    ((Z.of_nat 10 <= 2 ^ 64 - digits_value (bytes "1"))%Z ->
     fst (convert_string 10 (initial (bytes "-1:abc"))) = OutOfFuel).
Proof.
  apply (read_count_negative_prefix (bytes "1") (bytes "abc") 10
           (initial (bytes "-1:abc"))).
  - repeat constructor.
  - simpl. lia.
  - vm_compute. split; discriminate.
  - reflexivity.
  - simpl. lia.
Defined.

(** ** Nothing is left pushed back when a converter returns *)

Lemma Inv_held st : Inv st -> length (ungot st) <= 1.
Proof.
  intros [C H]. rewrite H.
  apply (check_held (calls st) None 0); [exact C | lia | congruence].
Qed.

Lemma keeps_post {A} P (m : M A) (Q Q' : A -> state -> Prop) :
  (forall a st, Q a st -> Q' a st) -> keeps P m Q -> keeps P m Q'.
Proof.
  intros HQ H st HP. specialize (H st HP).
  destruct (m st) as [[a| |] st']; auto.
Qed.

Lemma keeps_get_clean : keeps Inv get_character GotClean.
Proof.
  intros st H. pose proof (keeps_get st H) as G.
  pose proof (Inv_held st H) as L. unfold get_character in *.
  destruct (ungot st) as [|c u]; [destruct (stdin st) as [|c rest]|];
    (split; [exact G|]); simpl in *; try reflexivity.
  destruct u; [reflexivity | simpl in L; lia].
Qed.

Lemma Clean_Inv st : Clean st -> Inv st.
Proof. intros [H _]. exact H. Qed.

Lemma GotClean_Clean r st : GotClean r st -> Clean st.
Proof. intros [[H _] U]. split; assumption. Qed.

Lemma GotClean_JustGot r st : GotClean r st -> JustGot r st.
Proof. intros [H _]. exact H. Qed.

Lemma keeps_output_clean c : keeps Clean (output_character c) (fun _ => Clean).
Proof. intros st H. exact H. Qed.

Lemma keeps_store_clean buf i c : keeps Clean (store buf i c) (fun _ => Clean).
Proof.
  intros st H. unfold store.
  destruct (update buf i c); [exact H | exact (Clean_Inv _ H)].
Qed.

Ltac keeps_clean :=
  lazymatch goal with
  | |- keeps _ (if ?b then _ else _) _ => destruct b
  | |- keeps (GotClean ?r) (bind (unget_character _) _) _ =>
      apply (keeps_pre (JustGot r)); [apply GotClean_JustGot|];
      eapply keeps_bind; [apply keeps_unget | intros ?u; cbv beta]
  | |- keeps (GotClean _) _ _ =>
      apply (keeps_pre Clean); [apply GotClean_Clean|]
  | |- keeps _ (bind get_character _) _ =>
      eapply keeps_bind;
      [first [apply keeps_get_clean
             | apply (keeps_pre Inv); [apply Clean_Inv | apply keeps_get_clean]]
      | intros ?r; cbv beta zeta]
  | |- keeps Clean (bind (output_character _) _) _ =>
      eapply keeps_bind; [apply keeps_output_clean | intros ?u; cbv beta]
  | |- keeps Inv (bind (output_character _) _) _ =>
      eapply keeps_bind; [apply keeps_output | intros ?u; cbv beta]
  | |- keeps Clean (bind (store _ _ _) _) _ =>
      eapply keeps_bind; [apply keeps_store_clean | intros ?buf; cbv beta]
  | |- keeps Clean (output_character _) _ => apply keeps_output_clean
  | |- keeps Clean (ret _) _ => apply keeps_ret; auto
  | |- keeps Clean out_of_fuel _ =>
      apply (keeps_pre Inv); [apply Clean_Inv | apply keeps_out_of_fuel]
  | |- keeps Inv out_of_fuel _ => apply keeps_out_of_fuel
  | |- keeps Clean undefined _ =>
      apply (keeps_pre Inv); [apply Clean_Inv | apply keeps_undefined]
  end.

Lemma clean_convert_integer fuel :
  keeps Inv (convert_integer fuel) (fun _ => Clean).
Proof.
  induction fuel as [|fuel IH]; cbn [convert_integer]; repeat keeps_clean.
  apply (keeps_pre Inv); [apply Clean_Inv|]. exact IH.
Qed.

Lemma clean_read_count_loop fuel : forall buf len,
  keeps Inv (read_count_loop fuel buf len) (fun _ => Clean).
Proof.
  induction fuel as [|fuel IH]; intros buf len; cbn [read_count_loop];
    repeat keeps_clean.
  apply (keeps_pre Inv); [apply Clean_Inv|]. apply IH.
Qed.

Lemma clean_read_count fuel : keeps Inv (read_count fuel) (fun _ => Clean).
Proof.
  unfold read_count.
  eapply keeps_bind; [apply clean_read_count_loop | intros p; cbv beta].
  keeps_clean. destruct (atoi buf); keeps_clean.
Qed.

Lemma clean_convert_string_char c :
  keeps Clean (convert_string_char c) (fun _ => Clean).
Proof. unfold convert_string_char. repeat keeps_clean. Qed.

Lemma clean_convert_string_loop fuel : forall i count,
  keeps Clean (convert_string_loop fuel i count) (fun _ => Clean).
Proof.
  induction fuel as [|fuel IH]; intros i count; cbn [convert_string_loop];
    repeat keeps_clean.
  eapply keeps_bind; [apply clean_convert_string_char | intros ?u; cbv beta].
  apply IH.
Qed.

Lemma clean_convert_string fuel :
  keeps Inv (convert_string fuel) (fun _ => Clean).
Proof.
  unfold convert_string.
  eapply keeps_bind; [apply clean_read_count | intros count; cbv beta].
  keeps_clean.
  eapply keeps_bind; [apply clean_convert_string_loop | intros ?u; cbv beta].
  keeps_clean.
Qed.

Lemma clean_convert_list cv fuel :
  keeps Inv cv (fun _ => Clean) ->
  keeps Inv (convert_list cv fuel) (fun _ => Clean).
Proof.
  intros Hcv. unfold convert_list. keeps_clean.
  apply (keeps_bind _ _ (fun _ => Clean)); [|intros ?u; keeps_clean].
  generalize false. induction fuel as [|fuel IH]; intros output;
    cbn [convert_list_loop]; [keeps_clean|].
  keeps_clean. keeps_clean; [keeps_clean; keeps_clean|].
  keeps_clean.
  apply (keeps_bind _ _ (fun _ => Inv));
    [destruct output; [apply keeps_output | apply keeps_ret; auto]|intros ?u].
  eapply keeps_bind; [apply Hcv | intros ?u; cbv beta].
  apply (keeps_pre Inv); [apply Clean_Inv|]. apply IH.
Qed.

Lemma clean_convert_dictionary cv fuel :
  keeps Inv cv (fun _ => Clean) ->
  keeps Inv (convert_dictionary cv fuel) (fun _ => Clean).
Proof.
  intros Hcv. unfold convert_dictionary. keeps_clean.
  apply (keeps_bind _ _ (fun _ => Clean)); [|intros ?u; keeps_clean].
  generalize false. induction fuel as [|fuel IH]; intros output;
    cbn [convert_dictionary_loop]; [keeps_clean|].
  keeps_clean. keeps_clean; [keeps_clean; keeps_clean|].
  keeps_clean.
  apply (keeps_bind _ _ (fun _ => Inv));
    [destruct output; [apply keeps_output | apply keeps_ret; auto]|intros ?u].
  eapply keeps_bind; [apply Hcv | intros ?u; cbv beta].
  keeps_clean.
  apply (keeps_pre Inv); [apply Clean_Inv|].
  eapply keeps_bind; [apply Hcv | intros ?u; cbv beta].
  apply (keeps_pre Inv); [apply Clean_Inv|]. apply IH.
Qed.

Lemma clean_convert_value fuel :
  keeps Inv (convert_value fuel) (fun _ => Clean).
Proof.
  induction fuel as [|fuel IH]; cbn [convert_value]; [keeps_clean|].
  keeps_clean.
  destruct (Byte.eqb (char_of_int r) "i").
  { apply (keeps_pre Inv); [intros st H; apply H|]. apply clean_convert_integer. }
  destruct (Byte.eqb (char_of_int r) "l").
  { apply (keeps_pre Inv); [intros st H; apply H|].
    apply clean_convert_list. exact IH. }
  destruct (Byte.eqb (char_of_int r) "d").
  { apply (keeps_pre Inv); [intros st H; apply H|].
    apply clean_convert_dictionary. exact IH. }
  keeps_clean. apply clean_convert_string.
Qed.

(** X6: whenever [convert_value] returns, from a state that observes the
    pushback discipline (the initial state does), no byte is left pushed
    back: each byte unread has been read again.  So the input stream stands
    exactly after the bytes consumed. *)
Theorem convert_value_leaves_no_pushback fuel st st' :
  Inv st ->
  convert_value fuel st = (Done tt, st') ->
  ungot st' = [] /\ pending st' = stdin st'.
Proof.
  intros HI E. pose proof (clean_convert_value fuel st HI) as H.
  rewrite E in H. destruct H as [_ U]. split; [exact U|].
  unfold pending. rewrite U. reflexivity.
Qed.

Lemma convert_value_leaves_no_pushback_witness :
  ungot (snd (convert_value 10 (initial (bytes "l1:aei7e")))) = [] /\
  pending (snd (convert_value 10 (initial (bytes "l1:aei7e"))))
  = stdin (snd (convert_value 10 (initial (bytes "l1:aei7e")))).
Proof.
  apply (convert_value_leaves_no_pushback 10 (initial (bytes "l1:aei7e"))
           (snd (convert_value 10 (initial (bytes "l1:aei7e"))))).
  - split; reflexivity.
  - vm_compute. reflexivity.
Defined.

(** ** The writes into lenBuf over a whole run *)

Lemma holds_bind I {A B} P (m : M A) Q (k : A -> M B) R :
  holds I P m Q -> (forall a, holds I (Q a) (k a) R) -> holds I P (bind m k) R.
Proof.
  intros Hm Hk st HP. specialize (Hm st HP). unfold bind.
  destruct (m st) as [[a| |] st1]; try exact Hm.
  apply Hk. exact Hm.
Qed.

Lemma silent_holds {A} (m : M A) :
  silent m -> holds Bounded Bounded m (fun _ => Bounded).
Proof.
  intros Hs st HB. specialize (Hs st). unfold Bounded in *.
  destruct (m st) as [[a| |] st']; simpl in Hs; rewrite Hs; exact HB.
Qed.

Lemma silent_bind {A B} (m : M A) (k : A -> M B) :
  silent m -> (forall a, silent (k a)) -> silent (bind m k).
Proof.
  intros Hm Hk st. specialize (Hm st). unfold bind.
  destruct (m st) as [[a| |] st1]; simpl in Hm; try exact Hm.
  rewrite Hk. exact Hm.
Qed.

Lemma silent_get : silent get_character.
Proof.
  intros st. unfold get_character.
  destruct (ungot st); [destruct (stdin st)|]; reflexivity.
Qed.

Lemma silent_unget c : silent (unget_character c).
Proof. intros st. reflexivity. Qed.

Lemma silent_output c : silent (output_character c).
Proof. intros st. reflexivity. Qed.

Lemma silent_ret {A} (a : A) : silent (ret a).
Proof. intros st. reflexivity. Qed.

Lemma silent_out_of_fuel {A} : silent (@out_of_fuel A).
Proof. intros st. reflexivity. Qed.

Ltac silence :=
  repeat first
    [ apply silent_bind; [|intros ?]
    | apply silent_get | apply silent_unget | apply silent_output
    | apply silent_ret | apply silent_out_of_fuel
    | match goal with |- silent (if ?b then _ else _) => destruct b end ].

Lemma silent_convert_integer fuel : silent (convert_integer fuel).
Proof.
  induction fuel as [|fuel IH]; cbn [convert_integer]; silence. exact IH.
Qed.

Lemma silent_convert_string_char c : silent (convert_string_char c).
Proof. unfold convert_string_char. silence. Qed.

Lemma silent_convert_string_loop fuel : forall i count,
  silent (convert_string_loop fuel i count).
Proof.
  induction fuel as [|fuel IH]; intros i count; cbn [convert_string_loop];
    silence; [apply silent_convert_string_char | apply IH].
Qed.

Lemma bounded_store buf i c :
  i <= MAX_INT_LEN -> holds Bounded Bounded (store buf i c) (fun _ => Bounded).
Proof.
  intros Hi st HB. unfold store, Bounded in *.
  destruct (update buf i c); simpl; apply Forall_app; split; auto.
Qed.

Lemma bounded_read_count_loop fuel : forall buf len,
  len < MAX_INT_LEN ->
  holds Bounded Bounded (read_count_loop fuel buf len)
        (fun p st => Bounded st /\ snd p <= MAX_INT_LEN).
Proof.
  induction fuel as [|fuel IH]; intros buf len Hlen; cbn [read_count_loop].
  - intros st H. exact H.
  - eapply holds_bind; [apply silent_holds, silent_get | intros r; cbv beta zeta].
    destruct (Byte.eqb (char_of_int r) ":").
    + intros st H. simpl. split; [exact H | lia].
    + eapply holds_bind; [apply bounded_store; lia | intros buf'; cbv beta].
      destruct (MAX_INT_LEN <=? S len) eqn:L.
      * apply Nat.leb_le in L. intros st H. simpl. split; [exact H | lia].
      * apply Nat.leb_gt in L. apply IH. exact L.
Qed.

Lemma bounded_read_count fuel :
  holds Bounded Bounded (read_count fuel) (fun _ => Bounded).
Proof.
  unfold read_count.
  eapply holds_bind;
    [apply bounded_read_count_loop; unfold MAX_INT_LEN; lia | intros p].
  intros st [HB Hp]. revert st HB.
  change (holds Bounded Bounded
            (lenBuf <- store (fst p) (snd p) x00 ;;
             match atoi lenBuf with
             | Some v => ret (size_t_of_int v)
             | None => undefined
             end) (fun _ => Bounded)).
  eapply holds_bind; [apply bounded_store; exact Hp | intros buf; cbv beta].
  destruct (atoi buf); intros st H; exact H.
Qed.

Lemma bounded_convert_string fuel :
  holds Bounded Bounded (convert_string fuel) (fun _ => Bounded).
Proof.
  unfold convert_string.
  eapply holds_bind; [apply bounded_read_count | intros count; cbv beta].
  apply silent_holds. silence. apply silent_convert_string_loop.
Qed.

Lemma bounded_convert_list cv fuel :
  holds Bounded Bounded cv (fun _ => Bounded) ->
  holds Bounded Bounded (convert_list cv fuel) (fun _ => Bounded).
Proof.
  intros Hcv. unfold convert_list.
  eapply holds_bind; [apply silent_holds, silent_output | intros ?u; cbv beta].
  apply (holds_bind _ _ _ (fun _ => Bounded));
    [|intros ?u; apply silent_holds, silent_output].
  generalize false. induction fuel as [|fuel IH]; intros output;
    cbn [convert_list_loop]; [intros st H; exact H|].
  eapply holds_bind; [apply silent_holds, silent_get | intros r; cbv beta zeta].
  destruct (Byte.eqb (char_of_int r) "e"); [intros st H; exact H|].
  eapply holds_bind; [apply silent_holds, silent_unget | intros ?u; cbv beta].
  apply (holds_bind _ _ _ (fun _ => Bounded));
    [apply silent_holds; silence | intros ?u].
  eapply holds_bind; [apply Hcv | intros ?u; cbv beta]. apply IH.
Qed.

Lemma bounded_convert_dictionary cv fuel :
  holds Bounded Bounded cv (fun _ => Bounded) ->
  holds Bounded Bounded (convert_dictionary cv fuel) (fun _ => Bounded).
Proof.
  intros Hcv. unfold convert_dictionary.
  eapply holds_bind; [apply silent_holds, silent_output | intros ?u; cbv beta].
  apply (holds_bind _ _ _ (fun _ => Bounded));
    [|intros ?u; apply silent_holds, silent_output].
  generalize false. induction fuel as [|fuel IH]; intros output;
    cbn [convert_dictionary_loop]; [intros st H; exact H|].
  eapply holds_bind; [apply silent_holds, silent_get | intros r; cbv beta zeta].
  destruct (Byte.eqb (char_of_int r) "e"); [intros st H; exact H|].
  eapply holds_bind; [apply silent_holds, silent_unget | intros ?u; cbv beta].
  apply (holds_bind _ _ _ (fun _ => Bounded));
    [apply silent_holds; silence | intros ?u].
  eapply holds_bind; [apply Hcv | intros ?u; cbv beta].
  eapply holds_bind; [apply silent_holds, silent_output | intros ?u; cbv beta].
  eapply holds_bind; [apply Hcv | intros ?u; cbv beta]. apply IH.
Qed.

Lemma bounded_convert_value fuel :
  holds Bounded Bounded (convert_value fuel) (fun _ => Bounded).
Proof.
  induction fuel as [|fuel IH]; cbn [convert_value]; [intros st H; exact H|].
  eapply holds_bind; [apply silent_holds, silent_get | intros r; cbv beta zeta].
  destruct (Byte.eqb (char_of_int r) "i");
    [apply silent_holds, silent_convert_integer|].
  destruct (Byte.eqb (char_of_int r) "l");
    [apply bounded_convert_list; exact IH|].
  destruct (Byte.eqb (char_of_int r) "d");
    [apply bounded_convert_dictionary; exact IH|].
  eapply holds_bind; [apply silent_holds, silent_unget | intros ?u; cbv beta].
  apply bounded_convert_string.
Qed.

(** X7: in every run of the program, on any input, every index written in
    [lenBuf] is at most 50: the write one cell past the array ([lenBuf] has
    the cells 0 to 49) is the farthest the program goes. *)
Theorem lenBuf_writes_at_most_one_past inp fuel :
  Forall (fun i => i <= MAX_INT_LEN)
         (lenBuf_writes (snd (main fuel (initial inp)))).
Proof.
  assert (H : holds Bounded Bounded (main fuel) (fun _ => Bounded)).
  { unfold main.
    eapply holds_bind; [apply bounded_convert_value | intros ?u; cbv beta].
    intros st H. exact H. }
  specialize (H (initial inp) (Forall_nil _)).
  destruct (main fuel (initial inp)) as [[r| |] st']; exact H.
Qed.

(** ** The bytes written for a well-formed value *)

Lemma json_escape_all_printable b : forallb printable (json_escape b) = true.
Proof. destruct b; reflexivity. Qed.

Lemma forallb_flat_map {A} (p : byte -> bool) (f : A -> list byte) l :
  (forall x, forallb p (f x) = true) -> forallb p (flat_map f l) = true.
Proof.
  intros H. induction l as [|x l IH]; [reflexivity|].
  cbn [flat_map]. rewrite forallb_app, H, IH. reflexivity.
Qed.

Lemma json_string_printable s : forallb printable (json_string s) = true.
Proof.
  unfold json_string. cbn [forallb]. rewrite forallb_app.
  rewrite (forallb_flat_map printable json_escape s json_escape_all_printable).
  reflexivity.
Qed.

Lemma digit_printable c : isdigit c = true -> printable c = true.
Proof.
  intros H. apply isdigit_code in H. unfold printable, in_range.
  apply andb_true_iff. split; [apply Z.leb_le | apply Z.leb_le]; lia.
Qed.

Lemma show_int_printable n : forallb printable (show_int n) = true.
Proof.
  assert (D : forall m, (0 <= m)%Z -> forallb printable (decimal m) = true).
  { intros m Hm. apply forallb_forall. intros c Hc.
    destruct (decimal_spec m Hm) as (F & _ & _).
    rewrite Forall_forall in F. apply digit_printable. auto. }
  unfold show_int. destruct (n <? 0)%Z eqn:E.
  - apply Z.ltb_lt in E. cbn [forallb]. rewrite D by lia. reflexivity.
  - apply Z.ltb_ge in E. apply D. exact E.
Qed.

Lemma items_printable l : forall b,
  Forall (fun x => forallb printable x = true) l ->
  forallb printable (items b l) = true.
Proof.
  induction l as [|x l IH]; intros b H; [reflexivity|].
  apply Forall_cons_iff in H. destruct H as [Hx Hl].
  cbn [items]. rewrite !forallb_app, Hx, (IH true Hl).
  destruct b; reflexivity.
Qed.

Lemma to_json_printable v : forallb printable (to_json v) = true.
Proof.
  induction v as [n|s|vs IH|kvs IH] using bvalue_nested_ind.
  - apply show_int_printable.
  - apply json_string_printable.
  - cbn [to_json forallb]. rewrite forallb_app, items_printable; [reflexivity|].
    apply Forall_map. exact IH.
  - rewrite to_json_BDict. cbn [forallb].
    rewrite forallb_app, items_printable; [reflexivity|].
    apply Forall_map. eapply Forall_impl; [|exact IH].
    intros [k v] H. cbn [snd json_pair] in *.
    rewrite forallb_app, json_string_printable. cbn [forallb]. exact H.
Qed.

(** X8: on a well-formed value, whatever bytes its strings hold, every byte
    the program writes is printable ASCII (codes 32 to 126): the bytes
    outside that range are written as [\u00XX] escapes. *)
Theorem output_is_printable_ascii v rest fuel :
  wf v = true ->
  length (bencode v) < fuel ->
  exists st', main fuel (initial (bencode v ++ rest)) = (Done 0%Z, st') /\
              forallb printable (stdout st') = true.
Proof.
  intros Hwf Hf.
  destruct (convert_value_io fuel v rest Hwf Hf (initial (bencode v ++ rest))
              eq_refl) as (st' & E & _ & O').
  exists st'. unfold main, bind, ret. rewrite E. split; [reflexivity|].
  rewrite O'. apply to_json_printable.
Qed.

Lemma output_is_printable_ascii_witness :
  exists st',
    main 20 (initial (bencode (BList [BStr [x00; xff; x0a]; BInt (-3)]) ++ []))
    = (Done 0%Z, st') /\
    forallb printable (stdout st') = true.
Proof.
  apply (output_is_printable_ascii (BList [BStr [x00; xff; x0a]; BInt (-3)]) [] 20).
  - reflexivity.
  - vm_compute. lia.
Defined.

(** ** Reading the written text back, byte for byte *)

Lemma read_payload_escape b rest acc :
  read_payload (json_escape b ++ rest) acc = read_payload rest (b :: acc).
Proof. destruct b; reflexivity. Qed.

Lemma read_payload_string s : forall acc rest,
  read_payload (flat_map json_escape s ++ dquote :: rest) acc
  = Some (rev acc ++ s, rest).
Proof.
  induction s as [|b s IH]; intros acc rest.
  - simpl. rewrite app_nil_r. reflexivity.
  - cbn [flat_map]. rewrite <- app_assoc, read_payload_escape, IH.
    cbn [rev]. rewrite <- app_assoc. reflexivity.
Qed.

Section ReadContainerRuns.

Variable pv : list byte -> option (json * list byte).

Lemma read_members_items kvs : forall kv fuel rest,
  Forall (fun kv => decodes pv (snd kv)) (kv :: kvs) ->
  length kvs < fuel ->
  read_members pv fuel
    (json_pair kv ++ items true (map json_pair kvs) ++ "}" :: rest)
  = Some (map member_of (kv :: kvs), rest).
Proof.
  induction kvs as [|kw kvs IH]; intros [k v] fuel rest Hd Hf;
    (destruct fuel as [|fuel]; [inversion Hf|]);
    apply Forall_cons_iff in Hd; destruct Hd as [Hv Hkvs];
    cbn [snd] in Hv;
    cbn [read_members map items app json_pair member_of json_string];
    change (Byte.eqb dquote dquote) with true; cbv iota;
    rewrite <- !app_assoc; cbn [app];
    rewrite (read_payload_string k [] _); cbn [rev app];
    change (Byte.eqb ":" ":") with true; cbv iota.
  - rewrite Hv by reflexivity. reflexivity.
  - rewrite <- ?app_assoc. cbn [app]. rewrite Hv by reflexivity.
    change (Byte.eqb "," ",") with true. cbv iota.
    rewrite (IH kw fuel rest Hkvs) by (simpl in Hf; lia). reflexivity.
Qed.

Lemma read_object_items kvs fuel rest :
  Forall (fun kv => decodes pv (snd kv)) kvs ->
  length kvs <= fuel ->
  read_object pv fuel (items false (map json_pair kvs) ++ "}" :: rest)
  = Some (map member_of kvs, rest).
Proof.
  intros Hd Hf. destruct kvs as [|kv kvs]; [reflexivity|].
  cbn [map items app]. rewrite <- app_assoc.
  unfold read_object. destruct kv as [k v].
  cbn [json_pair json_string app].
  change (Byte.eqb dquote "}") with false. cbv iota.
  apply (read_members_items kvs (k, v)); [assumption | simpl in Hf; lia].
Qed.

End ReadContainerRuns.

(** The reader gives back the value of any text the program writes. *)
Lemma read_value_to_json fuel : forall v rest,
  delimited rest = true ->
  length (to_json v) < fuel ->
  read_value fuel (to_json v ++ rest) = Some (json_of v, rest).
Proof.
  induction fuel as [|fuel IH]; intros v rest Hr Hf; [inversion Hf|].
  destruct v as [n|s|vs|kvs].
  - cbn [to_json json_of].
    destruct (show_int_head n) as (c & tl & E & Hd).
    assert (N : Byte.eqb c dquote = false /\ Byte.eqb c "[" = false /\
                Byte.eqb c "{" = false).
    { destruct Hd as [->|Hd]; [repeat split|].
      destruct (digit_not_opening c Hd) as (A & B & C & _). auto. }
    destruct N as (N1 & N2 & N3).
    cbn [read_value]. rewrite E at 1. cbn [app]. rewrite N1, N2, N3.
    rewrite parse_number_show_int by assumption. reflexivity.
  - cbn [to_json json_of json_string read_value app].
    change (Byte.eqb dquote dquote) with true. cbv iota.
    rewrite <- app_assoc. cbn [app].
    rewrite (read_payload_string s [] rest). reflexivity.
  - cbn [to_json json_of read_value app]. cbn [to_json length] in Hf.
    rewrite length_app in Hf. cbn [length] in Hf.
    change (Byte.eqb "[" dquote) with false. change (Byte.eqb "[" "[") with true.
    cbv iota. rewrite <- app_assoc. cbn [app].
    rewrite parse_array_items; [reflexivity | |].
    + apply Forall_forall. intros v Hin rest' Hr'. apply IH; [assumption|].
      pose proof (length_items_in to_json v vs false Hin). lia.
    + pose proof (length_items_count to_json vs false to_json_nonempty). lia.
  - rewrite to_json_BDict. rewrite to_json_BDict in Hf.
    cbn [json_of read_value app]. cbn [length] in Hf.
    rewrite length_app in Hf. cbn [length] in Hf.
    change (Byte.eqb "{" dquote) with false. change (Byte.eqb "{" "[") with false.
    change (Byte.eqb "{" "{") with true.
    cbv iota. rewrite <- app_assoc. cbn [app].
    rewrite read_object_items; [reflexivity | |].
    + apply Forall_forall. intros [k v] Hin. cbn [snd].
      intros rest' Hr'. apply IH; [assumption|].
      pose proof (length_items_in json_pair (k, v) kvs false Hin) as L.
      cbn [json_pair] in L. rewrite length_app in L. cbn [length] in L. lia.
    + pose proof (length_items_count json_pair kvs false json_pair_nonempty).
      lia.
Qed.

Lemma bvalue_of_json_of v : bvalue_of (json_of v) = v.
Proof.
  induction v as [n|s|vs IH|kvs IH] using bvalue_nested_ind;
    try reflexivity; cbn [json_of bvalue_of]; rewrite map_map; f_equal.
  - rewrite <- (map_id vs) at 2. apply map_ext_in.
    rewrite Forall_forall in IH. exact IH.
  - rewrite <- (map_id kvs) at 2. apply map_ext_in.
    rewrite Forall_forall in IH. intros [k v] Hin. f_equal.
    exact (IH _ Hin).
Qed.

Lemma to_json_injective v1 v2 : to_json v1 = to_json v2 -> v1 = v2.
Proof.
  intros H.
  pose proof (read_value_to_json (S (length (to_json v1))) v1 [] eq_refl
                (Nat.lt_succ_diag_r _)) as R1.
  pose proof (read_value_to_json (S (length (to_json v1))) v2 [] eq_refl) as R2.
  rewrite H in R1 at 2. rewrite H in R2 at 1.
  specialize (R2 (Nat.lt_succ_diag_r _)). rewrite R1 in R2.
  inversion R2 as [J].
  rewrite <- (bvalue_of_json_of v1), <- (bvalue_of_json_of v2), J. reflexivity.
Qed.

(** X9: the program loses nothing of a well-formed input: two well-formed
    values for which it writes the same text are the same value, so two
    different inputs never give the same output. *)
Theorem transcoding_is_injective v1 v2 fuel :
  wf v1 = true -> wf v2 = true ->
  length (bencode v1) < fuel -> length (bencode v2) < fuel ->
  stdout (snd (main fuel (initial (bencode v1))))
  = stdout (snd (main fuel (initial (bencode v2)))) ->
  v1 = v2 /\ bencode v1 = bencode v2.
Proof.
  intros W1 W2 F1 F2 H.
  destruct (convert_value_io fuel v1 [] W1 F1 (initial (bencode v1 ++ []))
              eq_refl) as (s1 & E1 & _ & O1).
  destruct (convert_value_io fuel v2 [] W2 F2 (initial (bencode v2 ++ []))
              eq_refl) as (s2 & E2 & _ & O2).
  rewrite app_nil_r in E1, E2. unfold main, bind, ret in H.
  rewrite E1, E2 in H. simpl in H, O1, O2. rewrite O1, O2 in H.
  apply to_json_injective in H. subst v2. auto.
Qed.

Lemma transcoding_is_injective_witness :
  BList [BStr [x01]; BInt 5] = BList [BStr [x01]; BInt 5] /\
  bencode (BList [BStr [x01]; BInt 5]) = bencode (BList [BStr [x01]; BInt 5]).
Proof.
  apply (transcoding_is_injective (BList [BStr [x01]; BInt 5])
           (BList [BStr [x01]; BInt 5]) 20).
  - reflexivity.
  - reflexivity.
  - vm_compute. lia.
  - vm_compute. lia.
  - reflexivity.
Defined.

(** The byte 1 and the six characters of its escape are written
    differently. *)
Example escape_is_not_ambiguous :
  to_json (BStr [x01]) = dquote :: bytes "\u0001" ++ [dquote] /\
  to_json (BStr (bytes "\u0001")) = dquote :: bytes "\\u0001" ++ [dquote].
Proof. split; reflexivity. Qed.

(** ** Dictionaries whose keys are not strings *)

Lemma convert_dictionary_loop_entries cv kvs : forall fuel output rest,
  Forall (fun kv => converts cv (fst kv) /\ converts cv (snd kv)) kvs ->
  length kvs < fuel ->
  io (convert_dictionary_loop cv fuel output)
     (concat (map bencode_entry kvs) ++ "e" :: rest) tt
     (items output (map json_entry kvs)) rest.
Proof.
  induction kvs as [|[k v] kvs IH]; intros fuel output rest Hc Hf;
    (destruct fuel as [|fuel]; [inversion Hf|]);
    cbn [convert_dictionary_loop].
  - cbn [map concat app items]. apply io_get_char.
    rewrite char_of_int_code. simpl. apply io_ret.
  - apply Forall_cons_iff in Hc. destruct Hc as [[Hk Hv] Hkvs].
    cbn [fst snd] in Hk, Hv.
    cbn [map concat items length] in *. unfold bencode_entry at 1.
    unfold json_entry at 1. cbn [fst snd]. rewrite <- !app_assoc.
    destruct (bencode_head k) as (c & tl & E & Hne & Hx).
    rewrite E at 1. cbn [app]. apply io_get_char.
    rewrite char_of_int_code, (eqb_neq_byte _ _ Hne).
    eapply io_silent; [apply io_unget; exact Hx|].
    change (c :: tl ++ ?r) with ((c :: tl) ++ r). rewrite <- E.
    eapply io_bind; [apply io_comma|].
    eapply io_bind; [apply (Hk _)|].
    cbn [app]. apply io_seq_output.
    eapply io_bind; [apply Hv|].
    apply IH; [assumption | lia].
Qed.

Lemma bencode_entry_nonempty kv : 0 < length (bencode_entry kv).
Proof.
  unfold bencode_entry. rewrite length_app.
  pose proof (bencode_nonempty (fst kv)). lia.
Qed.

(** X10: [convert_dictionary] does not check that a key is a string: any
    well-formed value in key position is converted as it stands and followed
    by a colon, so that [di1ei2ee] gives [{1:2}]. *)
Theorem convert_dictionary_any_key kvs rest fuel st :
  forallb (fun kv => wf (fst kv) && wf (snd kv)) kvs = true ->
  pending st = concat (map bencode_entry kvs) ++ "e" :: rest ->
  length (concat (map bencode_entry kvs)) < fuel ->
  exists st', convert_dictionary (convert_value fuel) fuel st = (Done tt, st') /\
              stdout st' = stdout st ++ "{" :: items false (map json_entry kvs)
                                     ++ ["}"] /\
              pending st' = rest.
Proof.
  intros Hwf P Hf.
  assert (Hc : Forall (fun kv => converts (convert_value fuel) (fst kv) /\
                                 converts (convert_value fuel) (snd kv)) kvs).
  { apply Forall_forall. intros [k v] Hin.
    rewrite forallb_forall in Hwf. specialize (Hwf _ Hin).
    apply andb_true_iff in Hwf. destruct Hwf as [Wk Wv]. cbn [fst snd] in *.
    pose proof (length_concat_in bencode_entry (k, v) kvs Hin) as L.
    unfold bencode_entry at 1 in L. cbn [fst snd] in L.
    rewrite length_app in L.
    split; intros rest'; apply convert_value_io; try assumption; lia. }
  assert (Hn : length kvs < fuel).
  { pose proof (length_concat_count bencode_entry kvs bencode_entry_nonempty).
    lia. }
  assert (L : io (convert_dictionary (convert_value fuel) fuel)
                 (concat (map bencode_entry kvs) ++ "e" :: rest) tt
                 ("{" :: items false (map json_entry kvs) ++ ["}"]) rest).
  { unfold convert_dictionary. apply io_seq_output.
    eapply io_bind; [apply convert_dictionary_loop_entries; assumption|].
    apply io_output. }
  destruct (L st P) as (st' & E & P' & O').
  exists st'. auto.
Qed.

Lemma convert_dictionary_any_key_witness :
  exists st',
    convert_dictionary (convert_value 10) 10
      (mkState (bytes "i1ei2ee") [] [] [] [])
    = (Done tt, st') /\
    stdout st' = [] ++ "{" :: items false (map json_entry [(BInt 1, BInt 2)])
                    ++ ["}"] /\
    pending st' = [].
Proof.
  apply (convert_dictionary_any_key [(BInt 1, BInt 2)] [] 10
           (mkState (bytes "i1ei2ee") [] [] [] [])).
  - reflexivity.
  - reflexivity.
  - vm_compute. lia.
Defined.

Example run_integer_key :
  run 10 (bytes "di1ei2ee") = (Done 0%Z, bytes "{1:2}").
Proof. reflexivity. Qed.

(** ** A list or a dictionary cut short by the end of the input *)

Lemma fails_bind_first {A B} (m : M A) (k : A -> M B) inp :
  fails m inp -> fails (bind m k) inp.
Proof.
  intros H st P. specialize (H st P). unfold bind.
  destruct (m st) as [[a| |] st1]; simpl in H; try discriminate H.
  reflexivity.
Qed.

Lemma fails_bind_then {A B} (m : M A) (k : A -> M B) inp a out inp1 :
  io m inp a out inp1 -> fails (k a) inp1 -> fails (bind m k) inp.
Proof.
  intros Hm Hk st P. destruct (Hm st P) as (st1 & E & P1 & _).
  unfold bind. rewrite E. apply Hk. exact P1.
Qed.

Lemma read_count_fails fuel inp :
  Forall (fun c => c <> ":") (reads MAX_INT_LEN inp) ->
  MAX_INT_LEN <= fuel ->
  fails (read_count fuel) inp.
Proof.
  intros Hp Hf st P. rewrite <- P in Hp.
  destruct (read_count_fills_buffer fuel st Hp Hf) as (st' & E & _).
  rewrite E. reflexivity.
Qed.

(** At the end of the input a converter reads [EOF], which as a [char] is no
    tag and is not pushed back; the string converter then reads [EOF] until
    [lenBuf] is full. *)
Lemma convert_value_fails_at_end fuel :
  MAX_INT_LEN < fuel ->
  fails (convert_value fuel) [].
Proof.
  intros Hf. destruct fuel as [|fuel]; [inversion Hf|].
  assert (R : fails (unget_character xff ;; convert_string fuel) []).
  { eapply fails_bind_then; [apply io_unget_lost|].
    unfold convert_string. apply fails_bind_first.
    apply read_count_fails; [|lia].
    vm_compute. repeat constructor; discriminate. }
  cbn [convert_value].
  eapply fails_bind_then; [apply io_get_eof|]. exact R.
Qed.

Lemma convert_list_loop_cut_short cv vs : forall fuel output,
  Forall (converts cv) vs ->
  fails cv [] ->
  length vs < fuel ->
  fails (convert_list_loop cv fuel output) (concat (map bencode vs)).
Proof.
  induction vs as [|v vs IH]; intros fuel output Hc Hend Hf;
    (destruct fuel as [|fuel]; [inversion Hf|]); cbn [convert_list_loop].
  - cbn [map concat]. eapply fails_bind_then; [apply io_get_eof|].
    rewrite char_of_int_EOF. cbn [Byte.eqb].
    change (Byte.eqb xff "e") with false. cbv iota.
    eapply fails_bind_then; [apply io_unget_lost|].
    eapply fails_bind_then; [apply io_comma|].
    apply fails_bind_first. exact Hend.
  - apply Forall_cons_iff in Hc. destruct Hc as [Hv Hvs].
    cbn [map concat length] in *.
    destruct (bencode_head v) as (c & tl & E & Hne & Hx).
    rewrite E at 1. cbn [app].
    eapply fails_bind_then; [apply io_get|].
    rewrite char_of_int_code, (eqb_neq_byte _ _ Hne).
    eapply fails_bind_then; [apply io_unget; exact Hx|].
    change (c :: tl ++ ?r) with ((c :: tl) ++ r). rewrite <- E.
    eapply fails_bind_then; [apply io_comma|].
    eapply fails_bind_then; [apply Hv|].
    apply IH; [assumption | assumption | lia].
Qed.

Lemma convert_dictionary_loop_cut_short cv kvs : forall fuel output,
  Forall (fun kv => converts cv (BStr (fst kv)) /\ converts cv (snd kv)) kvs ->
  fails cv [] ->
  length kvs < fuel ->
  fails (convert_dictionary_loop cv fuel output) (concat (map bencode_pair kvs)).
Proof.
  induction kvs as [|[k v] kvs IH]; intros fuel output Hc Hend Hf;
    (destruct fuel as [|fuel]; [inversion Hf|]);
    cbn [convert_dictionary_loop].
  - cbn [map concat]. eapply fails_bind_then; [apply io_get_eof|].
    rewrite char_of_int_EOF. cbn [Byte.eqb].
    change (Byte.eqb xff "e") with false. cbv iota.
    eapply fails_bind_then; [apply io_unget_lost|].
    eapply fails_bind_then; [apply io_comma|].
    apply fails_bind_first. exact Hend.
  - apply Forall_cons_iff in Hc. destruct Hc as [[Hk Hv] Hkvs].
    cbn [fst snd] in Hk, Hv.
    cbn [map concat length bencode_pair] in *. rewrite <- !app_assoc.
    destruct (bencode_string_head k) as (c & tl & E & Hd).
    assert (Hne : c <> "e") by (intros ->; discriminate Hd).
    rewrite E at 1. cbn [app].
    eapply fails_bind_then; [apply io_get|].
    rewrite char_of_int_code, (eqb_neq_byte _ _ Hne).
    eapply fails_bind_then; [apply io_unget; intros ->; discriminate Hd|].
    change (c :: tl ++ ?r) with ((c :: tl) ++ r). rewrite <- E.
    eapply fails_bind_then; [apply io_comma|].
    eapply fails_bind_then; [apply (Hk _)|].
    eapply fails_bind_then; [apply io_output|].
    eapply fails_bind_then; [apply Hv|].
    apply IH; [assumption | assumption | lia].
Qed.

(** X11: when the input ends inside a list or a dictionary, after any number
    of complete well-formed elements or pairs, the program does not stop
    cleanly: the missing element is taken for a string, [read_count] reads
    [EOF] fifty times and writes outside [lenBuf]. *)
Theorem container_cut_short :
  (forall vs fuel,
     forallb wf vs = true ->
     length (concat (map bencode vs)) + 52 < fuel ->
     fst (main fuel (initial ("l" :: concat (map bencode vs)))) = Undefined) /\
  (forall kvs fuel,
     forallb (fun kv => short (fst kv) && wf (snd kv)) kvs = true ->
     length (concat (map bencode_pair kvs)) + 52 < fuel ->
     fst (main fuel (initial ("d" :: concat (map bencode_pair kvs))))
     = Undefined).
Proof.
  split.
  - intros vs fuel Hwf Hf.
    destruct fuel as [|fuel]; [inversion Hf|].
    assert (F : fails (main (S fuel)) ("l" :: concat (map bencode vs))).
    { unfold main. apply fails_bind_first. cbn [convert_value].
      eapply fails_bind_then; [apply io_get|].
      rewrite char_of_int_code. cbn [Byte.eqb].
      change (Byte.eqb "l" "i") with false.
      change (Byte.eqb "l" "l") with true. cbv iota.
      unfold convert_list.
      eapply fails_bind_then; [apply io_output|].
      apply fails_bind_first. apply convert_list_loop_cut_short.
      - apply Forall_forall. intros v Hin rest'. apply convert_value_io.
        + rewrite forallb_forall in Hwf. auto.
        + pose proof (length_concat_in bencode v vs Hin). lia.
      - apply convert_value_fails_at_end. unfold MAX_INT_LEN. lia.
      - pose proof (length_concat_count bencode vs bencode_nonempty). lia. }
    apply F. reflexivity.
  - intros kvs fuel Hwf Hf.
    destruct fuel as [|fuel]; [inversion Hf|].
    assert (F : fails (main (S fuel)) ("d" :: concat (map bencode_pair kvs))).
    { unfold main. apply fails_bind_first. cbn [convert_value].
      eapply fails_bind_then; [apply io_get|].
      rewrite char_of_int_code. cbn [Byte.eqb].
      change (Byte.eqb "d" "i") with false.
      change (Byte.eqb "d" "l") with false.
      change (Byte.eqb "d" "d") with true. cbv iota.
      unfold convert_dictionary.
      eapply fails_bind_then; [apply io_output|].
      apply fails_bind_first. apply convert_dictionary_loop_cut_short.
      - apply Forall_forall. intros [k v] Hin.
        rewrite forallb_forall in Hwf. specialize (Hwf _ Hin).
        apply andb_true_iff in Hwf. destruct Hwf as [Wk Wv]. cbn [fst snd] in *.
        pose proof (length_concat_in bencode_pair (k, v) kvs Hin) as L.
        cbn [bencode_pair] in L. rewrite length_app in L.
        split; intros rest'; apply convert_value_io; cbn [wf bencode];
          try assumption; lia.
      - apply convert_value_fails_at_end. unfold MAX_INT_LEN. lia.
      - pose proof (length_concat_count bencode_pair kvs bencode_pair_nonempty).
        lia. }
    apply F. reflexivity.
Qed.

Lemma container_cut_short_witness :
  fst (main 60 (initial ("l" :: concat (map bencode [BInt 1; BStr (bytes "a")]))))
  = Undefined /\
  fst (main 60 (initial ("d" :: concat (map bencode_pair [(bytes "k", BInt 1)]))))
  = Undefined.
Proof.
  split.
  - apply (proj1 container_cut_short [BInt 1; BStr (bytes "a")] 60);
      [reflexivity | vm_compute; lia].
  - apply (proj2 container_cut_short [(bytes "k", BInt 1)] 60);
      [reflexivity | vm_compute; lia].
Defined.

(** ** Inputs that are no value at all *)

Lemma fails_get {B} (k : Z -> M B) inp :
  fails (k (next_int inp)) (tl inp) -> fails (bind get_character k) inp.
Proof.
  intros H. destruct inp as [|c inp];
    (eapply fails_bind_then; [|exact H]); [apply io_get_eof | apply io_get].
Qed.

Lemma reads_pushed_back n inp :
  reads (S n) (char_of_int (next_int inp) :: tl inp) = reads (S n) inp.
Proof. rewrite !reads_S. simpl. rewrite char_of_int_code. reflexivity. Qed.

(** X12: an input that starts with none of the tags [i], [l], [d] is taken
    for a string.  Its first byte is pushed back and starts the length
    prefix, unless it is 0xff, or the input is empty and the read returned
    [EOF]: then nothing is pushed back and the prefix starts at the byte
    after.  When there is no delimiter among the first fifty characters read
    for the prefix, the program writes outside [lenBuf].  The empty input is
    such an input. *)
Theorem main_without_delimiter inp fuel :
  char_of_int (next_int inp) <> "i" ->
  char_of_int (next_int inp) <> "l" ->
  char_of_int (next_int inp) <> "d" ->
  Forall (fun c => c <> ":")
         (reads MAX_INT_LEN
                (if Byte.eqb (char_of_int (next_int inp)) xff then tl inp
                 else inp)) ->
  MAX_INT_LEN < fuel ->
  fst (main fuel (initial inp)) = Undefined.
Proof.
  intros Hi Hl Hd Hp Hf. destruct fuel as [|fuel]; [inversion Hf|].
  assert (F : fails (main (S fuel)) inp).
  { unfold main. apply fails_bind_first. cbn [convert_value].
    apply fails_get. cbv zeta.
    rewrite (eqb_neq_byte _ _ Hi), (eqb_neq_byte _ _ Hl), (eqb_neq_byte _ _ Hd).
    destruct (Byte.eqb (char_of_int (next_int inp)) xff) eqn:X.
    - apply byte_dec_bl in X. rewrite X.
      eapply fails_bind_then; [apply io_unget_lost|].
      unfold convert_string. apply fails_bind_first.
      apply read_count_fails; [exact Hp | lia].
    - assert (Hx : char_of_int (next_int inp) <> xff).
      { intros Y. rewrite Y in X. discriminate X. }
      eapply fails_bind_then; [apply io_unget; exact Hx|].
      unfold convert_string. apply fails_bind_first.
      apply read_count_fails; [|lia].
      change MAX_INT_LEN with (S 49) in *. rewrite reads_pushed_back.
      exact Hp. }
  apply F. reflexivity.
Qed.

Lemma main_without_delimiter_witness :
  fst (main 51 (initial [])) = Undefined /\
  fst (main 51 (initial (bytes "4spam"))) = Undefined /\
  fst (main 51 (initial (xff :: bytes "4spam"))) = Undefined.
Proof.
  split; [|split].
  - apply (main_without_delimiter [] 51); try discriminate.
    + vm_compute. repeat constructor; discriminate.
    + unfold MAX_INT_LEN. lia.
  - apply (main_without_delimiter (bytes "4spam") 51); try discriminate.
    + vm_compute. repeat constructor; discriminate.
    + unfold MAX_INT_LEN. lia.
  - apply (main_without_delimiter (xff :: bytes "4spam") 51); try discriminate.
    + vm_compute. repeat constructor; discriminate.
    + unfold MAX_INT_LEN. lia.
Defined.

(** A first byte 0xff does not count towards the fifty: after it, a prefix of
    forty-nine bytes and the delimiter fit the buffer. *)
Example run_on_byte_255_and_49 :
  run 60 (xff :: repeat "0" 49 ++ [":"]) = (Done 0%Z, [dquote; dquote]).
Proof. vm_compute. reflexivity. Qed.

(** X13: a length prefix of digits whose value is above [INT_MAX] is outside
    what [atoi] can return: [read_count] has consumed the prefix and the
    delimiter, and its result is not defined. *)
Theorem read_count_above_int ds rest fuel st :
  Forall (fun c => isdigit c = true) ds ->
  length ds <= 49 ->
  (INT_MAX < digits_value ds)%Z ->
  pending st = ds ++ ":" :: rest ->
  length ds < fuel ->
  exists st', read_count fuel st = (Undefined, st') /\
              pending st' = rest /\
              Forall (fun i => i < MAX_INT_LEN)
                     (skipn (length (lenBuf_writes st)) (lenBuf_writes st')).
Proof.
  intros Hd Hlen Hv P Hf.
  assert (L : length ds < MAX_INT_LEN) by (unfold MAX_INT_LEN; lia).
  destruct (read_count_loop_delim ds [] fuel rest st)
    as (st1 & E & P1 & O1 & W1);
    [apply digits_no; [reflexivity | assumption] | exact L | lia
    | assumption |].
  simpl in E, W1. unfold read_count, bind.
  change (repeat None MAX_INT_LEN) with (buffer []). rewrite E.
  cbn [fst snd]. unfold store. rewrite (update_buffer ds x00 L).
  assert (A : atoi (buffer (ds ++ [x00])) = None).
  { unfold atoi. rewrite buffer_terminated, atoi_skip_digits by assumption.
    replace (digits_value ds <=? INT_MAX)%Z with false
      by (symmetry; apply Z.leb_gt; exact Hv).
    rewrite andb_false_r. reflexivity. }
  rewrite A. eexists. split; [reflexivity|].
  cbn [pending stdout lenBuf_writes]. split; [exact P1|].
  rewrite W1, <- app_assoc, skipn_app, skipn_all, Nat.sub_diag. cbn [app skipn].
  apply Forall_app. split.
  - apply Forall_forall. intros i Hi. apply in_seq in Hi. lia.
  - constructor; [exact L | constructor].
Qed.

Lemma read_count_above_int_witness :
  exists st', read_count 20 (initial (bytes "4294967296:abc")) = (Undefined, st') /\
              pending st' = bytes "abc" /\
              Forall (fun i => i < MAX_INT_LEN)
                     (skipn (length (lenBuf_writes (initial (bytes "4294967296:abc"))))
                            (lenBuf_writes st')).
Proof.
  apply (read_count_above_int (bytes "4294967296") (bytes "abc") 20
           (initial (bytes "4294967296:abc"))).
  - repeat constructor.
  - simpl. lia.
  - vm_compute. reflexivity.
  - reflexivity.
  - simpl. lia.
Defined.
